(** * fuzzion: approximate matching of target-sequence pairs in reads

    A shallow embedding of [fuzzion.cpp] (fuzzion 2.0) and the properties
    of its matching engine.

    Conventions of the embedding.
    - [char] is [ascii]; a [std::string] and a C string are [list ascii]
      (type [str]) without the terminating NUL.
    - [int] is [Z].  Every [int] of the program is a string length, an
      offset into one, or a difference of two such, so the embedding
      leaves the 32-bit range implicit (the lengths are far below 2^30).
    - Reading a buffer outside [0, length) is the fault [invalid_read];
      [std::runtime_error] and [std::out_of_range] are faults too, and a
      faulting computation is an [Err].
    - A [std::runtime_error] is observed through [what()], a C string:
      the fault carries the characters of the message before its first
      NUL ([what_of]).
    - [int&] output parameters are threaded: a search receives the value
      its [matchStart] argument holds on entry and returns both outputs. *)

From Stdlib Require Import String Ascii ZArith List Bool Lia.
Import ListNotations.
Local Open Scope Z_scope.

Set Implicit Arguments.

(** ** Strings and faults *)

Definition str := list ascii.

Definition lit (s : string) : str := list_ascii_of_string s.

(** [s.length()] converted to [int]. *)
Definition len (s : str) : Z := Z.of_nat (length s).

Inductive fault : Type :=
| runtime_error (what : str)
| out_of_range
| invalid_read.

Inductive result (A : Type) : Type :=
| Ok (a : A)
| Err (e : fault).
Arguments Ok {A} a.
Arguments Err {A} e.

Definition bind {A B} (r : result A) (k : A -> result B) : result B :=
  match r with
  | Ok a => k a
  | Err e => Err e
  end.

Declare Scope result_scope.
Delimit Scope result_scope with result.
Notation "x <- r ;; k" := (bind r (fun x => k))
  (at level 61, r at next level, right associativity) : result_scope.
Notation "' p <- r ;; k" := (bind r (fun x => let p := x in k))
  (at level 61, p pattern, r at next level, right associativity) : result_scope.
Local Open Scope result_scope.

(** [a[i]] for an array of [length a] elements. *)
Definition array_get {A} (a : list A) (i : Z) : result A :=
  if i <? 0 then Err invalid_read
  else match nth_error a (Z.to_nat i) with
       | Some x => Ok x
       | None => Err invalid_read
       end.

(** [buf[i]] for a character buffer. *)
Definition read_at (buf : str) (i : Z) : result ascii := array_get buf i.

(** ** Constants and configuration *)

Definition MIN_TARGET_LENGTH : Z := 8.
Definition DEFAULT_MAXSUB : Z := 2.

(** ** Character helpers *)

(** [std::toupper] and [std::tolower] in the "C" locale. *)
Definition toupper (c : ascii) : ascii :=
  let n := N_of_ascii c in
  if ((97 <=? n) && (n <=? 122))%N then ascii_of_N (n - 32) else c.

Definition tolower (c : ascii) : ascii :=
  let n := N_of_ascii c in
  if ((65 <=? n) && (n <=? 90))%N then ascii_of_N (n + 32) else c.

(** [toupperSequence]: the loop appends [toupper(sequence[i])] for
    [i = 0 .. len-1]. *)
Definition toupperSequence (sequence : str) : str := map toupper sequence.

(** [getDelimitedStrings]: the loop state is the unread suffix of [s]
    (position [i]), the [value] under construction and the vector [v].
    The end of [s] and every delimiter push [value]; the loop stops at
    the end of [s]. *)
Fixpoint getDelimitedStrings_loop (s : str) (delimiter : ascii)
         (value : str) (v : list str) : list str :=
  match s with
  | [] => v ++ [value]
  | c :: s' =>
      if Ascii.eqb c delimiter
      then getDelimitedStrings_loop s' delimiter [] (v ++ [value])
      else getDelimitedStrings_loop s' delimiter (value ++ [c]) v
  end.

Definition getDelimitedStrings (s : str) (delimiter : ascii) (v : list str)
  : list str :=
  getDelimitedStrings_loop s delimiter [] v.

Definition isACGT (ch : ascii) : bool :=
  let ch := toupper ch in
  Ascii.eqb ch "A" || Ascii.eqb ch "C" || Ascii.eqb ch "G" || Ascii.eqb ch "T".

Definition isAllACGT (sequence : str) : bool := forallb isACGT sequence.

(** ** Bounded-substitution comparison *)

(** [isMatch(&readseq[start], target, targetlen)]; [n] counts the
    iterations that remain, [i] is the loop variable. *)
Fixpoint isMatch_loop (maxsub : Z) (readseq : str) (start : Z) (target : str)
         (n : nat) (i : Z) (numsubs : Z) : result bool :=
  match n with
  | O => Ok true
  | S n' =>
      r <- read_at readseq (start + i) ;;
      t <- read_at target i ;;
      if negb (Ascii.eqb r t) then
        let numsubs := numsubs + 1 in
        if numsubs >? maxsub then Ok false
        else isMatch_loop maxsub readseq start target n' (i + 1) numsubs
      else isMatch_loop maxsub readseq start target n' (i + 1) numsubs
  end.

Definition isMatch (maxsub : Z) (readseq : str) (start : Z) (target : str)
           (targetlen : Z) : result bool :=
  isMatch_loop maxsub readseq start target (Z.to_nat targetlen) 0 0.

(** ** Target: one or more target sequences *)

Record Target : Type := mkTarget {
  want : bool;       (* true if we want to find any one of these sequences *)
  minseqlen : Z;
  maxseqlen : Z;
  seqcount : Z;
  seqlen : list Z;   (* array containing target sequence lengths *)
  seq : list str     (* array containing target sequences *)
}.

(** The characters [strcpy] copies from [s.c_str()]: those before the
    first NUL. *)
Fixpoint strcpy (s : str) : str :=
  match s with
  | [] => []
  | c :: s' => if Ascii.eqb c zero then [] else c :: strcpy s'
  end.

(** [error.what()] for a [std::runtime_error] constructed from the
    [std::string] [msg]: [what()] is a [const char *], so a reader of it
    sees the characters of [msg] before the first NUL. *)
Definition what_of (msg : str) : str := strcpy msg.

(** The loop over [t[1..]] that maintains [minseqlen] and [maxseqlen]. *)
Definition minmax_step (mm : Z * Z) (ti : str) : Z * Z :=
  let '(mn, mx) := mm in
  if len ti <? mn then (len ti, mx)
  else if len ti >? mx then (mn, len ti)
  else (mn, mx).

(** The loop that throws at the first [t[i]] that is not all ACGT. *)
Fixpoint check_all_ACGT (t : list str) : result unit :=
  match t with
  | [] => Ok tt
  | ti :: t' =>
      if negb (isAllACGT ti)
      then Err (runtime_error (what_of (lit "invalid character in " ++ ti)))
      else check_all_ACGT t'
  end.

(** [Target::Target(targetString)] *)
Definition Target_new (targetString : str) : result Target :=
  let s := toupperSequence targetString in
  let '(want, s) :=
    match s with
    | c :: s' => if Ascii.eqb c "-" then (false, s') else (true, s)
    | [] => (true, s)
    end in
  let t := getDelimitedStrings s "|" [] in
  let seqcount := Z.of_nat (length t) in
  t0 <- array_get t 0 ;;
  let '(minseqlen, maxseqlen) :=
    fold_left minmax_step (tl t) (len t0, len t0) in
  if minseqlen <? MIN_TARGET_LENGTH
  then Err (runtime_error
              (what_of (lit "invalid sequence length in " ++ targetString)))
  else
    _ <- check_all_ACGT t ;;
    Ok (mkTarget want minseqlen maxseqlen seqcount (map len t) (map strcpy t)).

(** [reverseSequence]: [n] is [i + 1] for the loop variable [i], which
    runs from [len - 1] down to [0]. *)
Fixpoint reverseSequence_loop (sequence : str) (n : nat) (reverseSeq : str)
  : str :=
  match n with
  | O => reverseSeq
  | S i => reverseSequence_loop sequence i
             (reverseSeq ++ [nth i sequence zero])
  end.

Definition reverseSequence (sequence : str) : str :=
  reverseSequence_loop sequence (length sequence) [].

Definition invert_char (c : ascii) : ascii :=
  match c with
  | "A" => "T" | "a" => "t"
  | "T" => "A" | "t" => "a"
  | "C" => "G" | "c" => "g"
  | "G" => "C" | "g" => "c"
  | _ => c
  end%char.

Definition invertSequence (sequence : str) : str := map invert_char sequence.

(** [Target::reverseComplement()]; the loop reads [seq[i]] for
    [i = 0 .. seqcount-1]. *)
Fixpoint reverseComplement_loop (t : Target) (n : nat) (i : Z) (revcomp : str)
  : result str :=
  match n with
  | O => Ok revcomp
  | S n' =>
      temp <- array_get (seq t) i ;;
      let temp := reverseSequence temp in
      let temp := invertSequence temp in
      reverseComplement_loop t n' (i + 1)
        (revcomp ++ (if i >? 0 then "|"%char :: temp else temp))
  end.

Definition reverseComplement (t : Target) : result str :=
  reverseComplement_loop t (Z.to_nat (seqcount t)) 0
    (if want t then [] else ["-"%char]).

(** ** Directional searches *)

(** What a search returns: the [bool] and the two output parameters. *)
Record found : Type := mkFound {
  isFound : bool;
  matchIndex : Z;
  matchStart : Z
}.

(** The state of the loop over the candidates; [bound] is [lastMatchEnd]
    in [findLeftmost] and [lastMatchStart] in [findRightmost]. *)
Record search : Type := mkSearch {
  s_matchIndex : Z;
  s_matchStart : Z;
  bound : Z
}.

Section Search.
Variable maxsub : Z.
Variable readseq : str.

(** [for (start = from; ...; start++) if (isMatch(&readseq[start], seq[i],
    seqlen[i])) break;] over [n] start positions: the first start at which
    [isMatch] holds. *)
Fixpoint scan_up (t : Target) (i : Z) (n : nat) (start : Z)
  : result (option Z) :=
  match n with
  | O => Ok None
  | S n' =>
      seq_i <- array_get (seq t) i ;;
      seqlen_i <- array_get (seqlen t) i ;;
      m <- isMatch maxsub readseq start seq_i seqlen_i ;;
      if m then Ok (Some start)
      else scan_up t i n' (start + 1)
  end.

(** The same with [start--]. *)
Fixpoint scan_down (t : Target) (i : Z) (n : nat) (start : Z)
  : result (option Z) :=
  match n with
  | O => Ok None
  | S n' =>
      seq_i <- array_get (seq t) i ;;
      seqlen_i <- array_get (seqlen t) i ;;
      m <- isMatch maxsub readseq start seq_i seqlen_i ;;
      if m then Ok (Some start)
      else scan_down t i n' (start - 1)
  end.

(** The body of the loop over the candidates in [findLeftmost]. *)
Definition findLeftmost_step (t : Target) (i : Z) (st : search)
  : result search :=
  seqlen_i <- array_get (seqlen t) i ;;
  let lastStart := bound st - seqlen_i in
  r <- scan_up t i (Z.to_nat (lastStart + 1)) 0 ;;
  match r with
  | Some start => Ok (mkSearch i start (start + seqlen_i - 1))
  | None => Ok st
  end.

(** The body of the loop over the candidates in [findRightmost]. *)
Definition findRightmost_step (t : Target) (readseqlen : Z) (i : Z)
           (st : search) : result search :=
  seqlen_i <- array_get (seqlen t) i ;;
  let firstStart := readseqlen - seqlen_i in
  r <- scan_down t i (Z.to_nat (firstStart - bound st + 1)) firstStart ;;
  match r with
  | Some start => Ok (mkSearch i start (start + 1))
  | None => Ok st
  end.

(** [for (i = from; i < seqcount; i++) body], [n] iterations left. *)
Fixpoint for_candidates (body : Z -> search -> result search)
         (n : nat) (i : Z) (st : search) : result search :=
  match n with
  | O => Ok st
  | S n' =>
      st' <- body i st ;;
      for_candidates body n' (i + 1) st'
  end.

(** [Target::findLeftmost]; [matchStart0] is the value the caller's
    [matchStart] holds on entry. *)
Definition findLeftmost (t : Target) (readseqlen rightpad : Z)
           (matchStart0 : Z) : result found :=
  let st := mkSearch (-1) matchStart0 (readseqlen - rightpad) in
  st <- for_candidates (findLeftmost_step t) (Z.to_nat (seqcount t)) 0 st ;;
  Ok (mkFound (s_matchIndex st >=? 0) (s_matchIndex st) (s_matchStart st)).

(** [Target::findRightmost] *)
Definition findRightmost (t : Target) (readseqlen leftpad : Z)
           (matchStart0 : Z) : result found :=
  let st := mkSearch (-1) matchStart0 leftpad in
  st <- for_candidates (findRightmost_step t readseqlen)
          (Z.to_nat (seqcount t)) 0 st ;;
  Ok (mkFound (s_matchIndex st >=? 0) (s_matchIndex st) (s_matchStart st)).

End Search.

(** ** TargetPair: a labeled pair of Target objects *)

Record TargetPair : Type := mkTargetPair {
  label : str;
  left : Target;
  right : Target
}.

(** [TargetPair::TargetPair]: the members are initialised in the order
    [label], [left], [right]; then the body runs. *)
Definition TargetPair_new (inLabel leftTargetString rightTargetString : str)
  : result TargetPair :=
  l <- Target_new leftTargetString ;;
  r <- Target_new rightTargetString ;;
  if len inLabel =? 0
  then Err (runtime_error
              (what_of (lit "missing label before " ++ leftTargetString)))
  else if negb (want l) && negb (want r)
  then Err (runtime_error
              (what_of (lit "double negative specified for " ++ inLabel)))
  else Ok (mkTargetPair inLabel l r).

(** [TargetPair::createReverseComplement] *)
Definition createReverseComplement (tp : TargetPair) : result TargetPair :=
  leftTargetString <- reverseComplement (right tp) ;;
  rightTargetString <- reverseComplement (left tp) ;;
  TargetPair_new (label tp) leftTargetString rightTargetString.

(** *** The condition of [TargetPair::findMatch]

    The condition is one expression of [&&], [||], [==] and [!] over four
    calls that write the locals [leftIndex], [leftStart], [rightIndex],
    [rightStart].  It is embedded in a state and error monad over these
    locals; the monad also logs each search the evaluation performs, with
    its reserve argument. *)

Record locals : Type := mkLocals {
  leftIndex : Z;
  leftStart : Z;
  rightIndex : Z;
  rightStart : Z
}.

Inductive call : Type :=
| LeftmostCall (rightpad : Z)
| RightmostCall (leftpad : Z).

Record frame : Type := mkFrame {
  vars : locals;
  calls : list call
}.

Definition eval (A : Type) : Type := frame -> result (A * frame).

Definition pure {A} (a : A) : eval A := fun f => Ok (a, f).

(** [a && b] *)
Definition andE (a b : eval bool) : eval bool :=
  fun f => '(x, f') <- a f ;; if x then b f' else Ok (false, f').

(** [a || b] *)
Definition orE (a b : eval bool) : eval bool :=
  fun f => '(x, f') <- a f ;; if x then Ok (true, f') else b f'.

(** [!a] *)
Definition notE (a : eval bool) : eval bool :=
  fun f => '(x, f') <- a f ;; Ok (negb x, f').

(** [a == b] for a call [a] and a side-effect free [b] *)
Definition eqE (a : eval bool) (b : bool) : eval bool :=
  fun f => '(x, f') <- a f ;; Ok (Bool.eqb x b, f').

Declare Scope eval_scope.
Delimit Scope eval_scope with eval.
Infix "&&&" := andE (at level 40, left associativity) : eval_scope.
Infix "|||" := orE (at level 50, left associativity) : eval_scope.

Section FindMatch.
Variable maxsub : Z.
Variable tp : TargetPair.
Variable readseq : str.
Variable readseqlen : Z.

(** [left->findLeftmost(readseq, readseqlen, rightpad, leftIndex,
    leftStart)]; the argument is evaluated from the locals first. *)
Definition left_findLeftmost (rightpad : locals -> result Z) : eval bool :=
  fun f =>
    let v := vars f in
    pad <- rightpad v ;;
    r <- findLeftmost maxsub readseq (left tp) readseqlen pad (leftStart v) ;;
    Ok (isFound r,
        mkFrame (mkLocals (matchIndex r) (matchStart r)
                          (rightIndex v) (rightStart v))
                (calls f ++ [LeftmostCall pad])).

(** [right->findRightmost(readseq, readseqlen, leftpad, rightIndex,
    rightStart)] *)
Definition right_findRightmost (leftpad : locals -> result Z) : eval bool :=
  fun f =>
    let v := vars f in
    pad <- leftpad v ;;
    r <- findRightmost maxsub readseq (right tp) readseqlen pad
           (rightStart v) ;;
    Ok (isFound r,
        mkFrame (mkLocals (leftIndex v) (leftStart v)
                          (matchIndex r) (matchStart r))
                (calls f ++ [RightmostCall pad])).

Definition findMatch_cond : eval bool :=
  (pure (want (left tp))
   &&& left_findLeftmost
         (fun _ => Ok (if want (right tp) then minseqlen (right tp)
                       else maxseqlen (right tp)))
   &&& eqE (right_findRightmost
              (fun v => l <- array_get (seqlen (left tp)) (leftIndex v) ;;
                        Ok (leftStart v + l)))
           (want (right tp))
   ||| pure (negb (want (left tp)))
       &&& right_findRightmost (fun _ => Ok (maxseqlen (left tp)))
       &&& notE (left_findLeftmost
                   (fun v => Ok (readseqlen - rightStart v))))%eval.

End FindMatch.

(** ** Reporting *)

(** [std::string::substr(pos, n)] with [int] arguments: a negative [pos]
    converts to a position past the end, a negative [n] to a count that
    reaches the end. *)
Definition substr (s : str) (pos n : Z) : result str :=
  if (pos <? 0) || (pos >? len s) then Err out_of_range
  else Ok (if n <? 0 then skipn (Z.to_nat pos) s
           else firstn (Z.to_nat n) (skipn (Z.to_nat pos) s)).

(** The loop of [highlight] over [readString[i]], [i = 0 .. len-1]. *)
Fixpoint highlight_loop (readString : str) (target : str) (i : Z)
  : result str :=
  match readString with
  | [] => Ok []
  | c :: rest =>
      t <- read_at target i ;;
      out <- highlight_loop rest target (i + 1) ;;
      Ok ((if Ascii.eqb c t then c else tolower c) :: out)
  end.

(** [highlight]: the text written to stdout. *)
Definition highlight (readString : str) (target : str) : result str :=
  body <- highlight_loop readString target 0 ;;
  Ok (lit "[" ++ body ++ lit "]").

Definition tab : ascii := "009"%char.
Definition newline : ascii := "010"%char.

(** [TargetPair::writeMatch]: the text written to stdout. *)
Definition writeMatch (tp : TargetPair) (readName readString : str)
           (leftIndex leftStart rightIndex rightStart : Z) : result str :=
  let out := readName ++ [tab] in
  let initialBases := if want (left tp) then leftStart else rightStart in
  out <- (if initialBases >? 0
          then s <- substr readString 0 initialBases ;; Ok (out ++ s)
          else Ok out) ;;
  out <- (if want (left tp) then
            leftlen <- array_get (seqlen (left tp)) leftIndex ;;
            span <- substr readString leftStart leftlen ;;
            target <- array_get (seq (left tp)) leftIndex ;;
            h <- highlight span target ;;
            let out := out ++ h in
            let nextlen :=
              (if want (right tp) then rightStart else len readString)
              - leftStart - leftlen in
            if nextlen >? 0
            then s <- substr readString (leftStart + leftlen) nextlen ;;
                 Ok (out ++ s)
            else Ok out
          else Ok out) ;;
  out <- (if want (right tp) then
            rightlen <- array_get (seqlen (right tp)) rightIndex ;;
            span <- substr readString rightStart rightlen ;;
            target <- array_get (seq (right tp)) rightIndex ;;
            h <- highlight span target ;;
            let out := out ++ h in
            let nextlen := len readString - rightStart - rightlen in
            if nextlen >? 0
            then s <- substr readString (rightStart + rightlen) nextlen ;;
                 Ok (out ++ s)
            else Ok out
          else Ok out) ;;
  Ok (out ++ [tab] ++ label tp ++ [newline]).

(** [TargetPair::findMatch]: the text written to stdout; [v0] holds the
    indeterminate initial values of the four locals. *)
Definition findMatch (maxsub : Z) (tp : TargetPair)
           (readName readString : str) (v0 : locals) : result str :=
  let readseq := readString in
  let readseqlen := len readString in
  '(c, f) <- findMatch_cond maxsub tp readseq readseqlen (mkFrame v0 []) ;;
  if c : bool then
    let v := vars f in
    writeMatch tp readName readString
               (leftIndex v) (leftStart v) (rightIndex v) (rightStart v)
  else Ok [].

(** ** The catalog and the scan *)

(** The body of the loop of [readTargetPairs] for one input line. *)
Definition readTargetPairs_step (line : str) (targetPair : list TargetPair)
  : result (list TargetPair) :=
  let column := getDelimitedStrings line tab [] in
  if negb (Z.of_nat (length column) =? 3)
  then Err (runtime_error (what_of (lit "unexpected #columns in " ++ line)))
  else
    c0 <- array_get column 0 ;;
    c1 <- array_get column 1 ;;
    c2 <- array_get column 2 ;;
    tp <- TargetPair_new c0 c1 c2 ;;
    let targetPair := targetPair ++ [tp] in
    rc <- createReverseComplement tp ;;
    Ok (targetPair ++ [rc]).

Fixpoint readTargetPairs_loop (lines : list str) (targetPair : list TargetPair)
  : result (list TargetPair) :=
  match lines with
  | [] => Ok targetPair
  | line :: rest =>
      targetPair <- readTargetPairs_step line targetPair ;;
      readTargetPairs_loop rest targetPair
  end.

(** [readTargetPairs]: [lines] are the lines of stdin. *)
Definition readTargetPairs (lines : list str) : result (list TargetPair) :=
  targetPair <- readTargetPairs_loop lines [] ;;
  let numTargetPairs := Z.of_nat (length targetPair) in
  if numTargetPairs =? 0
  then Err (runtime_error (what_of (lit "no input targets")))
  else Ok targetPair.

(** The loop over the target pairs for one alignment. *)
Fixpoint match_pairs (maxsub : Z) (targetPair : list TargetPair)
         (readName readString : str) (v0 : locals) : result str :=
  match targetPair with
  | [] => Ok []
  | tp :: rest =>
      o <- findMatch maxsub tp readName readString v0 ;;
      os <- match_pairs maxsub rest readName readString v0 ;;
      Ok (o ++ os)
  end.

(** The loop over the alignments of the BAM file, given as (Name,
    QueryBases) pairs. *)
Fixpoint match_reads (maxsub : Z) (targetPair : list TargetPair)
         (reads : list (str * str)) (v0 : locals) : result str :=
  match reads with
  | [] => Ok []
  | (name, bases) :: rest =>
      o <- match_pairs maxsub targetPair name bases v0 ;;
      os <- match_reads maxsub targetPair rest v0 ;;
      Ok (o ++ os)
  end.

(** [readBamFile] once the BAM file is open: the target pairs are read
    from stdin, then every alignment is matched. *)
Definition readBamFile (maxsub : Z) (lines : list str)
           (reads : list (str * str)) (v0 : locals) : result str :=
  targetPair <- readTargetPairs lines ;;
  match_reads maxsub targetPair reads v0.

(** * Specification-side definitions

    The definitions below are not in the program: they state what the
    specification says, for comparison with the embedding above. *)

(** The number of positions at which two buffers differ. *)
Fixpoint mismatches (a b : str) : Z :=
  match a, b with
  | x :: a', y :: b' => (if Ascii.eqb x y then 0 else 1) + mismatches a' b'
  | _, _ => 0
  end.

(** [window s start n]: the [n] characters of [s] from offset [start]. *)
Definition window (s : str) (start : Z) (n : nat) : str :=
  firstn n (skipn (Z.to_nat start) s).

(** A sequence set as the constructor leaves it: the arrays agree with
    [seqcount], every candidate is upper-case ACGT of at least the minimum
    length, and [minseqlen], [maxseqlen] are the extreme lengths. *)
Definition is_base (c : ascii) : bool :=
  Ascii.eqb c "A" || Ascii.eqb c "C" || Ascii.eqb c "G" || Ascii.eqb c "T".

Definition wf_Target (t : Target) : Prop :=
  seqcount t = Z.of_nat (length (seq t))
  /\ seqlen t = map len (seq t)
  /\ seq t <> []
  /\ Forall (fun c => MIN_TARGET_LENGTH <= len c
                      /\ minseqlen t <= len c <= maxseqlen t
                      /\ forallb is_base c = true) (seq t)
  /\ Exists (fun c => len c = minseqlen t) (seq t)
  /\ Exists (fun c => len c = maxseqlen t) (seq t).

(** The part of [wf_Target] the searches rely on. *)
Definition arrays_ok (t : Target) : Prop :=
  seqcount t = Z.of_nat (length (seq t)) /\ seqlen t = map len (seq t).

Definition wf_TargetPair (tp : TargetPair) : Prop :=
  wf_Target (left tp) /\ wf_Target (right tp)
  /\ label tp <> []
  /\ (want (left tp) = true \/ want (right tp) = true).

(** Candidate [c] occurs in the read at offset [s]: the window of [c]'s
    length at [s] lies inside the read and the bounded-substitution
    comparison succeeds on it. *)
Definition occurs (maxsub : Z) (readseq : str) (c : str) (s : Z) : Prop :=
  0 <= s /\ s + len c <= len readseq
  /\ isMatch maxsub readseq s c (len c) = Ok true.

(** Candidate number [j] of [t] occurs at [s], starts at or after [lo]
    and ends (exclusively) at or before [hi]. *)
Definition qualifies (maxsub : Z) (readseq : str) (t : Target) (lo hi : Z)
           (j : nat) (s : Z) : Prop :=
  exists c, nth_error (seq t) j = Some c
            /\ occurs maxsub readseq c s /\ lo <= s /\ s + len c <= hi.

(** The length of candidate number [j] of [t] (0 when there is none). *)
Definition cand_len (t : Target) (j : Z) : Z :=
  if j <? 0 then 0 else len (nth (Z.to_nat j) (seq t) []).

(** The exclusive end of an occurrence of candidate [j] at [s]. *)
Definition occ_end (t : Target) (j : Z) (s : Z) : Z := s + cand_len t j.

(** The loop invariant of [findLeftmost] after the candidates below [i]:
    nothing is recorded and none of them qualifies, or the recorded
    occurrence qualifies, the bound is its end minus one, and every
    qualifying occurrence of those candidates ends at or after it (a
    later candidate only strictly after it). *)
Definition leftmost_inv (maxsub : Z) (readseq : str) (t : Target)
           (limit matchStart0 : Z) (i : nat) (st : search) : Prop :=
  (s_matchIndex st = -1 /\ s_matchStart st = matchStart0 /\ bound st = limit
   /\ forall j s, (j < i)%nat -> ~ qualifies maxsub readseq t 0 limit j s)
  \/
  (exists idx : nat,
      s_matchIndex st = Z.of_nat idx /\ (idx < i)%nat
      /\ qualifies maxsub readseq t 0 limit idx (s_matchStart st)
      /\ bound st = occ_end t (Z.of_nat idx) (s_matchStart st) - 1
      /\ forall j s, (j < i)%nat -> qualifies maxsub readseq t 0 limit j s ->
           occ_end t (Z.of_nat idx) (s_matchStart st)
           <= occ_end t (Z.of_nat j) s
           /\ (occ_end t (Z.of_nat idx) (s_matchStart st)
               = occ_end t (Z.of_nat j) s -> (idx <= j)%nat)).

(** The loop invariant of [findRightmost]: the same with starts, which
    grow. *)
Definition rightmost_inv (maxsub : Z) (readseq : str) (t : Target)
           (leftpad readseqlen matchStart0 : Z) (i : nat) (st : search)
  : Prop :=
  (s_matchIndex st = -1 /\ s_matchStart st = matchStart0
   /\ bound st = leftpad
   /\ forall j s, (j < i)%nat ->
        ~ qualifies maxsub readseq t leftpad readseqlen j s)
  \/
  (exists idx : nat,
      s_matchIndex st = Z.of_nat idx /\ (idx < i)%nat
      /\ qualifies maxsub readseq t leftpad readseqlen idx (s_matchStart st)
      /\ bound st = s_matchStart st + 1
      /\ forall j s, (j < i)%nat ->
           qualifies maxsub readseq t leftpad readseqlen j s ->
           s <= s_matchStart st
           /\ (s = s_matchStart st -> (idx <= j)%nat)).

(** The loop of [findLeftmost] after its first [k] candidates. *)
Definition leftmost_after (maxsub : Z) (readseq : str) (t : Target)
           (readseqlen rightpad matchStart0 : Z) (k : nat) : result search :=
  for_candidates (findLeftmost_step maxsub readseq t) k 0
                 (mkSearch (-1) matchStart0 (readseqlen - rightpad)).

(** The tightening with the bound at the recorded match's START: once a
    match is recorded, a match recorded for a later candidate ends at or
    before the start of the earlier one. *)
Definition later_match_ends_before_start (maxsub : Z) (readseq : str)
           (t : Target) (readseqlen rightpad matchStart0 : Z) : Prop :=
  forall (k k' : nat) (st st' : search),
    (k < k')%nat -> Z.of_nat k' <= seqcount t ->
    leftmost_after maxsub readseq t readseqlen rightpad matchStart0 k = Ok st ->
    leftmost_after maxsub readseq t readseqlen rightpad matchStart0 k'
    = Ok st' ->
    0 <= s_matchIndex st -> s_matchIndex st <> s_matchIndex st' ->
    occ_end t (s_matchIndex st') (s_matchStart st') <= s_matchStart st.

(** ** Concrete inputs used by the examples *)

(** The sequence set [AAAAAAAACC|GGAAAAAAAA]. *)
Definition two_overlapping : Target :=
  mkTarget true 10 10 2 [10; 10] [lit "AAAAAAAACC"; lit "GGAAAAAAAA"].

(** The single-candidate set [AAAACCCC]. *)
Definition one_candidate : Target :=
  mkTarget true 8 8 1 [8] [lit "AAAACCCC"].

(** ** The pair predicate as the specification words it *)

(** What the searches of one evaluation must be: the decision of the
    two-branch predicate together with the searches it performs, each
    with its reserve. *)
Definition pair_decision (maxsub : Z) (tp : TargetPair) (readString : str)
  : result (bool * list call) :=
  let readseqlen := len readString in
  if want (left tp) then
    (* the left set requires presence *)
    let reserve := if want (right tp) then minseqlen (right tp)
                   else maxseqlen (right tp) in
    l <- findLeftmost maxsub readString (left tp) readseqlen reserve 0 ;;
    if isFound l then
      let boundary := matchStart l + cand_len (left tp) (matchIndex l) in
      r <- findRightmost maxsub readString (right tp) readseqlen boundary 0 ;;
      Ok (Bool.eqb (isFound r) (want (right tp)),
          [LeftmostCall reserve; RightmostCall boundary])
    else Ok (false, [LeftmostCall reserve])
  else
    (* the left set requires absence *)
    let reserve := maxseqlen (left tp) in
    r <- findRightmost maxsub readString (right tp) readseqlen reserve 0 ;;
    if isFound r then
      (* the left occurrence must end at or before the right match's start *)
      let excluded := readseqlen - matchStart r in
      l <- findLeftmost maxsub readString (left tp) readseqlen excluded 0 ;;
      Ok (negb (isFound l), [RightmostCall reserve; LeftmostCall excluded])
    else Ok (false, [RightmostCall reserve]).

Definition reserve_of (c : call) : Z :=
  match c with
  | LeftmostCall rightpad => rightpad
  | RightmostCall leftpad => leftpad
  end.

(** ** The output record as the specification words it *)

(** A read base inside a span: unchanged where it equals the candidate's
    base, otherwise lower-cased. *)
Definition mark_lower (r c : ascii) : ascii :=
  if Ascii.eqb r c then r else tolower r.

(** The same with the case inverted: upper to lower and lower to upper. *)
Definition swapcase (c : ascii) : ascii :=
  let n := N_of_ascii c in
  if ((65 <=? n) && (n <=? 90))%N then ascii_of_N (n + 32)
  else if ((97 <=? n) && (n <=? 122))%N then ascii_of_N (n - 32)
  else c.

Definition mark_inverted (r c : ascii) : ascii :=
  if Ascii.eqb r c then r else swapcase r.

Fixpoint zip_mark (mark : ascii -> ascii -> ascii) (span cand : str) : str :=
  match span, cand with
  | r :: span', c :: cand' => mark r c :: zip_mark mark span' cand'
  | _, _ => []
  end.

(** The read from offset [pos] on, with each span (start, candidate), in
    read order, enclosed in brackets and marked, and the bases outside
    the spans literal. *)
Fixpoint annotate (mark : ascii -> ascii -> ascii) (readString : str)
         (pos : Z) (spans : list (Z * str)) : str :=
  match spans with
  | [] => skipn (Z.to_nat pos) readString
  | (start, cand) :: rest =>
      window readString pos (Z.to_nat (start - pos))
      ++ lit "[" ++ zip_mark mark (window readString start (length cand)) cand
      ++ lit "]"
      ++ annotate mark readString (start + len cand) rest
  end.

(** Candidate number [j] of [t]. *)
Definition cand (t : Target) (j : Z) : str := nth (Z.to_nat j) (seq t) [].

(** The matched spans of the sides that require presence, left first. *)
Definition spans_of (tp : TargetPair) (v : locals) : list (Z * str) :=
  (if want (left tp)
   then [(leftStart v, cand (left tp) (leftIndex v))] else [])
  ++ (if want (right tp)
      then [(rightStart v, cand (right tp) (rightIndex v))] else []).

(** The record of a match: name, tab, annotated read, tab, label. *)
Definition output_line (mark : ascii -> ascii -> ascii) (tp : TargetPair)
           (readName readString : str) (v : locals) : str :=
  readName ++ [tab] ++ annotate mark readString 0 (spans_of tp v)
  ++ [tab] ++ label tp.

(** Every confirmed match of the pair in the read emits the record built
    with [mark], followed by a newline. *)
Definition emits_record (mark : ascii -> ascii -> ascii) (maxsub : Z)
           (tp : TargetPair) (readName readString : str) (v0 : locals)
  : Prop :=
  forall f,
    findMatch_cond maxsub tp readString (len readString) (mkFrame v0 [])
    = Ok (true, f) ->
    findMatch maxsub tp readName readString v0
    = Ok (output_line mark tp readName readString (vars f) ++ [newline]).

(** The spans lie inside the read from [pos] on, in order and without
    overlap. *)
Fixpoint spans_ok (readString : str) (pos : Z) (spans : list (Z * str))
  : Prop :=
  match spans with
  | [] => pos <= len readString
  | (start, c) :: rest =>
      pos <= start /\ spans_ok readString (start + len c) rest
  end.

(** The pair [FUS] of the specification's example: AAAACCCC then
    GGGGTTTT. *)
Definition FUS : TargetPair :=
  mkTargetPair (lit "FUS") one_candidate
               (mkTarget true 8 8 1 [8] [lit "GGGGTTTT"]).

(** Some values for the uninitialised locals of [findMatch]. *)
Definition some_locals : locals := mkLocals 0 0 0 0.

(** ** Target definitions as the specification words them *)

(** The fields of [s] between the delimiters [d]. *)
Fixpoint split_on (d : ascii) (s : str) : list str :=
  match s with
  | [] => [[]]
  | c :: s' =>
      if Ascii.eqb c d then [] :: split_on d s'
      else match split_on d s' with
           | x :: r => (c :: x) :: r
           | [] => [[c]]
           end
  end.

(** The fields [xs] with the delimiter [d] between them. *)
Fixpoint join (d : ascii) (xs : list str) : str :=
  match xs with
  | [] => []
  | x :: rest =>
      match rest with
      | [] => x
      | _ :: _ => x ++ d :: join d rest
      end
  end.

(** The grammar [-]SEQ(|SEQ)* of a specification string, read after
    upper-casing: the leading [-] and the candidates. *)
Definition spec_absent (spec : str) : bool :=
  match map toupper spec with
  | c :: _ => Ascii.eqb c "-"
  | [] => false
  end.

Definition spec_candidates (spec : str) : list str :=
  split_on "|" (if spec_absent spec then tl (map toupper spec)
                else map toupper spec).

(** A candidate is bad when it is shorter than the minimum or holds a
    character outside A, C, G, T. *)
Definition bad_candidate (c : str) : bool :=
  (len c <? MIN_TARGET_LENGTH) || negb (forallb is_base c).

Definition bad_spec (spec : str) : bool :=
  existsb bad_candidate (spec_candidates spec).

(** A malformed line: not three tab-separated columns, an empty label, a
    bad candidate on either side, or both sides requiring absence. *)
Definition malformed (line : str) : bool :=
  match split_on tab line with
  | [lbl; l; r] =>
      (len lbl =? 0) || bad_spec l || bad_spec r
      || (spec_absent l && spec_absent r)
  | _ => true
  end.

(** ** The mirror as the specification words it *)

(** A swapped with T and C swapped with G. *)
Definition complement (c : ascii) : ascii :=
  if Ascii.eqb c "A" then "T"%char
  else if Ascii.eqb c "T" then "A"%char
  else if Ascii.eqb c "C" then "G"%char
  else if Ascii.eqb c "G" then "C"%char
  else c.

(** Reverse, then complement. *)
Definition revcomp_seq (c : str) : str := map complement (rev c).

(** The mirror of a sequence set: same polarity, same candidate order,
    each candidate reverse-complemented. *)
Definition mirror_set (t : Target) : Target :=
  mkTarget (want t) (minseqlen t) (maxseqlen t) (seqcount t) (seqlen t)
           (map revcomp_seq (seq t)).

(** The mirror of a pair: same label, the sides exchanged and mirrored. *)
Definition mirror_pair (tp : TargetPair) : TargetPair :=
  mkTargetPair (label tp) (mirror_set (right tp)) (mirror_set (left tp)).

(** The pair a well-formed line [label TAB left TAB right] defines:
    the label, and on each side the polarity and the candidates of the
    specification string. *)
Definition defines (line : str) (tp : TargetPair) : Prop :=
  exists lbl l r,
    split_on tab line = [lbl; l; r]
    /\ label tp = lbl
    /\ want (left tp) = negb (spec_absent l)
    /\ seq (left tp) = spec_candidates l
    /\ want (right tp) = negb (spec_absent r)
    /\ seq (right tp) = spec_candidates r.

(** A pair has an anchor and candidates of the minimum length. *)
Definition survivor (tp : TargetPair) : Prop :=
  (want (left tp) = true \/ want (right tp) = true)
  /\ Forall (fun c => MIN_TARGET_LENGTH <= len c) (seq (left tp))
  /\ Forall (fun c => MIN_TARGET_LENGTH <= len c) (seq (right tp)).

(** The line of the specification's example. *)
Definition FUS_line : str :=
  lit "FUS" ++ [tab] ++ lit "AAAACCCC" ++ [tab] ++ lit "GGGGTTTT".

(** A line with a candidate of seven bases. *)
Definition short_line : str :=
  lit "FUS" ++ [tab] ++ lit "AAAACCC" ++ [tab] ++ lit "GGGGTTTT".


(** A line whose pair is not its own mirror, and the pair it defines:
    two candidates on the left, an absent sequence on the right. *)
Definition KMT_line : str :=
  lit "KMT" ++ [tab] ++ lit "AAAACCCCA|ACGTACGG" ++ [tab] ++ lit "-AAAACCCC".

Definition KMT : TargetPair :=
  mkTargetPair (lit "KMT")
               (mkTarget true 8 9 2 [9; 8]
                         [lit "AAAACCCCA"; lit "ACGTACGG"])
               (mkTarget false 8 8 1 [8] [lit "AAAACCCC"]).
(** * Further definitions

    Definitions for the properties of the searches, of the pair predicate
    and of the rest of the program. *)

(** Candidate [j] of [t] occurs at [s] anywhere in the read. *)
Definition occurs_in (maxsub : Z) (readseq : str) (t : Target) (j : nat)
           (s : Z) : Prop :=
  qualifies maxsub readseq t 0 (len readseq) j s.

(** An occurrence that ends first among those qualifying in [lo, hi). *)
Definition ends_first (maxsub : Z) (readseq : str) (t : Target) (lo hi : Z)
           (j : nat) (s : Z) : Prop :=
  qualifies maxsub readseq t lo hi j s
  /\ forall j' s', qualifies maxsub readseq t lo hi j' s' ->
                   occ_end t (Z.of_nat j) s <= occ_end t (Z.of_nat j') s'.

(** An occurrence that starts last among those qualifying in [lo, hi). *)
Definition starts_last (maxsub : Z) (readseq : str) (t : Target) (lo hi : Z)
           (j : nat) (s : Z) : Prop :=
  qualifies maxsub readseq t lo hi j s
  /\ forall j' s', qualifies maxsub readseq t lo hi j' s' -> s' <= s.

(** The decision of [findMatch] for a read: its condition is true. *)
Definition matches (maxsub : Z) (tp : TargetPair) (readString : str)
           (v0 : locals) : Prop :=
  exists f,
    findMatch_cond maxsub tp readString (len readString) (mkFrame v0 [])
    = Ok (true, f).

(** The pair AAAACCCC then no GGGGTTTT, and the pair no AAAACCCC before
    GGGGTTTT. *)
Definition left_only_pair : TargetPair :=
  mkTargetPair (lit "POS") one_candidate
               (mkTarget false 8 8 1 [8] [lit "GGGGTTTT"]).

Definition right_only_pair : TargetPair :=
  mkTargetPair (lit "NEG") (mkTarget false 8 8 1 [8] [lit "AAAACCCC"])
               (mkTarget true 8 8 1 [8] [lit "GGGGTTTT"]).

(** The read of the opposite strand: [reverseSequence], then
    [invertSequence]. *)
Definition opposite_strand (readString : str) : str :=
  invertSequence (reverseSequence readString).

(** The bases of a text: the brackets dropped, the case ignored. *)
Definition is_bracket (c : ascii) : bool :=
  Ascii.eqb c "[" || Ascii.eqb c "]".

Definition bases_of (s : str) : str :=
  map toupper (filter (fun c => negb (is_bracket c)) s).

(** * The command line and the main program *)

From Stdlib Require Import DecimalString.

Definition VERSION : str := lit "fuzzion 2.0".

(** The global variables [maxsub] and [bam_filename]. *)
Record globals : Type := mkGlobals {
  g_maxsub : Z;
  g_bam_filename : str
}.

Definition initial_globals : globals := mkGlobals DEFAULT_MAXSUB [].

(** [a == b] on [std::string]. *)
Definition str_eqb (a b : str) : bool :=
  if list_eq_dec ascii_dec a b then true else false.

(** [std::cout << n] for an [int]. *)
Definition show_int (n : Z) : str := lit (NilZero.string_of_int (Z.to_int n)).

(** [showUsage]: the text written to stdout. *)
Definition showUsage (progname : str) : str :=
  VERSION ++ [newline] ++ [newline]
  ++ lit "Usage: " ++ progname
  ++ lit " [-maxsub=N]"
  ++ lit " bam_file"
  ++ lit " < target_sequences"
  ++ lit " > matching_reads"
  ++ [newline] ++ [newline]
  ++ lit "  -maxsub=N  maximum substitutions allowed, default is "
  ++ show_int DEFAULT_MAXSUB ++ [newline].

Section CommandLine.

(** [stream >> maxsub] for a [std::stringstream] over [s]: the value of
    [maxsub] afterwards, from [s] and the value before.  This is the
    standard library's extraction; the program is embedded over it. *)
Variable extract_int : str -> Z -> Z.

(** [parseArgs]: [args] is [argv[1 .. argc-1]]; the result is the value
    returned and the globals as the call leaves them. *)
Fixpoint parseArgs (args : list str) (g : globals)
  : result (bool * globals) :=
  match args with
  | [] =>
      if str_eqb (g_bam_filename g) [] then Ok (false, g) (* missing *)
      else Ok (true, g)
  | arg :: rest =>
      let arglen := len arg in
      if arglen =? 0 then parseArgs rest g
      else
        c <- read_at arg 0 ;;
        if Ascii.eqb c "-" then
          is_maxsub <- (if arglen >? 8
                        then p <- substr arg 1 7 ;;
                             Ok (str_eqb p (lit "maxsub="))
                        else Ok false) ;;
          if is_maxsub : bool then
            s <- substr arg 8 (-1) ;;
            let g := mkGlobals (extract_int s (g_maxsub g))
                               (g_bam_filename g) in
            if g_maxsub g <? 0 then Ok (false, g)
            else parseArgs rest g
          else Ok (false, g) (* unrecognized option *)
        else
          if str_eqb (g_bam_filename g) []
          then parseArgs rest (mkGlobals (g_maxsub g) arg)
          else Ok (false, g) (* extraneous argument *)
  end.

(** [readBamFile] from its start: [bam] holds the alignments of the file
    named [bam_filename], or is [None] when the file cannot be opened. *)
Definition readBamFile_open (g : globals) (bam : option (list (str * str)))
           (lines : list str) (v0 : locals) : result str :=
  match bam with
  | None =>
      Err (runtime_error (what_of (lit "unable to open " ++ g_bam_filename g)))
  | Some reads => readBamFile (g_maxsub g) lines reads v0
  end.

(** What a run leaves: the exit status and the text on stdout and on
    stderr. *)
Record outcome : Type := mkOutcome {
  status : Z;
  stdout : str;
  stderr : str
}.

(** [main]: [progname] is [argv[0]], a C string.  Only
    [std::runtime_error] is caught, and the handler writes its [what()],
    which is the text the fault carries; it is thrown before the first
    alignment is read, so nothing is on stdout then. *)
Definition main (progname : str) (args : list str)
           (bam : option (list (str * str))) (lines : list str)
           (v0 : locals) : result outcome :=
  '(ok, g) <- parseArgs args initial_globals ;;
  if negb ok then Ok (mkOutcome 1 (showUsage progname) [])
  else
    match readBamFile_open g bam lines v0 with
    | Ok out => Ok (mkOutcome 0 out [])
    | Err (runtime_error what) =>
        Ok (mkOutcome 1 [] (progname ++ lit ": " ++ what ++ [newline]))
    | Err e => Err e
    end.

End CommandLine.

(** An argument that is neither empty nor an option. *)
Definition is_filename (arg : str) : bool :=
  match arg with
  | [] => false
  | c :: _ => negb (Ascii.eqb c "-")
  end.

(** An option [-maxsub=] followed by at least one character. *)
Definition is_maxsub_option (arg : str) : bool :=
  (8 <? len arg) && str_eqb (firstn 8 arg) (lit "-maxsub=").

(** The value an accepted command line gives [maxsub]: each [-maxsub=]
    option, in order, extracts from the text after the [=]. *)
Definition maxsub_after (extract_int : str -> Z -> Z) (args : list str)
           (m : Z) : Z :=
  fold_left (fun m arg => if is_maxsub_option arg
                          then extract_int (skipn 8 arg) m else m)
            args m.

(** An extraction that always yields 7, for the examples. *)
Definition extract_seven (s : str) (old : Z) : Z := 7.

(** * Properties *)

Unset Implicit Arguments.

(** ** Buffers *)

Lemma len_nonneg (s : str) : 0 <= len s.
Proof. unfold len. lia. Qed.

Lemma array_get_Ok {A} (a : list A) (i : nat) (x : A) :
  nth_error a i = Some x -> array_get a (Z.of_nat i) = Ok x.
Proof.
  intros H. unfold array_get.
  destruct (Z.ltb_spec (Z.of_nat i) 0) as [Hneg|_]; [lia|].
  now rewrite Nat2Z.id, H.
Qed.

Lemma array_get_inv {A} (a : list A) (i : Z) (x : A) :
  array_get a i = Ok x -> 0 <= i /\ nth_error a (Z.to_nat i) = Some x.
Proof.
  unfold array_get.
  destruct (Z.ltb_spec i 0); [discriminate|].
  destruct (nth_error a (Z.to_nat i)) eqn:E; [|discriminate].
  intros [= ->]. split; [lia | reflexivity].
Qed.

Lemma read_at_Ok (buf : str) (i : nat) (c : ascii) :
  nth_error buf i = Some c -> read_at buf (Z.of_nat i) = Ok c.
Proof. apply array_get_Ok. Qed.

Lemma skipn_nth_error {A} (l : list A) (k : nat) (x : A) :
  nth_error l k = Some x -> skipn k l = x :: skipn (S k) l.
Proof.
  revert l. induction k as [|k IH]; intros [|y l] H; simpl in *;
    try discriminate.
  - now injection H as ->.
  - now apply IH.
Qed.

Lemma nth_error_in_range {A} (l : list A) (k : nat) :
  (k < length l)%nat -> exists x, nth_error l k = Some x.
Proof.
  intros H. destruct (nth_error l k) eqn:E; [eauto|].
  apply nth_error_None in E. lia.
Qed.

(** ** The bounded-substitution comparison counts mismatches *)

Lemma mismatches_nonneg (a b : str) : 0 <= mismatches a b.
Proof.
  revert b. induction a as [|x a IH]; intros [|y b]; simpl; try lia.
  specialize (IH b). destruct (Ascii.eqb x y); lia.
Qed.

Lemma mismatches_sym (a b : str) : mismatches a b = mismatches b a.
Proof.
  revert b. induction a as [|x a IH]; intros [|y b]; simpl; try reflexivity.
  rewrite IH, (Ascii.eqb_sym x y). reflexivity.
Qed.

(** The loop from position [k], with [n] positions left and [numsubs]
    substitutions counted so far, inside both buffers. *)
Lemma isMatch_loop_spec (maxsub : Z) (readseq : str) (start : nat)
      (target : str) (n k : nat) (numsubs : Z) :
  (start + k + n <= length readseq)%nat ->
  (k + n <= length target)%nat ->
  let m := mismatches (firstn n (skipn (start + k) readseq))
                      (firstn n (skipn k target)) in
  isMatch_loop maxsub readseq (Z.of_nat start) target n (Z.of_nat k) numsubs
  = Ok ((m =? 0) || (numsubs + m <=? maxsub)).
Proof.
  revert k numsubs. induction n as [|n IH]; intros k numsubs Hr Ht m.
  - reflexivity.
  - destruct (@nth_error_in_range _ readseq (start + k)%nat) as [r Er]; [lia|].
    destruct (@nth_error_in_range _ target k) as [t Et]; [lia|].
    subst m. rewrite (skipn_nth_error _ _ _ Er), (skipn_nth_error _ _ _ Et).
    cbn [isMatch_loop firstn mismatches].
    replace (Z.of_nat start + Z.of_nat k) with (Z.of_nat (start + k)) by lia.
    rewrite (read_at_Ok _ _ _ Er), (read_at_Ok _ _ _ Et). cbn [bind].
    replace (Z.of_nat k + 1) with (Z.of_nat (S k)) by lia.
    rewrite !IH by lia.
    replace (start + S k)%nat with (S (start + k)) by lia.
    set (m' := mismatches _ _).
    pose proof (mismatches_nonneg
                  (firstn n (skipn (S (start + k)%nat) readseq))
                  (firstn n (skipn (S k) target))) as Hm'.
    fold m' in Hm'.
    destruct (Ascii.eqb r t); cbn [negb].
    + rewrite Z.add_0_l. reflexivity.
    + destruct (Z.gtb_spec (numsubs + 1) maxsub) as [Hgt|Hle].
      * f_equal. symmetry. apply orb_false_iff. split.
        -- apply Z.eqb_neq. lia.
        -- apply Z.leb_gt. lia.
      * f_equal. destruct (Z.eqb_spec m' 0) as [E0|N0].
        -- rewrite E0. cbn [orb]. symmetry.
           replace (1 + 0 =? 0) with false by reflexivity. cbn [orb].
           apply Z.leb_le. lia.
        -- cbn [orb].
           replace (1 + m' =? 0) with false
             by (symmetry; apply Z.eqb_neq; lia).
           cbn [orb]. f_equal. lia.
Qed.

(** [isMatch] on a window that lies inside the read and a target of the
    stated length. *)
Lemma isMatch_spec (maxsub : Z) (readseq : str) (start : Z) (target : str) :
  0 <= start -> start + len target <= len readseq ->
  let m := mismatches (window readseq start (length target)) target in
  isMatch maxsub readseq start target (len target)
  = Ok ((m =? 0) || (m <=? maxsub)).
Proof.
  intros H0 H1 m. unfold isMatch, len in *.
  rewrite Nat2Z.id.
  pose proof (@isMatch_loop_spec maxsub readseq (Z.to_nat start) target
                (length target) 0 0) as H.
  cbv zeta in H. rewrite Z2Nat.id, Nat.add_0_r in H by lia.
  cbn [skipn] in H. rewrite firstn_all in H.
  rewrite Z.add_0_l in H. apply H; lia.
Qed.

Lemma isMatch_total (maxsub : Z) (readseq : str) (start : Z) (target : str) :
  0 <= start -> start + len target <= len readseq ->
  exists b, isMatch maxsub readseq start target (len target) = Ok b.
Proof. intros H0 H1. rewrite isMatch_spec by assumption. eauto. Qed.

Lemma window_whole (a : str) : window a 0 (length a) = a.
Proof. unfold window. cbn [Z.to_nat skipn]. apply firstn_all. Qed.

Lemma window_same_length (a b : str) :
  length a = length b -> window a 0 (length b) = a.
Proof. intros <-. apply window_whole. Qed.

Lemma isMatch_equal_length (maxsub : Z) (a b : str) :
  0 <= maxsub -> length a = length b ->
  isMatch maxsub a 0 b (len b) = Ok (mismatches a b <=? maxsub).
Proof.
  intros Hk Hl. rewrite isMatch_spec; unfold len; try lia.
  rewrite window_same_length by assumption.
  pose proof (mismatches_nonneg a b).
  destruct (Z.eqb_spec (mismatches a b) 0) as [E|N]; [|reflexivity].
  cbn [orb]. symmetry. f_equal. apply Z.leb_le. lia.
Qed.

(** C3.  For equal-length buffers [a] and [b] and a configured threshold
    [maxsub] (non-negative), [isMatch(a, b)] is true exactly when the
    number of positions where [a] and [b] differ is at most [maxsub];
    hence [isMatch(a, b) = isMatch(b, a)], and a match at threshold
    [maxsub] is a match at every threshold [k' >= maxsub]. *)
Theorem isMatch_counts_mismatches (maxsub : Z) (a b : str) :
  0 <= maxsub -> length a = length b ->
  isMatch maxsub a 0 b (len b) = Ok (mismatches a b <=? maxsub)
  /\ isMatch maxsub a 0 b (len b) = isMatch maxsub b 0 a (len a)
  /\ (forall k' : Z, maxsub <= k' ->
        isMatch maxsub a 0 b (len b) = Ok true ->
        isMatch k' a 0 b (len b) = Ok true).
Proof.
  intros Hk Hl. repeat split.
  - now apply isMatch_equal_length.
  - rewrite !isMatch_equal_length by (assumption || now symmetry).
    now rewrite mismatches_sym.
  - intros k' Hk'. rewrite !isMatch_equal_length by (assumption || lia).
    intros [= H]. f_equal. apply Z.leb_le. apply Z.leb_le in H. lia.
Qed.

Lemma isMatch_counts_mismatches_witness :
  0 <= 1 /\ length (lit "AAAACCCC") = length (lit "AAATCCCG")
  /\ isMatch 1 (lit "AAAACCCC") 0 (lit "AAATCCCG") 8 = Ok false
  /\ isMatch 2 (lit "AAAACCCC") 0 (lit "AAATCCCG") 8 = Ok true.
Proof.
  split; [lia|]. split; [reflexivity|].
  split.
  - apply (proj1 (@isMatch_counts_mismatches 1 (lit "AAAACCCC")
                    (lit "AAATCCCG") ltac:(lia) eq_refl)).
  - apply (proj1 (@isMatch_counts_mismatches 2 (lit "AAAACCCC")
                    (lit "AAATCCCG") ltac:(lia) eq_refl)).
Defined.

(** ** Sequence-set arrays *)

Lemma wf_arrays_ok (t : Target) : wf_Target t -> arrays_ok t.
Proof. intros (H1 & H2 & _). now split. Qed.

Lemma cand_len_nth (t : Target) (j : nat) (c : str) :
  nth_error (seq t) j = Some c -> cand_len t (Z.of_nat j) = len c.
Proof.
  intros H. unfold cand_len.
  destruct (Z.ltb_spec (Z.of_nat j) 0); [lia|].
  rewrite Nat2Z.id. now rewrite (nth_error_nth _ _ _ H).
Qed.

Lemma seqlen_nth (t : Target) (j : nat) (c : str) :
  arrays_ok t -> nth_error (seq t) j = Some c ->
  array_get (seqlen t) (Z.of_nat j) = Ok (len c).
Proof.
  intros [_ Hl] H. apply array_get_Ok. rewrite Hl.
  now rewrite nth_error_map, H.
Qed.

(** ** The scans over start positions *)

Section Scans.
Variable maxsub : Z.
Variable readseq : str.
Variable t : Target.
Hypothesis Harrays : arrays_ok t.

Lemma isMatch_occurs (c : str) (s : Z) :
  0 <= s -> s + len c <= len readseq ->
  exists b, isMatch maxsub readseq s c (len c) = Ok b
            /\ (b = true <-> occurs maxsub readseq c s).
Proof.
  intros H0 H1. destruct (@isMatch_total maxsub readseq s c H0 H1) as [b Eb].
  exists b. split; [exact Eb|]. unfold occurs. rewrite Eb.
  split; [intros ->; auto | intros (_ & _ & [= ->]); reflexivity].
Qed.

(** The ascending scan of [n] starts from [start] returns the first start
    at which the candidate occurs, when the scanned windows lie inside
    the read. *)
Lemma scan_up_spec (i : nat) (c : str) (Hc : nth_error (seq t) i = Some c)
      (n : nat) (start : Z) :
  0 <= start ->
  ((0 < n)%nat -> start + Z.of_nat n + len c <= len readseq + 1) ->
  exists r, scan_up maxsub readseq t (Z.of_nat i) n start = Ok r
    /\ match r with
       | Some s => start <= s < start + Z.of_nat n
                   /\ occurs maxsub readseq c s
                   /\ forall s', start <= s' < s -> ~ occurs maxsub readseq c s'
       | None => forall s', start <= s' < start + Z.of_nat n ->
                            ~ occurs maxsub readseq c s'
       end.
Proof.
  revert start. induction n as [|n IH]; intros start H0 H1.
  - exists None. split; [reflexivity|]. intros s' Hs'. lia.
  - cbn [scan_up]. specialize (H1 ltac:(lia)).
    rewrite (array_get_Ok _ _ _ Hc), (seqlen_nth _ _ _ Harrays Hc).
    cbn [bind].
    destruct (@isMatch_occurs c start) as (b & Eb & Hb); [lia|lia|].
    rewrite Eb. cbn [bind]. destruct b.
    + exists (Some start). split; [reflexivity|].
      split; [lia|]. split; [now apply Hb|]. intros s' Hs'. lia.
    + destruct (IH (start + 1)) as (r & Er & Hr); [lia|lia|].
      exists r. split; [exact Er|].
      assert (Hno : ~ occurs maxsub readseq c start)
        by (intros Ho; apply Hb in Ho; discriminate).
      destruct r as [s|].
      * destruct Hr as (Hs & Ho & Hfirst). split; [lia|]. split; [exact Ho|].
        intros s' Hs'. destruct (Z.eq_dec s' start) as [->|Hne];
          [exact Hno | apply Hfirst; lia].
      * intros s' Hs'. destruct (Z.eq_dec s' start) as [->|Hne];
          [exact Hno | apply Hr; lia].
Qed.

(** The descending scan of [n] starts from [start] returns the last start
    at which the candidate occurs. *)
Lemma scan_down_spec (i : nat) (c : str) (Hc : nth_error (seq t) i = Some c)
      (n : nat) (start : Z) :
  ((0 < n)%nat ->
   0 <= start - Z.of_nat n + 1 /\ start + len c <= len readseq) ->
  exists r, scan_down maxsub readseq t (Z.of_nat i) n start = Ok r
    /\ match r with
       | Some s => start - Z.of_nat n < s <= start
                   /\ occurs maxsub readseq c s
                   /\ forall s', s < s' <= start -> ~ occurs maxsub readseq c s'
       | None => forall s', start - Z.of_nat n < s' <= start ->
                            ~ occurs maxsub readseq c s'
       end.
Proof.
  revert start. induction n as [|n IH]; intros start H1.
  - exists None. split; [reflexivity|]. intros s' Hs'. lia.
  - destruct (H1 ltac:(lia)) as [H0 H2]. cbn [scan_down].
    rewrite (array_get_Ok _ _ _ Hc), (seqlen_nth _ _ _ Harrays Hc).
    cbn [bind].
    destruct (@isMatch_occurs c start) as (b & Eb & Hb); [lia|lia|].
    rewrite Eb. cbn [bind]. destruct b.
    + exists (Some start). split; [reflexivity|].
      split; [lia|]. split; [now apply Hb|]. intros s' Hs'. lia.
    + destruct (IH (start - 1)) as (r & Er & Hr); [lia|].
      exists r. split; [exact Er|].
      assert (Hno : ~ occurs maxsub readseq c start)
        by (intros Ho; apply Hb in Ho; discriminate).
      destruct r as [s|].
      * destruct Hr as (Hs & Ho & Hfirst). split; [lia|]. split; [exact Ho|].
        intros s' Hs'. destruct (Z.eq_dec s' start) as [->|Hne];
          [exact Hno | apply Hfirst; lia].
      * intros s' Hs'. destruct (Z.eq_dec s' start) as [->|Hne];
          [exact Hno | apply Hr; lia].
Qed.

End Scans.

(** For a configured (non-negative) threshold, an occurrence is a window
    inside the read that differs from the candidate in at most [maxsub]
    positions. *)
Lemma occurs_iff_mismatches (maxsub : Z) (readseq c : str) (s : Z) :
  0 <= maxsub ->
  occurs maxsub readseq c s
  <-> 0 <= s /\ s + len c <= len readseq
      /\ mismatches (window readseq s (length c)) c <= maxsub.
Proof.
  intros Hk. unfold occurs. split.
  - intros (H0 & H1 & E). split; [exact H0|]. split; [exact H1|].
    rewrite isMatch_spec in E by assumption. injection E as E.
    apply orb_true_iff in E. destruct E as [E|E].
    + apply Z.eqb_eq in E. lia.
    + now apply Z.leb_le.
  - intros (H0 & H1 & Hm). split; [exact H0|]. split; [exact H1|].
    rewrite isMatch_spec by assumption. f_equal.
    apply orb_true_iff. right. now apply Z.leb_le.
Qed.

(** ** The loop over the candidates *)

Lemma for_candidates_inv (body : Z -> search -> result search)
      (Inv : nat -> search -> Prop) (n i : nat) (st : search) :
  Inv i st ->
  (forall k st0, (i <= k < i + n)%nat -> Inv k st0 ->
     exists st1, body (Z.of_nat k) st0 = Ok st1 /\ Inv (S k) st1) ->
  exists st', for_candidates body n (Z.of_nat i) st = Ok st'
              /\ Inv (i + n)%nat st'.
Proof.
  revert i st. induction n as [|n IH]; intros i st Hi Hstep.
  - exists st. rewrite Nat.add_0_r. split; [reflexivity | exact Hi].
  - cbn [for_candidates].
    destruct (Hstep i st ltac:(lia) Hi) as (st1 & E1 & H1).
    rewrite E1. cbn [bind].
    replace (Z.of_nat i + 1) with (Z.of_nat (S i)) by lia.
    destruct (IH (S i) st1 H1) as (st' & E' & H').
    + intros k st0 Hk. apply Hstep. lia.
    + exists st'. split; [exact E'|].
      replace (i + S n)%nat with (S i + n)%nat by lia. exact H'.
Qed.

Section Searches.
Variable maxsub : Z.
Variable readseq : str.
Variable t : Target.
Hypothesis Harrays : arrays_ok t.

Lemma qualifies_unique_cand (lo hi : Z) (j : nat) (s : Z) (c : str) :
  nth_error (seq t) j = Some c ->
  qualifies maxsub readseq t lo hi j s ->
  occurs maxsub readseq c s /\ lo <= s /\ s + len c <= hi.
Proof.
  intros Hc (c' & Hc' & H). rewrite Hc in Hc'. now injection Hc' as <-.
Qed.

Lemma findLeftmost_step_inv (limit matchStart0 : Z) (i : nat) (st : search) :
  (i < length (seq t))%nat -> limit <= len readseq ->
  leftmost_inv maxsub readseq t limit matchStart0 i st ->
  exists st', findLeftmost_step maxsub readseq t (Z.of_nat i) st = Ok st'
              /\ leftmost_inv maxsub readseq t limit matchStart0 (S i) st'.
Proof.
  intros Hi Hlim Hinv.
  destruct (@nth_error_in_range _ (seq t) i Hi) as [c Hc].
  unfold findLeftmost_step.
  rewrite (seqlen_nth _ _ _ Harrays Hc). cbn [bind].
  assert (Hb : bound st <= limit).
  { destruct Hinv as [(_ & _ & -> & _) | (idx & _ & _ & Hq & -> & _)];
      [lia|].
    destruct Hq as (c0 & Hc0 & _ & _ & Hend).
    unfold occ_end. rewrite (cand_len_nth _ _ _ Hc0). lia. }
  destruct (@scan_up_spec maxsub readseq t Harrays i c Hc
              (Z.to_nat (bound st - len c + 1)) 0)
    as (r & Er & Hr); [lia|lia|].
  rewrite Er. cbn [bind].
  assert (Hmine : forall s, qualifies maxsub readseq t 0 limit i s ->
                            s + len c <= bound st ->
                            0 <= s < 0 + Z.of_nat (Z.to_nat (bound st - len c + 1))).
  { intros s Hq Hs.
    destruct (qualifies_unique_cand _ _ _ _ _ Hc Hq) as (_ & H0 & _).
    lia. }
  destruct r as [s|].
  - (* a first occurrence at [s] is recorded *)
    destruct Hr as (Hs & Ho & Hfirst).
    exists (mkSearch (Z.of_nat i) s (s + len c - 1)). split; [reflexivity|].
    right. exists i. cbn [s_matchIndex s_matchStart bound].
    unfold occ_end. rewrite (cand_len_nth _ _ _ Hc).
    split; [reflexivity|]. split; [lia|].
    split; [exists c; repeat split; try assumption; try apply Ho; lia|].
    split; [reflexivity|].
    intros j s' Hj Hq. destruct (Nat.eq_dec j i) as [->|Hne].
    + destruct (qualifies_unique_cand _ _ _ _ _ Hc Hq) as (Ho' & H0' & Hend').
      rewrite (cand_len_nth _ _ _ Hc).
      assert (s <= s').
      { destruct (Z.le_gt_cases s s') as [|Hlt]; [assumption|].
        exfalso. apply (Hfirst s'); [lia | exact Ho']. }
      split; [lia | intros _; lia].
    + destruct Hinv
        as [(_ & _ & _ & Hnone) | (idx & _ & Hidx & _ & Hbd & Hmin)].
      * exfalso. apply (Hnone j s'); [lia | exact Hq].
      * destruct (Hmin j s' ltac:(lia) Hq) as [Hle _].
        unfold occ_end in *. split; [lia | intros E; lia].
  - (* no occurrence of this candidate in the window *)
    exists st. split; [reflexivity|].
    destruct Hinv
      as [(E1 & E2 & E3 & Hnone) | (idx & E1 & Hidx & Hq0 & Hbd & Hmin)].
    + left. repeat split; try assumption.
      intros j s Hj Hq. destruct (Nat.eq_dec j i) as [->|Hne].
      * destruct (qualifies_unique_cand _ _ _ _ _ Hc Hq) as (Ho & H0 & Hend).
        apply (Hr s); [apply Hmine; [exact Hq | lia] | exact Ho].
      * apply (Hnone j s); [lia | exact Hq].
    + right. exists idx. split; [assumption|]. split; [lia|].
      split; [assumption|]. split; [assumption|].
      intros j s Hj Hq.
      destruct (Nat.eq_dec j i) as [->|Hne]; [|apply Hmin; [lia|assumption]].
      destruct (qualifies_unique_cand _ _ _ _ _ Hc Hq) as (Ho & H0' & Hend).
      split; [|intros _; lia].
      unfold occ_end at 2. rewrite (cand_len_nth _ _ _ Hc).
      destruct (Z.le_gt_cases
                  (occ_end t (Z.of_nat idx) (s_matchStart st))
                  (s + len c)) as [|Hlt]; [assumption|].
      exfalso. apply (Hr s); [apply Hmine; [exact Hq | lia] | exact Ho].
Qed.

Lemma findRightmost_step_inv (leftpad readseqlen matchStart0 : Z) (i : nat)
      (st : search) :
  (i < length (seq t))%nat -> 0 <= leftpad -> readseqlen = len readseq ->
  rightmost_inv maxsub readseq t leftpad readseqlen matchStart0 i st ->
  exists st',
    findRightmost_step maxsub readseq t readseqlen (Z.of_nat i) st = Ok st'
    /\ rightmost_inv maxsub readseq t leftpad readseqlen matchStart0 (S i) st'.
Proof.
  intros Hi Hpad Hlen Hinv.
  destruct (@nth_error_in_range _ (seq t) i Hi) as [c Hc].
  unfold findRightmost_step.
  rewrite (seqlen_nth _ _ _ Harrays Hc). cbn [bind].
  assert (Hb : leftpad <= bound st).
  { destruct Hinv as [(_ & _ & -> & _) | (idx & _ & _ & Hq & -> & _)];
      [lia|].
    destruct Hq as (c0 & Hc0 & _ & Hlo & _). lia. }
  destruct (@scan_down_spec maxsub readseq t Harrays i c Hc
              (Z.to_nat (readseqlen - len c - bound st + 1))
              (readseqlen - len c))
    as (r & Er & Hr); [lia|].
  rewrite Er. cbn [bind].
  assert (Hmine : forall s, qualifies maxsub readseq t leftpad readseqlen i s ->
                            bound st <= s ->
                            readseqlen - len c
                            - Z.of_nat (Z.to_nat (readseqlen - len c - bound st + 1))
                            < s <= readseqlen - len c).
  { intros s Hq Hs.
    destruct (qualifies_unique_cand _ _ _ _ _ Hc Hq) as (_ & _ & Hend). lia. }
  destruct r as [s|].
  - (* a last occurrence at [s] is recorded *)
    destruct Hr as (Hs & Ho & Hlast).
    exists (mkSearch (Z.of_nat i) s (s + 1)). split; [reflexivity|].
    right. exists i. cbn [s_matchIndex s_matchStart bound].
    split; [reflexivity|]. split; [lia|].
    split; [exists c; repeat split; try assumption; try apply Ho; lia|].
    split; [reflexivity|].
    intros j s' Hj Hq. destruct (Nat.eq_dec j i) as [->|Hne].
    + destruct (qualifies_unique_cand _ _ _ _ _ Hc Hq) as (Ho' & Hlo' & Hend').
      assert (s' <= s).
      { destruct (Z.le_gt_cases s' s) as [|Hlt]; [assumption|].
        exfalso. apply (Hlast s'); [lia | exact Ho']. }
      split; [lia | intros _; lia].
    + destruct Hinv
        as [(_ & _ & _ & Hnone) | (idx & _ & Hidx & _ & Hbd & Hmax)].
      * exfalso. apply (Hnone j s'); [lia | exact Hq].
      * destruct (Hmax j s' ltac:(lia) Hq) as [Hle _].
        split; [lia | intros E; lia].
  - (* no occurrence of this candidate in the window *)
    exists st. split; [reflexivity|].
    destruct Hinv
      as [(E1 & E2 & E3 & Hnone) | (idx & E1 & Hidx & Hq0 & Hbd & Hmax)].
    + left. repeat split; try assumption.
      intros j s Hj Hq. destruct (Nat.eq_dec j i) as [->|Hne].
      * destruct (qualifies_unique_cand _ _ _ _ _ Hc Hq) as (Ho & Hlo & Hend).
        apply (Hr s); [apply Hmine; [exact Hq | lia] | exact Ho].
      * apply (Hnone j s); [lia | exact Hq].
    + right. exists idx. split; [assumption|]. split; [lia|].
      split; [assumption|]. split; [assumption|].
      intros j s Hj Hq.
      destruct (Nat.eq_dec j i) as [->|Hne]; [|apply Hmax; [lia|assumption]].
      destruct (qualifies_unique_cand _ _ _ _ _ Hc Hq) as (Ho & Hlo & Hend).
      split; [|intros _; lia].
      destruct (Z.le_gt_cases s (s_matchStart st)) as [|Hlt]; [assumption|].
      exfalso. apply (Hr s); [apply Hmine; [exact Hq | lia] | exact Ho].
Qed.

(** [findLeftmost] returns, and its loop ends in the invariant for all
    candidates. *)
Lemma findLeftmost_inv (readseqlen rightpad matchStart0 : Z) :
  readseqlen = len readseq -> 0 <= rightpad ->
  exists st,
    leftmost_inv maxsub readseq t (readseqlen - rightpad) matchStart0
                 (length (seq t)) st
    /\ findLeftmost maxsub readseq t readseqlen rightpad matchStart0
       = Ok (mkFound (s_matchIndex st >=? 0) (s_matchIndex st)
                     (s_matchStart st)).
Proof.
  intros Hlen Hpad. unfold findLeftmost.
  destruct (for_candidates_inv (findLeftmost_step maxsub readseq t)
              (leftmost_inv maxsub readseq t (readseqlen - rightpad)
                            matchStart0)
              (Z.to_nat (seqcount t)) 0
              (mkSearch (-1) matchStart0 (readseqlen - rightpad)))
    as (st & E & Hinv).
  - left. cbn. repeat split. intros j s Hj. lia.
  - intros k st0 Hk Hinv. apply findLeftmost_step_inv; [|lia|exact Hinv].
    destruct Harrays as [Hc _]. rewrite Hc, Nat2Z.id in Hk. lia.
  - change (Z.of_nat 0) with 0 in E. rewrite E. cbn [bind].
    exists st. split; [|reflexivity].
    destruct Harrays as [Hc _]. rewrite Hc, Nat2Z.id in Hinv. exact Hinv.
Qed.

Lemma findRightmost_inv (readseqlen leftpad matchStart0 : Z) :
  readseqlen = len readseq -> 0 <= leftpad ->
  exists st,
    rightmost_inv maxsub readseq t leftpad readseqlen matchStart0
                  (length (seq t)) st
    /\ findRightmost maxsub readseq t readseqlen leftpad matchStart0
       = Ok (mkFound (s_matchIndex st >=? 0) (s_matchIndex st)
                     (s_matchStart st)).
Proof.
  intros Hlen Hpad. unfold findRightmost.
  destruct (for_candidates_inv (findRightmost_step maxsub readseq t readseqlen)
              (rightmost_inv maxsub readseq t leftpad readseqlen matchStart0)
              (Z.to_nat (seqcount t)) 0
              (mkSearch (-1) matchStart0 leftpad))
    as (st & E & Hinv).
  - left. cbn. repeat split. intros j s Hj. lia.
  - intros k st0 Hk Hinv.
    apply findRightmost_step_inv; [|exact Hpad|exact Hlen|exact Hinv].
    destruct Harrays as [Hc _]. rewrite Hc, Nat2Z.id in Hk. lia.
  - change (Z.of_nat 0) with 0 in E. rewrite E. cbn [bind].
    exists st. split; [|reflexivity].
    destruct Harrays as [Hc _]. rewrite Hc, Nat2Z.id in Hinv. exact Hinv.
Qed.

Lemma qualifies_in_range (lo hi : Z) (j : nat) (s : Z) :
  qualifies maxsub readseq t lo hi j s -> (j < length (seq t))%nat.
Proof.
  intros (c & Hc & _). apply nth_error_Some. now rewrite Hc.
Qed.

(** What [findLeftmost] returns, for a non-negative reserve: nothing when
    no occurrence qualifies, otherwise the qualifying occurrence that ends
    first (the earliest candidate among those that end there). *)
Lemma findLeftmost_correct (readseqlen rightpad matchStart0 : Z) :
  readseqlen = len readseq -> 0 <= rightpad ->
  let limit := readseqlen - rightpad in
  (findLeftmost maxsub readseq t readseqlen rightpad matchStart0
   = Ok (mkFound false (-1) matchStart0)
   /\ forall j s, ~ qualifies maxsub readseq t 0 limit j s)
  \/
  (exists (idx : nat) (start : Z),
      findLeftmost maxsub readseq t readseqlen rightpad matchStart0
      = Ok (mkFound true (Z.of_nat idx) start)
      /\ qualifies maxsub readseq t 0 limit idx start
      /\ forall j s, qualifies maxsub readseq t 0 limit j s ->
           occ_end t (Z.of_nat idx) start <= occ_end t (Z.of_nat j) s
           /\ (occ_end t (Z.of_nat idx) start = occ_end t (Z.of_nat j) s ->
               (idx <= j)%nat)).
Proof.
  intros Hlen Hpad limit.
  destruct (findLeftmost_inv readseqlen rightpad matchStart0 Hlen Hpad)
    as (st & Hinv & E).
  rewrite E. fold limit in Hinv.
  destruct Hinv as [(E1 & E2 & _ & Hnone) | (idx & E1 & _ & Hq & _ & Hmin)].
  - left. rewrite E1, E2. split; [reflexivity|].
    intros j s Hq. apply (Hnone j s); [|exact Hq].
    exact (qualifies_in_range _ _ _ _ Hq).
  - right. exists idx, (s_matchStart st). rewrite E1.
    replace (Z.of_nat idx >=? 0) with true
      by (symmetry; apply Z.geb_le; lia).
    split; [reflexivity|]. split; [exact Hq|].
    intros j s Hq'. apply Hmin; [|exact Hq'].
    exact (qualifies_in_range _ _ _ _ Hq').
Qed.

(** What [findRightmost] returns, for a non-negative reserve: nothing when
    no occurrence qualifies, otherwise the qualifying occurrence that
    starts last (the earliest candidate among those that start there). *)
Lemma findRightmost_correct (readseqlen leftpad matchStart0 : Z) :
  readseqlen = len readseq -> 0 <= leftpad ->
  (findRightmost maxsub readseq t readseqlen leftpad matchStart0
   = Ok (mkFound false (-1) matchStart0)
   /\ forall j s, ~ qualifies maxsub readseq t leftpad readseqlen j s)
  \/
  (exists (idx : nat) (start : Z),
      findRightmost maxsub readseq t readseqlen leftpad matchStart0
      = Ok (mkFound true (Z.of_nat idx) start)
      /\ qualifies maxsub readseq t leftpad readseqlen idx start
      /\ forall j s, qualifies maxsub readseq t leftpad readseqlen j s ->
           s <= start /\ (s = start -> (idx <= j)%nat)).
Proof.
  intros Hlen Hpad.
  destruct (findRightmost_inv readseqlen leftpad matchStart0 Hlen Hpad)
    as (st & Hinv & E).
  rewrite E.
  destruct Hinv as [(E1 & E2 & _ & Hnone) | (idx & E1 & _ & Hq & _ & Hmax)].
  - left. rewrite E1, E2. split; [reflexivity|].
    intros j s Hq. apply (Hnone j s); [|exact Hq].
    exact (qualifies_in_range _ _ _ _ Hq).
  - right. exists idx, (s_matchStart st). rewrite E1.
    replace (Z.of_nat idx >=? 0) with true
      by (symmetry; apply Z.geb_le; lia).
    split; [reflexivity|]. split; [exact Hq|].
    intros j s Hq'. apply Hmax; [|exact Hq'].
    exact (qualifies_in_range _ _ _ _ Hq').
Qed.

End Searches.

(** ** Leftmost search: the recorded matches *)

Lemma for_candidates_app (body : Z -> search -> result search) (n m : nat)
      (i : Z) (st : search) :
  for_candidates body (n + m) i st
  = (st1 <- for_candidates body n i st ;;
     for_candidates body m (i + Z.of_nat n) st1).
Proof.
  revert i st. induction n as [|n IH]; intros i st.
  - cbn. now rewrite Z.add_0_r.
  - cbn [Nat.add for_candidates]. destruct (body i st) as [st1|e]; cbn [bind].
    + rewrite IH. replace (i + 1 + Z.of_nat n) with (i + Z.of_nat (S n)) by lia.
      reflexivity.
    + reflexivity.
Qed.

Section Leftmost.
Variable maxsub : Z.
Variable readseq : str.
Variable t : Target.
Hypothesis Harrays : arrays_ok t.

(** One candidate: the first start in the window at which the candidate
    occurs is recorded and the bound becomes its end minus one; without
    an occurrence in the window the state is unchanged. *)
Lemma findLeftmost_step_spec (i : nat) (c : str) (st : search) :
  nth_error (seq t) i = Some c -> bound st <= len readseq ->
  exists st', findLeftmost_step maxsub readseq t (Z.of_nat i) st = Ok st'
    /\ ((exists s, st' = mkSearch (Z.of_nat i) s (s + len c - 1)
                   /\ occurs maxsub readseq c s /\ s + len c <= bound st
                   /\ forall s', s' < s -> ~ occurs maxsub readseq c s')
        \/ (st' = st
            /\ forall s, s + len c <= bound st -> ~ occurs maxsub readseq c s)).
Proof.
  intros Hc Hb. unfold findLeftmost_step.
  rewrite (seqlen_nth _ _ _ Harrays Hc). cbn [bind].
  destruct (@scan_up_spec maxsub readseq t Harrays i c Hc
              (Z.to_nat (bound st - len c + 1)) 0)
    as (r & Er & Hr); [lia|lia|].
  rewrite Er. cbn [bind]. destruct r as [s|].
  - destruct Hr as (Hs & Ho & Hfirst). eexists. split; [reflexivity|].
    left. exists s. split; [reflexivity|]. split; [exact Ho|]. split; [lia|].
    intros s' Hs' Ho'. apply (Hfirst s'); [|exact Ho'].
    destruct Ho' as (H0 & _). lia.
  - exists st. split; [reflexivity|]. right. split; [reflexivity|].
    intros s Hs Ho. apply (Hr s); [|exact Ho]. destruct Ho as (H0 & _). lia.
Qed.

(** From a state [st], [m] more candidates leave the state unchanged or
    record an occurrence of one of them that ends at or before [bound st]. *)
Lemma leftmost_later (m k : nat) (st st' : search) :
  bound st <= len readseq -> (k + m <= length (seq t))%nat ->
  for_candidates (findLeftmost_step maxsub readseq t) m (Z.of_nat k) st
  = Ok st' ->
  st' = st
  \/ (Z.of_nat k <= s_matchIndex st'
      /\ occ_end t (s_matchIndex st') (s_matchStart st') <= bound st
      /\ bound st' = occ_end t (s_matchIndex st') (s_matchStart st') - 1).
Proof.
  revert k st. induction m as [|m IH]; intros k st Hb Hk E.
  - left. now injection E as <-.
  - cbn [for_candidates] in E.
    destruct (@nth_error_in_range _ (seq t) k ltac:(lia)) as [c Hc].
    destruct (findLeftmost_step_spec k c st Hc Hb) as (st1 & E1 & H1).
    rewrite E1 in E. cbn [bind] in E.
    replace (Z.of_nat k + 1) with (Z.of_nat (S k)) in E by lia.
    assert (Hb1 : bound st1 <= len readseq).
    { destruct H1 as [(s & -> & _ & Hs & _) | [-> _]]; cbn; lia. }
    destruct (IH (S k) st1 Hb1 ltac:(lia) E) as [-> | (Hi & He & Hbd)].
    + destruct H1 as [(s & -> & _ & Hs & _) | [-> _]]; [right | now left].
      cbn [s_matchIndex s_matchStart bound]. unfold occ_end.
      rewrite (cand_len_nth _ _ _ Hc). repeat split; lia.
    + right. split; [lia|]. split; [|exact Hbd].
      destruct H1 as [(s & -> & _ & Hs & _) | [-> _]]; cbn in He; lia.
Qed.

End Leftmost.

Section LeftmostClaims.
Variable maxsub : Z.
Variable readseq : str.
Variable t : Target.
Hypothesis Harrays : arrays_ok t.

Lemma leftmost_after_inv (readseqlen rightpad matchStart0 : Z) (k : nat) :
  readseqlen = len readseq -> 0 <= rightpad -> (k <= length (seq t))%nat ->
  exists st,
    leftmost_after maxsub readseq t readseqlen rightpad matchStart0 k = Ok st
    /\ leftmost_inv maxsub readseq t (readseqlen - rightpad) matchStart0 k st.
Proof.
  intros Hlen Hpad Hk. unfold leftmost_after.
  destruct (for_candidates_inv (findLeftmost_step maxsub readseq t)
              (leftmost_inv maxsub readseq t (readseqlen - rightpad)
                            matchStart0)
              k 0 (mkSearch (-1) matchStart0 (readseqlen - rightpad)))
    as (st & E & Hinv).
  - left. cbn. repeat split. intros j s Hj. lia.
  - intros j st0 Hj Hinv.
    apply findLeftmost_step_inv; [exact Harrays|lia|lia|exact Hinv].
  - exists st. split; [exact E | exact Hinv].
Qed.

Lemma leftmost_inv_bound (limit matchStart0 : Z) (k : nat) (st : search) :
  leftmost_inv maxsub readseq t limit matchStart0 k st ->
  bound st <= limit
  /\ (0 <= s_matchIndex st ->
      bound st = occ_end t (s_matchIndex st) (s_matchStart st) - 1).
Proof.
  intros [(E1 & _ & -> & _) | (idx & E1 & _ & Hq & Hb & _)].
  - split; [lia|]. rewrite E1. lia.
  - rewrite E1. split; [|intros _; exact Hb]. rewrite Hb.
    destruct Hq as (c & Hc & _ & _ & Hend).
    unfold occ_end. rewrite (cand_len_nth _ _ _ Hc). lia.
Qed.

(** A match recorded for a later candidate ends strictly before the end
    of the match recorded earlier. *)
Lemma leftmost_later_ends_earlier (readseqlen rightpad matchStart0 : Z)
      (k k' : nat) (st st' : search) :
  readseqlen = len readseq -> 0 <= rightpad ->
  (k < k')%nat -> Z.of_nat k' <= seqcount t ->
  leftmost_after maxsub readseq t readseqlen rightpad matchStart0 k = Ok st ->
  leftmost_after maxsub readseq t readseqlen rightpad matchStart0 k' = Ok st' ->
  0 <= s_matchIndex st -> s_matchIndex st <> s_matchIndex st' ->
  occ_end t (s_matchIndex st') (s_matchStart st')
  < occ_end t (s_matchIndex st) (s_matchStart st).
Proof.
  intros Hlen Hpad Hkk Hk' E E' Hrec Hne.
  assert (Hk'l : (k' <= length (seq t))%nat)
    by (destruct Harrays as [Hc _]; lia).
  destruct (leftmost_after_inv readseqlen rightpad matchStart0 k Hlen Hpad
              ltac:(lia)) as (st0 & E0 & Hinv).
  rewrite E in E0. injection E0 as <-.
  destruct (leftmost_inv_bound _ _ _ _ Hinv) as [Hb Hbe].
  specialize (Hbe Hrec).
  unfold leftmost_after in E, E'.
  replace k' with (k + (k' - k))%nat in E' by lia.
  rewrite for_candidates_app, E in E'. cbn [bind] in E'.
  rewrite Z.add_0_l in E'.
  destruct (leftmost_later maxsub readseq t Harrays (k' - k) k st st')
    as [-> | (_ & He & _)]; [lia|lia|exact E'|congruence|lia].
Qed.

End LeftmostClaims.

(** C2 (amended).  For every read, non-negative right reserve and sequence
    set, [findLeftmost] processes the candidates in stored order; for each
    candidate it records the first start offset, inside the current
    window, at which the bounded-substitution comparison succeeds, and
    sets the exclusive end-bound to that match's end minus one, so that a
    match recorded for a later candidate ends strictly before the END of
    the recorded match (it may overlap it); the final result is the
    qualifying occurrence with the smallest end position under the
    reserve, the earliest stored candidate among those ending there. *)
Theorem findLeftmost_smallest_end (maxsub : Z) (readseq : str) (t : Target)
        (readseqlen rightpad matchStart0 : Z) :
  arrays_ok t -> readseqlen = len readseq -> 0 <= rightpad ->
  let limit := readseqlen - rightpad in
  let after := leftmost_after maxsub readseq t readseqlen rightpad
                              matchStart0 in
  (forall k : nat,
      after (S k)
      = (st <- after k ;; findLeftmost_step maxsub readseq t (Z.of_nat k) st))
  /\ (forall (i : nat) (c : str) (st : search),
         nth_error (seq t) i = Some c -> bound st <= len readseq ->
         exists st',
           findLeftmost_step maxsub readseq t (Z.of_nat i) st = Ok st'
           /\ ((exists s, st' = mkSearch (Z.of_nat i) s (s + len c - 1)
                  /\ occurs maxsub readseq c s /\ s + len c <= bound st
                  /\ forall s', s' < s -> ~ occurs maxsub readseq c s')
               \/ (st' = st
                   /\ forall s, s + len c <= bound st ->
                                ~ occurs maxsub readseq c s)))
  /\ (forall (k k' : nat) (st st' : search),
         (k < k')%nat -> Z.of_nat k' <= seqcount t ->
         after k = Ok st -> after k' = Ok st' ->
         0 <= s_matchIndex st -> s_matchIndex st <> s_matchIndex st' ->
         occ_end t (s_matchIndex st') (s_matchStart st')
         < occ_end t (s_matchIndex st) (s_matchStart st))
  /\ ((findLeftmost maxsub readseq t readseqlen rightpad matchStart0
       = Ok (mkFound false (-1) matchStart0)
       /\ forall j s, ~ qualifies maxsub readseq t 0 limit j s)
      \/
      (exists (idx : nat) (start : Z),
          findLeftmost maxsub readseq t readseqlen rightpad matchStart0
          = Ok (mkFound true (Z.of_nat idx) start)
          /\ qualifies maxsub readseq t 0 limit idx start
          /\ forall j s, qualifies maxsub readseq t 0 limit j s ->
               occ_end t (Z.of_nat idx) start <= occ_end t (Z.of_nat j) s
               /\ (occ_end t (Z.of_nat idx) start = occ_end t (Z.of_nat j) s
                   -> (idx <= j)%nat))).
Proof.
  intros Harrays Hlen Hpad limit after. split; [|split; [|split]].
  - intros k. subst after. unfold leftmost_after.
    replace (S k) with (k + 1)%nat by lia. rewrite for_candidates_app.
    destruct (for_candidates _ k 0 _) as [st|e]; cbn [bind]; [|reflexivity].
    cbn [for_candidates]. rewrite Z.add_0_l.
    destruct (findLeftmost_step _ _ _ _ st); reflexivity.
  - intros i c st. now apply findLeftmost_step_spec.
  - intros k k' st st'.
    now apply leftmost_later_ends_earlier.
  - now apply findLeftmost_correct.
Qed.

Lemma findLeftmost_smallest_end_witness :
  arrays_ok two_overlapping /\ 12 = len (lit "GGAAAAAAAACC") /\ 0 <= 0
  /\ (exists (idx : nat) (start : Z),
         findLeftmost 0 (lit "GGAAAAAAAACC") two_overlapping 12 0 0
         = Ok (mkFound true (Z.of_nat idx) start)
         /\ qualifies 0 (lit "GGAAAAAAAACC") two_overlapping 0 (12 - 0)
                      idx start).
Proof.
  assert (Ha : arrays_ok two_overlapping) by (split; reflexivity).
  split; [exact Ha|]. split; [reflexivity|]. split; [lia|].
  destruct (findLeftmost_smallest_end 0 (lit "GGAAAAAAAACC") two_overlapping
              12 0 0 Ha eq_refl ltac:(lia))
    as (_ & _ & _ & [[E _] | (idx & start & E & Hq & _)]).
  - discriminate E.
  - exists idx, start. split; [exact E | exact Hq].
Defined.

(** C2, counterexample to the tightening as worded: on the read
    GGAAAAAAAACC the set AAAAAAAACC|GGAAAAAAAA records candidate 0 at
    start 2 and then candidate 1 at start 0, which ends at 10, after
    that start. *)
Lemma later_match_ends_before_start_counterexample :
  Target_new (lit "AAAAAAAACC|GGAAAAAAAA") = Ok two_overlapping
  /\ ~ later_match_ends_before_start 0 (lit "GGAAAAAAAACC") two_overlapping
                                     12 0 0.
Proof.
  split; [reflexivity|]. intros H.
  specialize (H 1%nat 2%nat (mkSearch 0 2 11) (mkSearch 1 0 9)
                ltac:(lia) ltac:(cbn; lia) eq_refl eq_refl
                ltac:(cbn; lia) ltac:(cbn; lia)).
  vm_compute in H. now apply H.
Qed.

(** ** Degenerate windows *)

Section Degenerate.
Variable maxsub : Z.
Variable readseq : str.
Variable t : Target.
Hypothesis Harrays : arrays_ok t.

Lemma findLeftmost_step_degenerate (i : nat) (c : str) (st : search) :
  nth_error (seq t) i = Some c -> bound st < len c ->
  findLeftmost_step maxsub readseq t (Z.of_nat i) st = Ok st.
Proof.
  intros Hc Hb. unfold findLeftmost_step.
  rewrite (seqlen_nth _ _ _ Harrays Hc). cbn [bind].
  replace (Z.to_nat (bound st - len c + 1)) with O by lia. reflexivity.
Qed.

Lemma findRightmost_step_degenerate (readseqlen : Z) (i : nat) (c : str)
      (st : search) :
  nth_error (seq t) i = Some c -> readseqlen - bound st < len c ->
  findRightmost_step maxsub readseq t readseqlen (Z.of_nat i) st = Ok st.
Proof.
  intros Hc Hb. unfold findRightmost_step.
  rewrite (seqlen_nth _ _ _ Harrays Hc). cbn [bind].
  replace (Z.to_nat (readseqlen - len c - bound st + 1)) with O by lia.
  reflexivity.
Qed.

Lemma for_candidates_unchanged (body : Z -> search -> result search)
      (st : search) :
  (forall (i : nat) (c : str), nth_error (seq t) i = Some c ->
                               body (Z.of_nat i) st = Ok st) ->
  for_candidates body (Z.to_nat (seqcount t)) 0 st = Ok st.
Proof.
  intros Hbody.
  destruct (for_candidates_inv body (fun _ st' => st' = st)
              (Z.to_nat (seqcount t)) 0 st eq_refl) as (st' & E & ->).
  - intros k st0 Hk ->. exists st. split; [|reflexivity].
    destruct Harrays as [Hc _]. rewrite Hc, Nat2Z.id in Hk.
    destruct (@nth_error_in_range _ (seq t) k ltac:(lia)) as [c Hk'].
    exact (Hbody k c Hk').
  - exact E.
Qed.

Lemma findLeftmost_degenerate (readseqlen rightpad matchStart0 : Z) :
  (forall c, In c (seq t) -> readseqlen - rightpad < len c) ->
  findLeftmost maxsub readseq t readseqlen rightpad matchStart0
  = Ok (mkFound false (-1) matchStart0).
Proof.
  intros Hshort. unfold findLeftmost.
  rewrite for_candidates_unchanged; [reflexivity|].
  intros i c Hc. apply (findLeftmost_step_degenerate i c); [exact Hc|].
  cbn [bound]. apply Hshort. exact (nth_error_In _ _ Hc).
Qed.

Lemma findRightmost_degenerate (readseqlen leftpad matchStart0 : Z) :
  (forall c, In c (seq t) -> readseqlen - leftpad < len c) ->
  findRightmost maxsub readseq t readseqlen leftpad matchStart0
  = Ok (mkFound false (-1) matchStart0).
Proof.
  intros Hshort. unfold findRightmost.
  rewrite for_candidates_unchanged; [reflexivity|].
  intros i c Hc.
  apply (findRightmost_step_degenerate readseqlen i c); [exact Hc|].
  cbn [bound]. apply Hshort. exact (nth_error_In _ _ Hc).
Qed.

End Degenerate.

(** C4.  For every read and every sequence set the constructor can
    build, [findLeftmost] and [findRightmost] return without a fault for
    any non-negative reserve; when the read or the window the reserve
    leaves is shorter than every candidate they return "not found"
    (false, with [matchIndex = -1]). *)
Theorem searches_degenerate_not_found (maxsub : Z) (readseq : str)
        (t : Target) (readseqlen : Z) :
  arrays_ok t -> readseqlen = len readseq ->
  (forall pad matchStart0, 0 <= pad ->
     (exists r, findLeftmost maxsub readseq t readseqlen pad matchStart0
                = Ok r)
     /\ (exists r, findRightmost maxsub readseq t readseqlen pad matchStart0
                   = Ok r))
  /\ (forall pad matchStart0,
         (forall c, In c (seq t) -> readseqlen - pad < len c) ->
         findLeftmost maxsub readseq t readseqlen pad matchStart0
         = Ok (mkFound false (-1) matchStart0)
         /\ findRightmost maxsub readseq t readseqlen pad matchStart0
            = Ok (mkFound false (-1) matchStart0)).
Proof.
  intros Harrays Hlen. split.
  - intros pad matchStart0 Hpad. split.
    + destruct (findLeftmost_inv maxsub readseq t Harrays readseqlen pad
                  matchStart0 Hlen Hpad) as (st & _ & E). eauto.
    + destruct (findRightmost_inv maxsub readseq t Harrays readseqlen pad
                  matchStart0 Hlen Hpad) as (st & _ & E). eauto.
  - intros pad matchStart0 Hshort. split.
    + now apply findLeftmost_degenerate.
    + now apply findRightmost_degenerate.
Qed.

Lemma searches_degenerate_not_found_witness :
  arrays_ok one_candidate /\ 5 = len (lit "AAAAC")
  /\ findLeftmost 2 (lit "AAAAC") one_candidate 5 0 7
     = Ok (mkFound false (-1) 7)
  /\ findRightmost 2 (lit "AAAAC") one_candidate 5 0 7
     = Ok (mkFound false (-1) 7).
Proof.
  assert (Ha : arrays_ok one_candidate) by (split; reflexivity).
  split; [exact Ha|]. split; [reflexivity|].
  apply (proj2 (searches_degenerate_not_found 2 (lit "AAAAC") one_candidate 5
                  Ha eq_refl) 0 7).
  intros c [<-|[]]. reflexivity.
Defined.

(** ** Two occurrences of one candidate *)

(** C8.  For a single-candidate sequence set and a read in which the
    candidate occurs (the bounded-substitution comparison succeeds) at
    exactly two non-overlapping offsets [p] and [q], with zero reserve
    [findLeftmost] returns the start [p] of the left occurrence and
    [findRightmost] the start [q] of the right one. *)
Theorem two_occurrences_left_and_right (maxsub : Z) (readseq : str)
        (t : Target) (c : str) (p q matchStart0 : Z) :
  arrays_ok t -> seq t = [c] ->
  p + len c <= q ->
  (forall s, occurs maxsub readseq c s <-> s = p \/ s = q) ->
  findLeftmost maxsub readseq t (len readseq) 0 matchStart0
  = Ok (mkFound true 0 p)
  /\ findRightmost maxsub readseq t (len readseq) 0 matchStart0
     = Ok (mkFound true 0 q).
Proof.
  intros Harrays Hseq Hpq Hocc.
  pose proof (len_nonneg c) as Hc0.
  assert (Hqual : forall lo hi j s,
             qualifies maxsub readseq t lo hi j s ->
             j = O /\ (s = p \/ s = q) /\ lo <= s /\ s + len c <= hi).
  { intros lo hi j s (c' & Hc' & Ho & Hlo & Hhi). rewrite Hseq in Hc'.
    destruct j as [|j]; [|destruct j; discriminate].
    injection Hc' as <-. split; [reflexivity|].
    split; [now apply Hocc | split; assumption]. }
  assert (Hq : forall s, s = p \/ s = q ->
                         qualifies maxsub readseq t 0 (len readseq - 0) O s
                         /\ qualifies maxsub readseq t 0 (len readseq) O s).
  { intros s Hs. apply Hocc in Hs. pose proof Hs as (H0 & H1 & _).
    split; exists c; rewrite Hseq; (split; [reflexivity|]);
      (split; [exact Hs|]); lia. }
  assert (Hend : forall s, occ_end t (Z.of_nat 0) s = s + len c).
  { intros s. unfold occ_end. rewrite (cand_len_nth t 0 c); [reflexivity|].
    now rewrite Hseq. }
  split.
  - destruct (findLeftmost_correct maxsub readseq t Harrays (len readseq) 0
                matchStart0 eq_refl ltac:(lia))
      as [[_ Hnone] | (idx & start & E & Hqs & Hmin)].
    + exfalso. apply (Hnone O p). apply Hq. now left.
    + rewrite E. destruct (Hqual _ _ _ _ Hqs) as (-> & Hs & _).
      destruct (Hmin O p (proj1 (Hq p (or_introl eq_refl)))) as [Hle _].
      rewrite !Hend in Hle. do 3 f_equal. lia.
  - destruct (findRightmost_correct maxsub readseq t Harrays (len readseq) 0
                matchStart0 eq_refl ltac:(lia))
      as [[_ Hnone] | (idx & start & E & Hqs & Hmax)].
    + exfalso. apply (Hnone O q). apply Hq. now right.
    + rewrite E. destruct (Hqual _ _ _ _ Hqs) as (-> & Hs & _).
      destruct (Hmax O q (proj2 (Hq q (or_intror eq_refl)))) as [Hle _].
      do 3 f_equal. lia.
Qed.

Lemma two_occurrences_left_and_right_witness :
  findLeftmost 0 (lit "AAAACCCCAAAACCCC") one_candidate 16 0 0
  = Ok (mkFound true 0 0)
  /\ findRightmost 0 (lit "AAAACCCCAAAACCCC") one_candidate 16 0 0
     = Ok (mkFound true 0 8).
Proof.
  apply (two_occurrences_left_and_right 0 (lit "AAAACCCCAAAACCCC")
           one_candidate (lit "AAAACCCC") 0 8 0).
  - split; reflexivity.
  - reflexivity.
  - cbn. lia.
  - intros s. split.
    + intros (H0 & H1 & E). change (len (lit "AAAACCCC")) with 8 in *.
      change (len (lit "AAAACCCCAAAACCCC")) with 16 in H1.
      assert (Hs : s = 0 \/ s = 1 \/ s = 2 \/ s = 3 \/ s = 4 \/ s = 5
                   \/ s = 6 \/ s = 7 \/ s = 8) by lia.
      destruct Hs as [->|[->|[->|[->|[->|[->|[->|[->| ->]]]]]]]];
        try (now left); try (now right); vm_compute in E; discriminate E.
    + intros [-> | ->]; repeat split; cbn; lia.
Defined.

(** ** The result of a search does not depend on the caller's start *)

Section StartIndependence.
Variable maxsub : Z.
Variable readseq : str.
Variable t : Target.
Hypothesis Harrays : arrays_ok t.

Lemma occ_end_same_cand (j : Z) (s s' : Z) :
  occ_end t j s = occ_end t j s' -> s = s'.
Proof. unfold occ_end. lia. Qed.

Lemma findLeftmost_matchStart0 (readseqlen rightpad m m' : Z) :
  readseqlen = len readseq -> 0 <= rightpad ->
  exists l l',
    findLeftmost maxsub readseq t readseqlen rightpad m = Ok l
    /\ findLeftmost maxsub readseq t readseqlen rightpad m' = Ok l'
    /\ isFound l = isFound l' /\ matchIndex l = matchIndex l'
    /\ (isFound l = true -> matchStart l = matchStart l').
Proof.
  intros Hlen Hpad.
  destruct (findLeftmost_correct maxsub readseq t Harrays readseqlen rightpad
              m Hlen Hpad) as [[E Hn] | (i & s & E & Hq & Hmin)];
  destruct (findLeftmost_correct maxsub readseq t Harrays readseqlen rightpad
              m' Hlen Hpad) as [[E' Hn'] | (i' & s' & E' & Hq' & Hmin')];
  rewrite E, E'; do 2 eexists; (split; [reflexivity|]);
    (split; [reflexivity|]); cbn [isFound matchIndex matchStart].
  - repeat split. discriminate.
  - exfalso. exact (Hn _ _ Hq').
  - exfalso. exact (Hn' _ _ Hq).
  - destruct (Hmin _ _ Hq') as [H1 H2]. destruct (Hmin' _ _ Hq) as [H3 H4].
    assert (He : occ_end t (Z.of_nat i) s = occ_end t (Z.of_nat i') s')
      by lia.
    assert (i = i') by (specialize (H2 He); specialize (H4 (eq_sym He)); lia).
    subst i'. split; [reflexivity|]. split; [reflexivity|].
    intros _. exact (occ_end_same_cand _ _ _ He).
Qed.

Lemma findRightmost_matchStart0 (readseqlen leftpad m m' : Z) :
  readseqlen = len readseq -> 0 <= leftpad ->
  exists r r',
    findRightmost maxsub readseq t readseqlen leftpad m = Ok r
    /\ findRightmost maxsub readseq t readseqlen leftpad m' = Ok r'
    /\ isFound r = isFound r' /\ matchIndex r = matchIndex r'
    /\ (isFound r = true -> matchStart r = matchStart r').
Proof.
  intros Hlen Hpad.
  destruct (findRightmost_correct maxsub readseq t Harrays readseqlen leftpad
              m Hlen Hpad) as [[E Hn] | (i & s & E & Hq & Hmax)];
  destruct (findRightmost_correct maxsub readseq t Harrays readseqlen leftpad
              m' Hlen Hpad) as [[E' Hn'] | (i' & s' & E' & Hq' & Hmax')];
  rewrite E, E'; do 2 eexists; (split; [reflexivity|]);
    (split; [reflexivity|]); cbn [isFound matchIndex matchStart].
  - repeat split. discriminate.
  - exfalso. exact (Hn _ _ Hq').
  - exfalso. exact (Hn' _ _ Hq).
  - destruct (Hmax _ _ Hq') as [H1 H2]. destruct (Hmax' _ _ Hq) as [H3 H4].
    assert (He : s = s') by lia. subst s'.
    assert (i = i') by (specialize (H2 eq_refl); specialize (H4 eq_refl); lia).
    subst i'. repeat split.
Qed.

(** A found match lies inside the read, and [seqlen] at its index is the
    length of the matched candidate. *)
Lemma findLeftmost_found_in_bounds (readseqlen rightpad m : Z) (l : found) :
  readseqlen = len readseq -> 0 <= rightpad ->
  findLeftmost maxsub readseq t readseqlen rightpad m = Ok l ->
  isFound l = true ->
  exists (idx : nat) (c : str),
    matchIndex l = Z.of_nat idx /\ nth_error (seq t) idx = Some c
    /\ array_get (seqlen t) (matchIndex l) = Ok (len c)
    /\ array_get (seq t) (matchIndex l) = Ok c
    /\ cand_len t (matchIndex l) = len c
    /\ occurs maxsub readseq c (matchStart l)
    /\ 0 <= matchStart l
    /\ matchStart l + len c <= readseqlen - rightpad.
Proof.
  intros Hlen Hpad E Hf.
  destruct (findLeftmost_correct maxsub readseq t Harrays readseqlen rightpad
              m Hlen Hpad) as [[E' _] | (i & s & E' & Hq & _)];
    rewrite E' in E; injection E as <-; [discriminate Hf|].
  destruct Hq as (c & Hc & Ho & H0 & H1). exists i, c.
  cbn [matchIndex matchStart].
  split; [reflexivity|]. split; [exact Hc|].
  split; [exact (seqlen_nth _ _ _ Harrays Hc)|].
  split; [exact (array_get_Ok _ _ _ Hc)|].
  split; [exact (cand_len_nth _ _ _ Hc)|].
  split; [exact Ho|]. split; [exact H0 | exact H1].
Qed.

Lemma findRightmost_found_in_bounds (readseqlen leftpad m : Z) (r : found) :
  readseqlen = len readseq -> 0 <= leftpad ->
  findRightmost maxsub readseq t readseqlen leftpad m = Ok r ->
  isFound r = true ->
  exists (idx : nat) (c : str),
    matchIndex r = Z.of_nat idx /\ nth_error (seq t) idx = Some c
    /\ array_get (seqlen t) (matchIndex r) = Ok (len c)
    /\ array_get (seq t) (matchIndex r) = Ok c
    /\ cand_len t (matchIndex r) = len c
    /\ occurs maxsub readseq c (matchStart r)
    /\ leftpad <= matchStart r
    /\ matchStart r + len c <= readseqlen.
Proof.
  intros Hlen Hpad E Hf.
  destruct (findRightmost_correct maxsub readseq t Harrays readseqlen leftpad
              m Hlen Hpad) as [[E' _] | (i & s & E' & Hq & _)];
    rewrite E' in E; injection E as <-; [discriminate Hf|].
  destruct Hq as (c & Hc & Ho & H0 & H1). exists i, c.
  cbn [matchIndex matchStart].
  split; [reflexivity|]. split; [exact Hc|].
  split; [exact (seqlen_nth _ _ _ Harrays Hc)|].
  split; [exact (array_get_Ok _ _ _ Hc)|].
  split; [exact (cand_len_nth _ _ _ Hc)|].
  split; [exact Ho|]. split; [exact H0 | exact H1].
Qed.

End StartIndependence.

(** ** The condition of findMatch *)

Lemma wf_Target_lens (t : Target) :
  wf_Target t -> MIN_TARGET_LENGTH <= minseqlen t <= maxseqlen t.
Proof.
  intros (_ & _ & _ & Hall & Hmin & _).
  apply Exists_exists in Hmin. destruct Hmin as (c & Hin & Hc).
  rewrite Forall_forall in Hall. destruct (Hall c Hin) as (H8 & Hmm & _).
  lia.
Qed.

Section Condition.
Variable maxsub : Z.
Variable tp : TargetPair.
Variable readString : str.
Hypothesis Hwf : wf_TargetPair tp.

Lemma findMatch_cond_cases (v0 : locals) :
  (want (left tp) = true
   /\ let pad1 := if want (right tp) then minseqlen (right tp)
                  else maxseqlen (right tp) in
      0 <= pad1
      /\ exists l,
          findLeftmost maxsub readString (left tp) (len readString) pad1
                       (leftStart v0) = Ok l
          /\ ((isFound l = false
               /\ findMatch_cond maxsub tp readString (len readString)
                                 (mkFrame v0 [])
                  = Ok (false,
                        mkFrame (mkLocals (matchIndex l) (matchStart l)
                                          (rightIndex v0) (rightStart v0))
                                [LeftmostCall pad1]))
              \/
              (isFound l = true
               /\ let pad2 := matchStart l
                              + cand_len (left tp) (matchIndex l) in
                  0 <= pad2
                  /\ exists r,
                      findRightmost maxsub readString (right tp) (len readString)
                                    pad2 (rightStart v0) = Ok r
                      /\ findMatch_cond maxsub tp readString (len readString)
                                        (mkFrame v0 [])
                         = Ok (Bool.eqb (isFound r) (want (right tp)),
                               mkFrame (mkLocals (matchIndex l) (matchStart l)
                                                 (matchIndex r) (matchStart r))
                                       [LeftmostCall pad1;
                                        RightmostCall pad2]))))
  \/
  (want (left tp) = false /\ want (right tp) = true
   /\ 0 <= maxseqlen (left tp)
   /\ exists r,
       findRightmost maxsub readString (right tp) (len readString)
                     (maxseqlen (left tp)) (rightStart v0) = Ok r
       /\ ((isFound r = false
            /\ findMatch_cond maxsub tp readString (len readString) (mkFrame v0 [])
               = Ok (false,
                     mkFrame (mkLocals (leftIndex v0) (leftStart v0)
                                       (matchIndex r) (matchStart r))
                             [RightmostCall (maxseqlen (left tp))]))
           \/
           (isFound r = true
            /\ let pad2 := len readString - matchStart r in
               0 <= pad2
               /\ exists l,
                   findLeftmost maxsub readString (left tp) (len readString) pad2
                                (leftStart v0) = Ok l
                   /\ findMatch_cond maxsub tp readString (len readString)
                                     (mkFrame v0 [])
                      = Ok (negb (isFound l),
                            mkFrame (mkLocals (matchIndex l) (matchStart l)
                                              (matchIndex r) (matchStart r))
                                    [RightmostCall (maxseqlen (left tp));
                                     LeftmostCall pad2])))).
Proof.
  destruct Hwf as (Hl & Hr & _ & Hwant).
  pose proof (wf_Target_lens _ Hl) as Hll.
  pose proof (wf_Target_lens _ Hr) as Hlr.
  pose proof (wf_arrays_ok _ Hl) as Hal.
  pose proof (wf_arrays_ok _ Hr) as Har.
  unfold MIN_TARGET_LENGTH in *.
  unfold findMatch_cond, orE, andE, eqE, notE, pure, left_findLeftmost,
    right_findRightmost.
  cbn [bind vars calls app].
  destruct (want (left tp)) eqn:Ewl.
  - left. split; [reflexivity|]. cbv zeta.
    set (pad1 := if want (right tp) then minseqlen (right tp)
                 else maxseqlen (right tp)).
    assert (Hpad1 : 0 <= pad1) by (subst pad1; destruct (want (right tp)); lia).
    split; [exact Hpad1|].
    destruct (findLeftmost_matchStart0 maxsub readString (left tp) Hal
                (len readString) pad1 (leftStart v0) (leftStart v0) eq_refl Hpad1)
      as (l & _ & El & _ & _).
    exists l. split; [exact El|]. rewrite El. cbn [bind vars calls app].
    destruct (isFound l) eqn:Efl.
    + right. split; [reflexivity|].
      destruct (findLeftmost_found_in_bounds maxsub readString (left tp) Hal
                  (len readString) pad1 (leftStart v0) l eq_refl Hpad1 El Efl)
        as (idx & c & Ei & Hc & Esl & _ & Ecl & _ & H0 & H1).
      cbn [leftIndex leftStart rightIndex rightStart].
      rewrite Esl, Ecl. cbn [bind].
      pose proof (len_nonneg c) as Hc0.
      split; [lia|].
      destruct (findRightmost_matchStart0 maxsub readString (right tp) Har
                  (len readString) (matchStart l + len c) (rightStart v0)
                  (rightStart v0) eq_refl ltac:(lia))
        as (r & _ & Er & _ & _).
      exists r. split; [exact Er|]. rewrite Er. cbn [bind vars calls app].
      destruct (Bool.eqb (isFound r) (want (right tp))); reflexivity.
    + left. split; [reflexivity|]. reflexivity.
  - right. split; [reflexivity|].
    assert (Ewr : want (right tp) = true)
      by (destruct Hwant as [H|H]; [discriminate H | exact H]).
    split; [exact Ewr|]. split; [lia|].
    cbn [bind vars calls app negb].
    destruct (findRightmost_matchStart0 maxsub readString (right tp) Har
                (len readString) (maxseqlen (left tp)) (rightStart v0)
                (rightStart v0) eq_refl ltac:(lia))
      as (r & _ & Er & _ & _).
    exists r. split; [exact Er|]. rewrite Er. cbn [bind vars calls app].
    destruct (isFound r) eqn:Efr.
    + right. split; [reflexivity|].
      destruct (findRightmost_found_in_bounds maxsub readString (right tp) Har
                  (len readString) (maxseqlen (left tp)) (rightStart v0) r
                  eq_refl ltac:(lia) Er Efr)
        as (idx & c & Ei & Hc & _ & _ & _ & _ & H0 & H1).
      pose proof (len_nonneg c) as Hc0.
      cbn [leftIndex leftStart rightIndex rightStart].
      split; [lia|].
      destruct (findLeftmost_matchStart0 maxsub readString (left tp) Hal
                  (len readString) (len readString - matchStart r) (leftStart v0)
                  (leftStart v0) eq_refl ltac:(lia))
        as (l & _ & El & _ & _).
      exists l. split; [exact El|]. rewrite El. cbn [bind vars calls app].
      reflexivity.
    + left. split; [reflexivity|]. reflexivity.
Qed.

End Condition.

(** ** Reporting *)

Lemma window_nil (s : str) (pos : Z) : window s pos 0 = [].
Proof. reflexivity. Qed.

Lemma window_to_end (s : str) (pos : Z) (n : nat) :
  (length s <= Z.to_nat pos + n)%nat -> window s pos n = skipn (Z.to_nat pos) s.
Proof.
  intros H. unfold window. apply firstn_all2. rewrite length_skipn. lia.
Qed.

Lemma window_length (s : str) (pos : Z) (n : nat) :
  0 <= pos -> pos + Z.of_nat n <= len s -> length (window s pos n) = n.
Proof.
  unfold window, len. intros H0 H1.
  rewrite length_firstn, length_skipn. lia.
Qed.

Lemma substr_window (s : str) (pos n : Z) :
  0 <= pos <= len s -> 0 <= n ->
  substr s pos n = Ok (window s pos (Z.to_nat n)).
Proof.
  intros Hpos Hn. unfold substr.
  destruct (Z.ltb_spec pos 0); [lia|].
  destruct (Z.gtb_spec pos (len s)); [lia|]. cbn [orb].
  destruct (Z.ltb_spec n 0); [lia|]. reflexivity.
Qed.

(** The guarded [substr] of [writeMatch]: nothing is written for a
    non-positive length. *)
Lemma optional_piece (out s : str) (pos n : Z) :
  0 <= pos <= len s ->
  (if n >? 0 then x <- substr s pos n ;; Ok (out ++ x) else Ok out)
  = Ok (out ++ window s pos (Z.to_nat n)).
Proof.
  intros Hpos. destruct (Z.gtb_spec n 0) as [Hn|Hn].
  - rewrite substr_window by lia. reflexivity.
  - replace (Z.to_nat n) with O by lia. now rewrite window_nil, app_nil_r.
Qed.

Lemma highlight_loop_spec (span target : str) (i : nat) :
  (i + length span <= length target)%nat ->
  highlight_loop span target (Z.of_nat i)
  = Ok (zip_mark mark_lower span (skipn i target)).
Proof.
  revert i. induction span as [|r span IH]; intros i Hi.
  - reflexivity.
  - cbn [length] in Hi.
    destruct (@nth_error_in_range _ target i ltac:(lia)) as [c Hc].
    cbn [highlight_loop]. rewrite (read_at_Ok _ _ _ Hc). cbn [bind].
    replace (Z.of_nat i + 1) with (Z.of_nat (S i)) by lia.
    rewrite IH by lia. cbn [bind].
    rewrite (skipn_nth_error _ _ _ Hc). reflexivity.
Qed.

Lemma highlight_spec (span target : str) :
  (length span <= length target)%nat ->
  highlight span target
  = Ok (lit "[" ++ zip_mark mark_lower span target ++ lit "]").
Proof.
  intros H. unfold highlight. change 0 with (Z.of_nat 0).
  rewrite highlight_loop_spec by lia. reflexivity.
Qed.

(** The span that [writeMatch] highlights for a match inside the read. *)
Lemma highlighted_span (readString c : str) (start : Z) :
  0 <= start -> start + len c <= len readString ->
  (span <- substr readString start (len c) ;; highlight span c)
  = Ok (lit "[" ++ zip_mark mark_lower (window readString start (length c)) c
        ++ lit "]").
Proof.
  intros H0 H1. pose proof (len_nonneg c).
  rewrite substr_window by lia. cbn [bind]. unfold len at 1.
  rewrite Nat2Z.id. apply highlight_spec.
  rewrite window_length by (unfold len in *; lia). lia.
Qed.

Lemma to_nat_len (c : str) : Z.to_nat (len c) = length c.
Proof. unfold len. apply Nat2Z.id. Qed.

Ltac norm_app :=
  repeat (rewrite <- app_assoc || rewrite <- app_comm_cons
          || rewrite app_nil_l).

Lemma cand_of_array_get (t : Target) (i : Z) (c : str) :
  array_get (seq t) i = Ok c -> cand t i = c.
Proof.
  intros H. apply array_get_inv in H. destruct H as [_ H].
  unfold cand. now apply nth_error_nth.
Qed.

Lemma window_rest (s : str) (pos : Z) :
  0 <= pos <= len s ->
  window s pos (Z.to_nat (len s - pos)) = skipn (Z.to_nat pos) s.
Proof. intros H. apply window_to_end. unfold len in *. lia. Qed.

(** [writeMatch] for match offsets inside the read, the left span before
    the right one. *)
Lemma writeMatch_spec (tp : TargetPair) (readName readString : str)
      (li ls ri rs : Z) :
  want (left tp) = true \/ want (right tp) = true ->
  (want (left tp) = true ->
   exists cl, array_get (seqlen (left tp)) li = Ok (len cl)
              /\ array_get (seq (left tp)) li = Ok cl
              /\ 0 <= ls
              /\ ls + len cl <= (if want (right tp) then rs
                                 else len readString)) ->
  (want (right tp) = true ->
   exists cr, array_get (seqlen (right tp)) ri = Ok (len cr)
              /\ array_get (seq (right tp)) ri = Ok cr
              /\ 0 <= rs /\ rs + len cr <= len readString) ->
  writeMatch tp readName readString li ls ri rs
  = Ok (output_line mark_lower tp readName readString (mkLocals li ls ri rs)
        ++ [newline]).
Proof.
  intros Hwant Hleft Hright. unfold writeMatch, output_line, spans_of.
  cbn [leftIndex leftStart rightIndex rightStart].
  destruct (want (left tp)); destruct (want (right tp)).
  - destruct (Hleft eq_refl) as (cl & E1 & E2 & Hl0 & Hl1).
    destruct (Hright eq_refl) as (cr & E3 & E4 & Hr0 & Hr1).
    pose proof (len_nonneg cl). pose proof (len_nonneg cr).
    rewrite (cand_of_array_get _ _ _ E2), (cand_of_array_get _ _ _ E4).
    rewrite optional_piece by lia. cbn [bind].
    rewrite E1, E2. cbn [bind]. rewrite substr_window by lia. cbn [bind].
    rewrite highlight_spec
      by (rewrite window_length by (unfold len in *; lia); unfold len; lia).
    cbn [bind]. rewrite optional_piece by lia. cbn [bind].
    rewrite E3, E4. cbn [bind]. rewrite substr_window by lia. cbn [bind].
    rewrite highlight_spec
      by (rewrite window_length by (unfold len in *; lia); unfold len; lia).
    cbn [bind]. rewrite optional_piece by lia. cbn [bind].
    f_equal. cbn [app annotate]. rewrite Z.sub_0_r.
    rewrite !to_nat_len.
    replace (rs - ls - len cl) with (rs - (ls + len cl)) by lia.
    replace (len readString - rs - len cr)
      with (len readString - (rs + len cr)) by lia.
    rewrite window_rest by lia.
    norm_app. reflexivity.
  - destruct (Hleft eq_refl) as (cl & E1 & E2 & Hl0 & Hl1).
    pose proof (len_nonneg cl).
    rewrite (cand_of_array_get _ _ _ E2).
    rewrite optional_piece by lia. cbn [bind].
    rewrite E1, E2. cbn [bind]. rewrite substr_window by lia. cbn [bind].
    rewrite highlight_spec
      by (rewrite window_length by (unfold len in *; lia); unfold len; lia).
    cbn [bind]. rewrite optional_piece by lia. cbn [bind].
    f_equal. cbn [app annotate]. rewrite Z.sub_0_r.
    rewrite !to_nat_len.
    replace (len readString - ls - len cl)
      with (len readString - (ls + len cl)) by lia.
    rewrite window_rest by lia.
    norm_app. reflexivity.
  - destruct (Hright eq_refl) as (cr & E3 & E4 & Hr0 & Hr1).
    pose proof (len_nonneg cr).
    rewrite (cand_of_array_get _ _ _ E4).
    rewrite optional_piece by lia. cbn [bind].
    rewrite E3, E4. cbn [bind]. rewrite substr_window by lia. cbn [bind].
    rewrite highlight_spec
      by (rewrite window_length by (unfold len in *; lia); unfold len; lia).
    cbn [bind]. rewrite optional_piece by lia. cbn [bind].
    f_equal. cbn [app annotate]. rewrite Z.sub_0_r.
    rewrite !to_nat_len.
    replace (len readString - rs - len cr)
      with (len readString - (rs + len cr)) by lia.
    rewrite window_rest by lia.
    norm_app. reflexivity.
  - destruct Hwant; discriminate.
Qed.

(** ** findMatch: decision, searches and record *)

Section FindMatchReport.
Variable maxsub : Z.
Variable tp : TargetPair.
Variable readName readString : str.
Hypothesis Hwf : wf_TargetPair tp.

Lemma findMatch_report (v0 : locals) :
  exists (b : bool) (f : frame),
    findMatch_cond maxsub tp readString (len readString) (mkFrame v0 [])
    = Ok (b, f)
    /\ pair_decision maxsub tp readString = Ok (b, calls f)
    /\ findMatch maxsub tp readName readString v0
       = Ok (if b then output_line mark_lower tp readName readString (vars f)
                       ++ [newline]
             else []).
Proof.
  pose proof Hwf as (Hl & Hr & _ & Hwant).
  pose proof (wf_arrays_ok _ Hl) as Hal.
  pose proof (wf_arrays_ok _ Hr) as Har.
  pose proof (wf_Target_lens _ Hl) as Hll.
  pose proof (wf_Target_lens _ Hr) as Hlr.
  unfold MIN_TARGET_LENGTH in *.
  unfold findMatch, pair_decision. cbv zeta.
  destruct (findMatch_cond_cases maxsub tp readString Hwf v0)
    as [(Ewl & Hpad1 & l & El & Hcase) | (Ewl & Ewr & Hpad & r & Er & Hcase)];
    cbv zeta in *; rewrite Ewl.
  - (* the left set requires presence *)
    set (pad1 := if want (right tp) then minseqlen (right tp)
                 else maxseqlen (right tp)) in *.
    destruct (findLeftmost_matchStart0 maxsub readString (left tp) Hal
                (len readString) pad1 (leftStart v0) 0 eq_refl Hpad1)
      as (l1 & l' & El1 & El' & Hf & Hi & Hs).
    rewrite El in El1. injection El1 as <-.
    rewrite El'. cbn [bind]. rewrite <- Hf.
    destruct Hcase as [(Efl & Ec) | (Efl & Hpad2 & r & Er & Ec)];
      rewrite Ec, Efl; cbn [bind].
    + exists false. eexists. split; [reflexivity|]. split; reflexivity.
    + rewrite <- Hi, <- (Hs Efl).
      destruct (findRightmost_matchStart0 maxsub readString (right tp) Har
                  (len readString)
                  (matchStart l + cand_len (left tp) (matchIndex l))
                  (rightStart v0) 0 eq_refl Hpad2)
        as (r1 & r' & Er1 & Er' & Hfr & _ & _).
      rewrite Er in Er1. injection Er1 as <-.
      rewrite Er'. cbn [bind]. rewrite <- Hfr.
      exists (Bool.eqb (isFound r) (want (right tp))). eexists.
      split; [reflexivity|]. split; [reflexivity|].
      destruct (Bool.eqb (isFound r) (want (right tp))) eqn:Eb; [|reflexivity].
      cbn [vars leftIndex leftStart rightIndex rightStart].
      destruct (findLeftmost_found_in_bounds maxsub readString (left tp) Hal
                  (len readString) pad1 (leftStart v0) l eq_refl Hpad1 El Efl)
        as (idx & cl & _ & _ & Esl & Esq & Ecl & _ & H0 & H1).
      apply writeMatch_spec.
      * now left.
      * intros _. exists cl. split; [exact Esl|]. split; [exact Esq|].
        split; [exact H0|].
        destruct (want (right tp)) eqn:Ewr; [|lia].
        apply eqb_prop in Eb.
        destruct (findRightmost_found_in_bounds maxsub readString (right tp)
                    Har (len readString) _ (rightStart v0) r eq_refl Hpad2
                    Er Eb)
          as (_ & _ & _ & _ & _ & _ & _ & _ & H2 & _).
        rewrite Ecl in H2. exact H2.
      * intros Ewr. rewrite Ewr in Eb. apply eqb_prop in Eb.
        destruct (findRightmost_found_in_bounds maxsub readString (right tp)
                    Har (len readString) _ (rightStart v0) r eq_refl Hpad2
                    Er Eb)
          as (_ & cr & _ & _ & Esl' & Esq' & _ & _ & H2 & H3).
        exists cr. split; [exact Esl'|]. split; [exact Esq'|].
        split; [lia | exact H3].
  - (* the left set requires absence *)
    destruct (findRightmost_matchStart0 maxsub readString (right tp) Har
                (len readString) (maxseqlen (left tp)) (rightStart v0) 0
                eq_refl Hpad)
      as (r1 & r' & Er1 & Er' & Hf & Hi & Hs).
    rewrite Er in Er1. injection Er1 as <-.
    rewrite Er'. cbn [bind]. rewrite <- Hf.
    destruct Hcase as [(Efr & Ec) | (Efr & Hpad2 & l & El & Ec)];
      rewrite Ec, Efr; cbn [bind].
    + exists false. eexists. split; [reflexivity|]. split; reflexivity.
    + rewrite <- (Hs Efr).
      destruct (findLeftmost_matchStart0 maxsub readString (left tp) Hal
                  (len readString) (len readString - matchStart r)
                  (leftStart v0) 0 eq_refl Hpad2)
        as (l1 & l' & El1 & El' & Hfl & _ & _).
      rewrite El in El1. injection El1 as <-.
      rewrite El'. cbn [bind]. rewrite <- Hfl.
      exists (negb (isFound l)). eexists.
      split; [reflexivity|]. split; [reflexivity|].
      destruct (negb (isFound l)) eqn:Eb; [|reflexivity].
      cbn [vars leftIndex leftStart rightIndex rightStart].
      apply writeMatch_spec.
      * now right.
      * intros Hcontra. rewrite Hcontra in Ewl. discriminate Ewl.
      * intros _.
        destruct (findRightmost_found_in_bounds maxsub readString (right tp)
                    Har (len readString) _ (rightStart v0) r eq_refl Hpad
                    Er Efr)
          as (_ & cr & _ & _ & Esl' & Esq' & _ & _ & H2 & H3).
        exists cr. split; [exact Esl'|]. split; [exact Esq'|].
        split; [lia | exact H3].
Qed.

End FindMatchReport.

Lemma confirmed_spans_ok (maxsub : Z) (tp : TargetPair) (readString : str)
      (v0 : locals) (f : frame) :
  wf_TargetPair tp ->
  findMatch_cond maxsub tp readString (len readString) (mkFrame v0 [])
  = Ok (true, f) ->
  spans_ok readString 0 (spans_of tp (vars f)).
Proof.
  intros Hwf Ec. pose proof Hwf as (Hl & Hr & _ & Hwant).
  pose proof (wf_arrays_ok _ Hl) as Hal.
  pose proof (wf_arrays_ok _ Hr) as Har.
  pose proof (wf_Target_lens _ Hl) as Hll.
  pose proof (wf_Target_lens _ Hr) as Hlr.
  unfold MIN_TARGET_LENGTH in *. unfold spans_of.
  destruct (findMatch_cond_cases maxsub tp readString Hwf v0)
    as [(Ewl & Hpad1 & l & El & Hcase) | (Ewl & Ewr & Hpad & r & Er & Hcase)];
    cbv zeta in *; rewrite Ewl.
  - destruct Hcase as [(Efl & Ec') | (Efl & Hpad2 & r & Er & Ec')];
      rewrite Ec' in Ec; [discriminate Ec|].
    injection Ec as Eb <-.
    cbn [vars leftIndex leftStart rightIndex rightStart].
    destruct (findLeftmost_found_in_bounds maxsub readString (left tp) Hal
                (len readString) _ (leftStart v0) l eq_refl Hpad1 El Efl)
      as (idx & cl & _ & _ & _ & Esq & Ecl & _ & H0 & H1).
    rewrite (cand_of_array_get _ _ _ Esq).
    destruct (want (right tp)) eqn:Ewr.
    + apply eqb_prop in Eb.
      destruct (findRightmost_found_in_bounds maxsub readString (right tp)
                  Har (len readString) _ (rightStart v0) r eq_refl Hpad2
                  Er Eb)
        as (_ & cr & _ & _ & _ & Esq' & _ & _ & H2 & H3).
      rewrite (cand_of_array_get _ _ _ Esq'). rewrite Ecl in H2.
      cbn [app spans_ok]. repeat split; lia.
    + cbn [app spans_ok]. split; lia.
  - rewrite Ewr.
    destruct Hcase as [(Efr & Ec') | (Efr & Hpad2 & l & El & Ec')];
      rewrite Ec' in Ec; [discriminate Ec|].
    injection Ec as Eb <-.
    cbn [vars leftIndex leftStart rightIndex rightStart].
    destruct (findRightmost_found_in_bounds maxsub readString (right tp)
                Har (len readString) _ (rightStart v0) r eq_refl Hpad
                Er Efr)
      as (_ & cr & _ & _ & _ & Esq' & _ & _ & H2 & H3).
    rewrite (cand_of_array_get _ _ _ Esq').
    cbn [app spans_ok]. split; lia.
Qed.

Ltac wf_concrete :=
  repeat split; try discriminate; try reflexivity;
  try (now constructor);
  try (constructor; [|constructor]; repeat split; try reflexivity;
       vm_compute; discriminate).

Lemma one_candidate_wf : wf_Target one_candidate.
Proof. wf_concrete. Qed.

Lemma FUS_wf : wf_TargetPair FUS.
Proof.
  split; [exact one_candidate_wf|]. split; [wf_concrete|].
  split; [discriminate | now left].
Qed.

(** C1.  For every read and every validly constructed pair, the condition
    of [findMatch] evaluates without fault to the decision of the
    two-branch predicate, performing exactly the searches of the branch
    that the left set's polarity selects, with the reserves stated there;
    and [findMatch] writes a record exactly when the decision is true. *)
Theorem findMatch_two_branch_decision (maxsub : Z) (tp : TargetPair)
        (readName readString : str) (v0 : locals) :
  wf_TargetPair tp ->
  exists (b : bool) (f : frame) (out : str),
    findMatch_cond maxsub tp readString (len readString) (mkFrame v0 [])
    = Ok (b, f)
    /\ pair_decision maxsub tp readString = Ok (b, calls f)
    /\ findMatch maxsub tp readName readString v0 = Ok out
    /\ (out <> [] <-> b = true).
Proof.
  intros Hwf.
  destruct (findMatch_report maxsub tp readName readString Hwf v0)
    as (b & f & Ec & Ed & Eo).
  exists b, f. eexists. split; [exact Ec|]. split; [exact Ed|].
  split; [exact Eo|]. destruct b.
  - split; [reflexivity|]. intros _ H. apply app_eq_nil in H.
    destruct H as [_ H]. discriminate H.
  - split; [intros H; now contradiction H | discriminate].
Qed.

Lemma findMatch_two_branch_decision_witness :
  exists (b : bool) (f : frame) (out : str),
    findMatch_cond 0 FUS (lit "NNNAAAACCCCxxxxGGGGTTTTNNN") 26
                   (mkFrame some_locals []) = Ok (b, f)
    /\ pair_decision 0 FUS (lit "NNNAAAACCCCxxxxGGGGTTTTNNN")
       = Ok (b, calls f)
    /\ findMatch 0 FUS (lit "read1") (lit "NNNAAAACCCCxxxxGGGGTTTTNNN")
                 some_locals = Ok out
    /\ (out <> [] <-> b = true).
Proof.
  exact (findMatch_two_branch_decision 0 FUS (lit "read1")
           (lit "NNNAAAACCCCxxxxGGGGTTTTNNN") some_locals FUS_wf).
Defined.

(** C9 (amended).  For every confirmed match of a validly constructed
    pair, the text written is the read name, a tab, the read with each
    matched candidate span of a side that requires presence enclosed in
    brackets (the left span first, the spans inside the read and not
    overlapping), a tab, the label and a newline; inside a span a base
    equal to the candidate's base is reproduced as it is and a base that
    differs is converted to lower case (which inverts the case of an
    upper-case base and leaves a lower-case base unchanged); the bases
    outside the spans are reproduced literally. *)
Theorem findMatch_emits_lowercased_record (maxsub : Z) (tp : TargetPair)
        (readName readString : str) (v0 : locals) :
  wf_TargetPair tp ->
  emits_record mark_lower maxsub tp readName readString v0
  /\ forall f,
      findMatch_cond maxsub tp readString (len readString) (mkFrame v0 [])
      = Ok (true, f) ->
      spans_ok readString 0 (spans_of tp (vars f)).
Proof.
  intros Hwf. split.
  - intros f Ec.
    destruct (findMatch_report maxsub tp readName readString Hwf v0)
      as (b & f' & Ec' & _ & Eo).
    rewrite Ec in Ec'. injection Ec' as <- <-. exact Eo.
  - intros f Ec. exact (confirmed_spans_ok maxsub tp readString v0 f Hwf Ec).
Qed.

Lemma findMatch_emits_lowercased_record_witness :
  findMatch 1 FUS (lit "read1") (lit "NNNAAAATCCCxxxxGGGGTTTTNNN") some_locals
  = Ok (lit "read1" ++ [tab] ++ lit "NNN[AAAAtCCC]xxxx[GGGGTTTT]NNN"
        ++ [tab] ++ lit "FUS" ++ [newline]).
Proof.
  exact (proj1 (findMatch_emits_lowercased_record 1 FUS (lit "read1")
                  (lit "NNNAAAATCCCxxxxGGGGTTTTNNN") some_locals FUS_wf)
               (mkFrame (mkLocals 0 3 0 15)
                        [LeftmostCall 8; RightmostCall 11])
               eq_refl).
Defined.

(** C9, counterexample to the case inversion: the read AAAAcCCCGGGGTTTT
    matches [FUS] with one substitution at a lower-case base, which is
    written unchanged, not upper-cased. *)
Lemma emits_case_inverted_record_counterexample :
  ~ emits_record mark_inverted 2 FUS (lit "read1") (lit "AAAAcCCCGGGGTTTT")
                 some_locals.
Proof.
  intros H.
  specialize (H (mkFrame (mkLocals 0 0 0 8)
                         [LeftmostCall 8; RightmostCall 8]) eq_refl).
  vm_compute in H. discriminate H.
Qed.

(** ** Memory safety of the searches *)

Lemma read_at_in_bounds (buf : str) (i : Z) (c : ascii) :
  read_at buf i = Ok c -> 0 <= i < len buf.
Proof.
  intros H. apply array_get_inv in H. destruct H as [H0 H].
  assert (Hlt : (Z.to_nat i < length buf)%nat)
    by (apply nth_error_Some; now rewrite H).
  unfold len. lia.
Qed.

(** C10.  In the embedding a read of the buffer outside
    [0, readseqlen) is the fault [invalid_read], so a result [Ok] means
    that every position read lay inside the buffer.  For every read and
    every validly constructed pair, the condition of [findMatch]
    evaluates to [Ok], and every search it performs has a non-negative
    reserve; every search with a non-negative reserve returns [Ok], and
    when it returns true, [0 <= matchStart] and
    [matchStart + seqlen[matchIndex] <= readseqlen]. *)
Theorem findMatch_searches_in_bounds (maxsub : Z) (tp : TargetPair)
        (readString : str) (v0 : locals) :
  wf_TargetPair tp ->
  (exists (b : bool) (f : frame),
      findMatch_cond maxsub tp readString (len readString) (mkFrame v0 [])
      = Ok (b, f)
      /\ Forall (fun c => 0 <= reserve_of c) (calls f))
  /\ (forall (t : Target) (pad m : Z),
         arrays_ok t -> 0 <= pad ->
         (exists r,
             findLeftmost maxsub readString t (len readString) pad m = Ok r
             /\ (isFound r = true ->
                 exists l, array_get (seqlen t) (matchIndex r) = Ok l
                           /\ 0 <= matchStart r
                           /\ matchStart r + l <= len readString))
         /\ (exists r,
                findRightmost maxsub readString t (len readString) pad m
                = Ok r
                /\ (isFound r = true ->
                    exists l, array_get (seqlen t) (matchIndex r) = Ok l
                              /\ 0 <= matchStart r
                              /\ matchStart r + l <= len readString)))
  /\ (forall (buf : str) (i : Z) (c : ascii),
         read_at buf i = Ok c -> 0 <= i < len buf).
Proof.
  intros Hwf. split; [|split].
  - destruct (findMatch_cond_cases maxsub tp readString Hwf v0)
      as [(_ & Hpad1 & l & _ & [(_ & Ec) | (_ & Hpad2 & r & _ & Ec)])
         | (_ & _ & Hpad & r & _ & [(_ & Ec) | (_ & Hpad2 & l & _ & Ec)])];
      cbv zeta in *; rewrite Ec; do 2 eexists; (split; [reflexivity|]);
      cbn [calls]; repeat constructor; assumption.
  - intros t pad m Harrays Hpad. split.
    + destruct (findLeftmost_matchStart0 maxsub readString t Harrays
                  (len readString) pad m m eq_refl Hpad)
        as (r & _ & Er & _ & _).
      exists r. split; [exact Er|]. intros Hf.
      destruct (findLeftmost_found_in_bounds maxsub readString t Harrays
                  (len readString) pad m r eq_refl Hpad Er Hf)
        as (_ & c & _ & _ & Esl & _ & _ & _ & H0 & H1).
      exists (len c). split; [exact Esl|]. lia.
    + destruct (findRightmost_matchStart0 maxsub readString t Harrays
                  (len readString) pad m m eq_refl Hpad)
        as (r & _ & Er & _ & _).
      exists r. split; [exact Er|]. intros Hf.
      destruct (findRightmost_found_in_bounds maxsub readString t Harrays
                  (len readString) pad m r eq_refl Hpad Er Hf)
        as (_ & c & _ & _ & Esl & _ & _ & _ & H0 & H1).
      exists (len c). split; [exact Esl|]. lia.
  - exact read_at_in_bounds.
Qed.

Lemma findMatch_searches_in_bounds_witness :
  exists (b : bool) (f : frame),
    findMatch_cond 2 FUS (lit "AAAACCCCGGGG") (len (lit "AAAACCCCGGGG"))
                   (mkFrame some_locals []) = Ok (b, f)
    /\ Forall (fun c => 0 <= reserve_of c) (calls f).
Proof.
  exact (proj1 (findMatch_searches_in_bounds 2 FUS (lit "AAAACCCCGGGG")
                  some_locals FUS_wf)).
Defined.

(** ** Characters *)

Lemma is_base_cases (c : ascii) :
  is_base c = true ->
  c = "A"%char \/ c = "C"%char \/ c = "G"%char \/ c = "T"%char.
Proof.
  unfold is_base. rewrite !orb_true_iff, !Ascii.eqb_eq. tauto.
Qed.

Lemma invert_char_involutive (c : ascii) : invert_char (invert_char c) = c.
Proof. destruct c as [[] [] [] [] [] [] [] []]; reflexivity. Qed.

Lemma toupper_idempotent (c : ascii) : toupper (toupper c) = toupper c.
Proof. destruct c as [[] [] [] [] [] [] [] []]; reflexivity. Qed.

Lemma isACGT_upper (c : ascii) : toupper c = c -> isACGT c = is_base c.
Proof. intros H. unfold isACGT. now rewrite H. Qed.

Lemma base_facts (c : ascii) :
  is_base c = true ->
  toupper c = c /\ invert_char c = complement c
  /\ is_base (complement c) = true
  /\ c <> "|"%char /\ c <> "-"%char /\ c <> zero.
Proof.
  intros H. apply is_base_cases in H.
  destruct H as [->|[->|[->| ->]]]; repeat split; discriminate.
Qed.

(** ** Splitting and joining *)

Lemma split_on_nonempty (d : ascii) (s : str) : split_on d s <> [].
Proof.
  destruct s as [|c s]; cbn; [discriminate|].
  destruct (Ascii.eqb c d); [discriminate|].
  destruct (split_on d s); discriminate.
Qed.

(** The loop of [getDelimitedStrings] computes the fields: [value] is
    the beginning of the first field still to come. *)
Lemma getDelimitedStrings_loop_split (d : ascii) (s value : str)
      (v : list str) :
  getDelimitedStrings_loop s d value v
  = v ++ match split_on d s with
         | x :: r => (value ++ x) :: r
         | [] => [value]
         end.
Proof.
  revert value v. induction s as [|c s IH]; intros value v.
  - cbn. now rewrite app_nil_r.
  - cbn [getDelimitedStrings_loop split_on].
    pose proof (split_on_nonempty d s) as Hne.
    destruct (Ascii.eqb c d); rewrite IH;
      destruct (split_on d s) as [|x r]; try contradiction.
    + cbn [app]. rewrite (app_nil_r value).
      rewrite <- (app_assoc v [value]). reflexivity.
    + now rewrite <- app_assoc.
Qed.

Lemma getDelimitedStrings_split (d : ascii) (s : str) :
  getDelimitedStrings s d [] = split_on d s.
Proof.
  unfold getDelimitedStrings. rewrite getDelimitedStrings_loop_split.
  cbn [app]. pose proof (split_on_nonempty d s) as Hne.
  destruct (split_on d s); [contradiction|reflexivity].
Qed.

Lemma split_on_app_field (d : ascii) (x s : str) :
  ~ In d x ->
  split_on d (x ++ s)
  = match split_on d s with
    | y :: r => (x ++ y) :: r
    | [] => [x]
    end.
Proof.
  intros Hd. induction x as [|c x IH]; cbn [app split_on].
  - destruct (split_on d s) eqn:E; [|reflexivity].
    now destruct (split_on_nonempty d s).
  - destruct (Ascii.eqb_spec c d) as [->|Hne].
    + exfalso. apply Hd. now left.
    + rewrite IH by (intros H; apply Hd; now right).
      destruct (split_on d s) eqn:E; [|reflexivity].
      now destruct (split_on_nonempty d s).
Qed.

Lemma split_on_field (d : ascii) (x : str) :
  ~ In d x -> split_on d x = [x].
Proof.
  intros Hd. rewrite <- (app_nil_r x) at 1.
  rewrite split_on_app_field by assumption. cbn. now rewrite app_nil_r.
Qed.

Lemma split_on_join (d : ascii) (xs : list str) :
  xs <> [] -> Forall (fun x => ~ In d x) xs ->
  split_on d (join d xs) = xs.
Proof.
  induction xs as [|x rest IH]; intros Hne Hall; [contradiction|].
  inversion Hall as [|? ? Hx Hrest]; subst.
  destruct rest as [|y rest].
  - cbn [join]. now apply split_on_field.
  - change (join d (x :: y :: rest)) with (x ++ d :: join d (y :: rest)).
    rewrite split_on_app_field by assumption.
    change (split_on d (d :: join d (y :: rest)))
      with (if Ascii.eqb d d then [] :: split_on d (join d (y :: rest))
            else match split_on d (join d (y :: rest)) with
                 | x0 :: r => (d :: x0) :: r
                 | [] => [[d]]
                 end).
    rewrite Ascii.eqb_refl.
    rewrite IH by (discriminate || assumption).
    now rewrite app_nil_r.
Qed.

(** Every character of a field is a character of the string. *)
Lemma split_on_Forall (P : ascii -> Prop) (d : ascii) (s : str) :
  Forall P s -> Forall (Forall P) (split_on d s).
Proof.
  induction s as [|c s IH]; intros H; cbn [split_on].
  - repeat constructor.
  - inversion H as [|? ? Hc Hs]; subst. specialize (IH Hs).
    destruct (Ascii.eqb c d).
    + constructor; [constructor | exact IH].
    + destruct (split_on d s) as [|x r].
      * repeat constructor. exact Hc.
      * inversion IH; subst. constructor; [now constructor | assumption].
Qed.

(** ** The constructor of a sequence set *)

Lemma minmax_fold (l : list str) (mn mx mn' mx' : Z) :
  mn <= mx -> fold_left minmax_step l (mn, mx) = (mn', mx') ->
  mn' <= mn /\ mx <= mx'
  /\ Forall (fun c => mn' <= len c <= mx') l
  /\ (mn' = mn \/ Exists (fun c => len c = mn') l)
  /\ (mx' = mx \/ Exists (fun c => len c = mx') l).
Proof.
  revert mn mx. induction l as [|c l IH]; intros mn mx Hle E.
  - cbn in E. injection E as <- <-. repeat split; try lia; auto.
  - cbn [fold_left] in E. unfold minmax_step at 2 in E.
    destruct (Z.ltb_spec (len c) mn) as [H1|H1];
      [|destruct (Z.gtb_spec (len c) mx) as [H2|H2]];
      apply IH in E; try lia;
      destruct E as (Ha & Hb & Hall & Hmin & Hmax);
      (split; [lia|]); (split; [lia|]);
      (split; [constructor; [lia | exact Hall]|]);
      split.
    + destruct Hmin as [->|Hex]; [right; now left | right; now right].
    + destruct Hmax as [->|Hex]; [now left | right; now right].
    + destruct Hmin as [->|Hex]; [now left | right; now right].
    + destruct Hmax as [->|Hex]; [right; now left | right; now right].
    + destruct Hmin as [->|Hex]; [now left | right; now right].
    + destruct Hmax as [->|Hex]; [now left | right; now right].
Qed.

Lemma minmax_all (t0 : str) (rest : list str) (mn mx : Z) :
  fold_left minmax_step rest (len t0, len t0) = (mn, mx) ->
  Forall (fun c => mn <= len c <= mx) (t0 :: rest)
  /\ Exists (fun c => len c = mn) (t0 :: rest)
  /\ Exists (fun c => len c = mx) (t0 :: rest).
Proof.
  intros E. apply minmax_fold in E; [|lia].
  destruct E as (Ha & Hb & Hall & Hmin & Hmax).
  split; [constructor; [lia | exact Hall]|]. split.
  - destruct Hmin as [->|Hex]; [now left | now right].
  - destruct Hmax as [->|Hex]; [now left | now right].
Qed.

(** The extremes are determined by the lengths. *)
Lemma extremes_unique (l : list Z) (mn mx mn' mx' : Z) :
  Forall (fun n => mn <= n <= mx) l -> Exists (fun n => n = mn) l ->
  Exists (fun n => n = mx) l ->
  Forall (fun n => mn' <= n <= mx') l -> Exists (fun n => n = mn') l ->
  Exists (fun n => n = mx') l ->
  mn = mn' /\ mx = mx'.
Proof.
  rewrite !Forall_forall, !Exists_exists.
  intros Hall (a & Ha & ->) (b & Hb & ->) Hall' (a' & Ha' & ->)
         (b' & Hb' & ->).
  pose proof (Hall _ Ha'). pose proof (Hall _ Hb').
  pose proof (Hall' _ Ha). pose proof (Hall' _ Hb). lia.
Qed.

Lemma check_all_ACGT_spec (t : list str) :
  (forallb isAllACGT t = true /\ check_all_ACGT t = Ok tt)
  \/ (forallb isAllACGT t = false
      /\ exists msg, check_all_ACGT t = Err (runtime_error msg)).
Proof.
  induction t as [|c t IH]; cbn [forallb check_all_ACGT]; [now left|].
  destruct (isAllACGT c); cbn [negb andb]; [exact IH|].
  right. split; [reflexivity|]. eauto.
Qed.

Lemma strcpy_no_NUL (s : str) : Forall (fun c => c <> zero) s -> strcpy s = s.
Proof.
  induction 1 as [|c s Hc _ IH]; cbn [strcpy]; [reflexivity|].
  destruct (Ascii.eqb_spec c zero) as [->|_]; [contradiction|].
  now rewrite IH.
Qed.

Lemma bases_no_NUL (s : str) :
  forallb is_base s = true -> Forall (fun c => c <> zero) s.
Proof.
  rewrite forallb_forall, Forall_forall. intros H c Hc.
  apply (base_facts c (H c Hc)).
Qed.

Lemma isAllACGT_upper (s : str) :
  Forall (fun c => toupper c = c) s -> isAllACGT s = forallb is_base s.
Proof.
  unfold isAllACGT. induction 1 as [|c s Hc _ IH]; cbn [forallb];
    [reflexivity|].
  now rewrite IH, (isACGT_upper c Hc).
Qed.

Lemma upper_candidates (spec : str) :
  Forall (Forall (fun c => toupper c = c)) (spec_candidates spec).
Proof.
  unfold spec_candidates. apply split_on_Forall.
  assert (H : Forall (fun c => toupper c = c) (map toupper spec)).
  { apply Forall_forall. intros c Hc. apply in_map_iff in Hc.
    destruct Hc as (c' & <- & _). apply toupper_idempotent. }
  destruct (spec_absent spec); [|exact H].
  destruct (map toupper spec); [constructor|]. cbn [tl].
  now inversion H.
Qed.

Lemma Target_new_unfold (targetString : str) :
  Target_new targetString
  = (let t := spec_candidates targetString in
     t0 <- array_get t 0 ;;
     let '(mn, mx) := fold_left minmax_step (tl t) (len t0, len t0) in
     if mn <? MIN_TARGET_LENGTH
     then Err (runtime_error
                 (what_of (lit "invalid sequence length in " ++ targetString)))
     else
       _ <- check_all_ACGT t ;;
       Ok (mkTarget (negb (spec_absent targetString)) mn mx
                    (Z.of_nat (length t)) (map len t) (map strcpy t))).
Proof.
  unfold Target_new, spec_candidates, spec_absent, toupperSequence.
  destruct (map toupper targetString) as [|c s].
  - now rewrite getDelimitedStrings_split.
  - destruct (Ascii.eqb c "-"); now rewrite getDelimitedStrings_split.
Qed.

(** The constructor fails, with a [runtime_error], exactly on a bad
    candidate; otherwise it builds a well-formed set with the polarity
    and the candidates of the specification string. *)
Lemma Target_new_spec (targetString : str) :
  (bad_spec targetString = true
   /\ exists msg, Target_new targetString = Err (runtime_error msg))
  \/ (bad_spec targetString = false
      /\ exists t, Target_new targetString = Ok t
                   /\ wf_Target t
                   /\ want t = negb (spec_absent targetString)
                   /\ seq t = spec_candidates targetString).
Proof.
  rewrite Target_new_unfold. cbv zeta. unfold bad_spec.
  pose proof (upper_candidates targetString) as Hup.
  pose proof (split_on_nonempty "|"
                (if spec_absent targetString
                 then tl (map toupper targetString)
                 else map toupper targetString)) as Hne.
  fold (spec_candidates targetString) in Hne.
  destruct (spec_candidates targetString) as [|t0 rest] eqn:Ecands;
    [contradiction|].
  change (array_get (t0 :: rest) 0) with (Ok (A:=str) t0). cbn [bind tl].
  destruct (fold_left minmax_step rest (len t0, len t0)) as [mn mx] eqn:Efold.
  destruct (minmax_all _ _ _ _ Efold) as (Hall & Hmin & Hmax).
  destruct (Z.ltb_spec mn MIN_TARGET_LENGTH) as [Hshort|Hlong].
  - (* a candidate is too short *)
    left. split; [|eauto]. apply existsb_exists.
    apply Exists_exists in Hmin. destruct Hmin as (c & Hin & Hc).
    exists c. split; [exact Hin|]. unfold bad_candidate.
    apply orb_true_iff. left. apply Z.ltb_lt. lia.
  - assert (Hacgt : forallb isAllACGT (t0 :: rest)
                    = forallb (forallb is_base) (t0 :: rest)).
    { clear - Hup. induction Hup as [|c l Hc _ IH]; [reflexivity|].
      cbn [forallb]. now rewrite IH, (isAllACGT_upper c Hc). }
    destruct (check_all_ACGT_spec (t0 :: rest)) as [[Hok ->] | [Hbad [msg ->]]].
    + (* every candidate passes *)
      right. rewrite Hacgt in Hok.
      assert (Hgood : forall c, In c (t0 :: rest) ->
                                forallb is_base c = true)
        by (now apply forallb_forall).
      split.
      * apply not_true_is_false. intros Hex. apply existsb_exists in Hex.
        destruct Hex as (c & Hin & Hc). unfold bad_candidate in Hc.
        apply orb_true_iff in Hc. destruct Hc as [Hc|Hc].
        -- apply Z.ltb_lt in Hc. rewrite Forall_forall in Hall.
           specialize (Hall c Hin). lia.
        -- rewrite (Hgood c Hin) in Hc. discriminate Hc.
      * cbn [bind]. eexists. split; [reflexivity|].
        assert (Hcpy : map strcpy (t0 :: rest) = t0 :: rest).
        { rewrite <- (map_id (t0 :: rest)) at 2. apply map_ext_in.
          intros c Hin. apply strcpy_no_NUL, bases_no_NUL, Hgood, Hin. }
        rewrite Hcpy. split; [|split; reflexivity].
        unfold wf_Target. cbn [seqcount seqlen seq minseqlen maxseqlen].
        split; [reflexivity|]. split; [reflexivity|].
        split; [discriminate|]. split; [|split; assumption].
        apply Forall_forall. intros c Hin. rewrite Forall_forall in Hall.
        specialize (Hall c Hin). split; [lia|]. split; [lia|].
        exact (Hgood c Hin).
    + (* a candidate holds another character *)
      left. cbn [bind]. split; [|eauto]. rewrite Hacgt in Hbad.
      apply existsb_exists.
      assert (Hex : exists c, In c (t0 :: rest) /\ forallb is_base c = false).
      { clear - Hbad. induction (t0 :: rest) as [|c l IH];
          [discriminate Hbad|].
        cbn [forallb] in Hbad. apply andb_false_iff in Hbad.
        destruct Hbad as [H|H].
        - exists c. split; [now left | exact H].
        - destruct (IH H) as (c' & Hin & Hc'). exists c'.
          split; [now right | exact Hc']. }
      destruct Hex as (c & Hin & Hc). exists c. split; [exact Hin|].
      unfold bad_candidate. rewrite Hc. apply orb_true_r.
Qed.

Lemma Target_new_wf (targetString : str) (t : Target) :
  Target_new targetString = Ok t -> wf_Target t.
Proof.
  intros E.
  destruct (Target_new_spec targetString)
    as [(_ & msg & E') | (_ & t' & E' & Hwf & _)];
    rewrite E' in E; [discriminate E|]. now injection E as <-.
Qed.

(** ** Reverse complement *)

Lemma firstn_S_nth (s : str) (i : nat) :
  (i < length s)%nat -> firstn (S i) s = firstn i s ++ [nth i s zero].
Proof.
  revert i. induction s as [|c s IH]; intros i Hi; cbn [length] in Hi;
    [lia|].
  destruct i as [|i]; [reflexivity|].
  cbn [firstn nth app]. now rewrite <- IH by lia.
Qed.

Lemma reverseSequence_loop_rev (sequence : str) (n : nat) (acc : str) :
  (n <= length sequence)%nat ->
  reverseSequence_loop sequence n acc = acc ++ rev (firstn n sequence).
Proof.
  revert acc. induction n as [|i IH]; intros acc Hn.
  - cbn. now rewrite app_nil_r.
  - cbn [reverseSequence_loop]. rewrite IH by lia.
    rewrite (firstn_S_nth sequence i) by lia.
    rewrite rev_app_distr. cbn [rev app]. now rewrite <- app_assoc.
Qed.

Lemma reverseSequence_rev (sequence : str) :
  reverseSequence sequence = rev sequence.
Proof.
  unfold reverseSequence. rewrite reverseSequence_loop_rev by lia.
  now rewrite firstn_all.
Qed.

Lemma invertSequence_involutive (s : str) :
  invertSequence (invertSequence s) = s.
Proof.
  unfold invertSequence. rewrite map_map. rewrite <- (map_id s) at 2.
  apply map_ext. exact invert_char_involutive.
Qed.

(** Reverse-then-complement, twice, is the identity on every string. *)
Lemma reverse_invert_twice (s : str) :
  invertSequence (reverseSequence (invertSequence (reverseSequence s))) = s.
Proof.
  rewrite !reverseSequence_rev. unfold invertSequence.
  rewrite <- map_rev, rev_involutive, map_map. rewrite <- (map_id s) at 2.
  apply map_ext. exact invert_char_involutive.
Qed.

(** On a candidate of bases the program's transform is the
    specification's. *)
Lemma invert_reverse_bases (c : str) :
  forallb is_base c = true ->
  invertSequence (reverseSequence c) = revcomp_seq c.
Proof.
  intros H. rewrite reverseSequence_rev. unfold invertSequence, revcomp_seq.
  apply map_ext_in. intros x Hx. apply in_rev in Hx.
  rewrite forallb_forall in H. apply (base_facts x (H x Hx)).
Qed.

Lemma revcomp_seq_bases (c : str) :
  forallb is_base c = true -> forallb is_base (revcomp_seq c) = true.
Proof.
  rewrite !forallb_forall. intros H x Hx. unfold revcomp_seq in Hx.
  apply in_map_iff in Hx. destruct Hx as (y & <- & Hy). apply in_rev in Hy.
  apply (base_facts y (H y Hy)).
Qed.

Lemma revcomp_seq_len (c : str) : len (revcomp_seq c) = len c.
Proof. unfold len, revcomp_seq. now rewrite length_map, length_rev. Qed.

Lemma complement_involutive_base (x : ascii) :
  is_base x = true -> complement (complement x) = x.
Proof.
  intros H. apply is_base_cases in H.
  destruct H as [->|[->|[->| ->]]]; reflexivity.
Qed.

Lemma revcomp_seq_involutive (c : str) :
  forallb is_base c = true -> revcomp_seq (revcomp_seq c) = c.
Proof.
  intros H. unfold revcomp_seq. rewrite <- map_rev, rev_involutive, map_map.
  rewrite <- (map_id c) at 2. apply map_ext_in. intros x Hx.
  rewrite forallb_forall in H. exact (complement_involutive_base x (H x Hx)).
Qed.

(** The fields after the first, each behind a delimiter. *)
Lemma join_cons (d : ascii) (x : str) (rest : list str) :
  join d (x :: rest) = x ++ concat (map (fun y => d :: y) rest).
Proof.
  revert x. induction rest as [|y rest IH]; intros x.
  - cbn. now rewrite app_nil_r.
  - change (join d (x :: y :: rest)) with (x ++ d :: join d (y :: rest)).
    rewrite IH. reflexivity.
Qed.

(** The loop of [reverseComplement] from a candidate after the first. *)
Lemma reverseComplement_loop_later (t : Target) (n i : nat) (revcomp : str) :
  (0 < i)%nat -> (i + n <= length (seq t))%nat ->
  reverseComplement_loop t n (Z.of_nat i) revcomp
  = Ok (revcomp
        ++ concat (map (fun y => "|"%char
                                 :: invertSequence (reverseSequence y))
                       (firstn n (skipn i (seq t))))).
Proof.
  revert i revcomp. induction n as [|n IH]; intros i revcomp Hi Hn.
  - cbn. now rewrite app_nil_r.
  - destruct (@nth_error_in_range _ (seq t) i ltac:(lia)) as [c Hc].
    cbn [reverseComplement_loop]. rewrite (array_get_Ok _ _ _ Hc).
    cbn [bind]. destruct (Z.gtb_spec (Z.of_nat i) 0) as [_|Hle]; [|lia].
    replace (Z.of_nat i + 1) with (Z.of_nat (S i)) by lia.
    rewrite IH by lia. rewrite (skipn_nth_error _ _ _ Hc).
    cbn [firstn map concat]. now rewrite <- app_assoc.
Qed.

Lemma reverseComplement_spec (t : Target) :
  arrays_ok t -> seq t <> [] ->
  reverseComplement t
  = Ok ((if want t then [] else ["-"%char])
        ++ join "|" (map (fun y => invertSequence (reverseSequence y))
                         (seq t))).
Proof.
  intros [Hc _] Hne. unfold reverseComplement. rewrite Hc, Nat2Z.id.
  destruct (seq t) as [|c0 rest] eqn:Eseq; [contradiction|].
  cbn [length reverseComplement_loop]. rewrite Eseq.
  change (array_get (c0 :: rest) 0) with (Ok (A:=str) c0). cbn [bind].
  change (0 >? 0) with false. cbv iota.
  change (0 + 1) with (Z.of_nat 1).
  pose proof (reverseComplement_loop_later t (length rest) 1) as H.
  rewrite Eseq in H. rewrite H by (cbn [length]; lia).
  cbn [skipn map]. rewrite firstn_all, join_cons, map_map.
  now rewrite <- app_assoc.
Qed.

(** ** The mirror of a sequence set *)

Lemma Forall_join (P : ascii -> Prop) (d : ascii) (xs : list str) :
  P d -> Forall (Forall P) xs -> Forall P (join d xs).
Proof.
  intros Hd. induction 1 as [|x rest Hx Hrest IH]; [constructor|].
  rewrite join_cons. apply Forall_app. split; [exact Hx|].
  clear IH Hx. induction Hrest as [|y rest Hy _ IH]; [constructor|].
  cbn [map concat]. apply Forall_app. split; [now constructor | exact IH].
Qed.

Section Mirror.
Variable t : Target.
Hypothesis Hwf : wf_Target t.

Local Abbreviation cands' := (map revcomp_seq (seq t)).

Lemma mirror_candidates_good :
  Forall (fun c => MIN_TARGET_LENGTH <= len c
                   /\ minseqlen t <= len c <= maxseqlen t
                   /\ forallb is_base c = true) cands'.
Proof.
  destruct Hwf as (_ & _ & _ & Hall & _).
  apply Forall_map. eapply Forall_impl; [|exact Hall].
  cbv beta. intros c (H8 & Hmm & Hb). rewrite revcomp_seq_len.
  split; [exact H8|]. split; [exact Hmm|]. now apply revcomp_seq_bases.
Qed.

Lemma mirror_program_candidates :
  map (fun y => invertSequence (reverseSequence y)) (seq t) = cands'.
Proof.
  destruct Hwf as (_ & _ & _ & Hall & _).
  apply map_ext_in. intros c Hc. apply invert_reverse_bases.
  rewrite Forall_forall in Hall. apply (Hall c Hc).
Qed.

Lemma mirror_string_upper :
  Forall (fun c => toupper c = c) (join "|" cands').
Proof.
  apply Forall_join; [reflexivity|].
  eapply Forall_impl; [|exact mirror_candidates_good].
  cbv beta. intros c (_ & _ & Hb). rewrite forallb_forall in Hb.
  apply Forall_forall. intros x Hx. apply (base_facts x (Hb x Hx)).
Qed.

Lemma mirror_string_first :
  exists x rest, join "|" cands' = x :: rest /\ Ascii.eqb x "-" = false.
Proof.
  pose proof mirror_candidates_good as Hgood.
  destruct Hwf as (_ & _ & Hne & _).
  destruct (seq t) as [|c0 l]; [contradiction|]. cbn [map] in *.
  inversion Hgood as [|? ? (H8 & _ & Hb) _]; subst.
  rewrite join_cons.
  destruct (revcomp_seq c0) as [|x c0'].
  - unfold MIN_TARGET_LENGTH in H8. cbn in H8. lia.
  - do 2 eexists. split; [reflexivity|]. cbn [forallb] in Hb.
    apply andb_true_iff in Hb. destruct Hb as [Hx _].
    apply Ascii.eqb_neq. apply (base_facts x Hx).
Qed.

Lemma mirror_string_split : split_on "|" (join "|" cands') = cands'.
Proof.
  apply split_on_join.
  - destruct Hwf as (_ & _ & Hne & _).
    destruct (seq t); [contradiction | discriminate].
  - eapply Forall_impl; [|exact mirror_candidates_good].
    cbv beta. intros c (_ & _ & Hb) Hin. rewrite forallb_forall in Hb.
    destruct (base_facts _ (Hb _ Hin)) as (_ & _ & _ & Hbar & _).
    now apply Hbar.
Qed.

(** The string [reverseComplement] returns parses back to the mirror of
    the set. *)
Lemma Target_new_mirror :
  exists s, reverseComplement t = Ok s /\ Target_new s = Ok (mirror_set t).
Proof.
  pose proof Hwf as (Hcount & Hlens & Hne & Hall & Hmin & Hmax).
  rewrite (reverseComplement_spec t (wf_arrays_ok t Hwf) Hne).
  rewrite mirror_program_candidates. eexists. split; [reflexivity|].
  set (s := (if want t then [] else ["-"%char]) ++ join "|" cands').
  destruct mirror_string_first as (x & rest & Ejoin & Ex).
  assert (Hup : map toupper s = s).
  { rewrite <- (map_id s) at 2. apply map_ext_in. intros c Hc. subst s.
    apply in_app_or in Hc. destruct Hc as [Hc|Hc].
    - destruct (want t); [contradiction|]. destruct Hc as [<-|[]].
      reflexivity.
    - pose proof mirror_string_upper as Hu. rewrite Forall_forall in Hu.
      exact (Hu c Hc). }
  assert (Habs : spec_absent s = negb (want t)).
  { unfold spec_absent. rewrite Hup. subst s.
    destruct (want t); cbn [app negb]; [|reflexivity].
    now rewrite Ejoin. }
  assert (Hcands : spec_candidates s = cands').
  { unfold spec_candidates. rewrite Habs, Hup. subst s.
    destruct (want t); cbn [app negb tl]; apply mirror_string_split. }
  destruct (Target_new_spec s)
    as [(Hbad & _) | (_ & t' & E' & Hwf' & Hwant' & Hseq')].
  - exfalso. unfold bad_spec in Hbad. rewrite Hcands in Hbad.
    apply existsb_exists in Hbad. destruct Hbad as (c & Hin & Hc).
    pose proof mirror_candidates_good as Hgood.
    rewrite Forall_forall in Hgood. destruct (Hgood c Hin) as (H8 & _ & Hb).
    unfold bad_candidate in Hc. rewrite Hb in Hc. cbn [negb] in Hc.
    rewrite orb_false_r in Hc. apply Z.ltb_lt in Hc. lia.
  - rewrite E'. f_equal.
    destruct Hwf' as (Hcount' & Hlens' & _ & Hall' & Hmin' & Hmax').
    rewrite Habs, negb_involutive in Hwant'. rewrite Hcands in Hseq'.
    assert (Hl : map len cands' = map len (seq t)).
    { rewrite map_map. apply map_ext. exact revcomp_seq_len. }
    destruct (extremes_unique (map len (seq t))
                (minseqlen t') (maxseqlen t') (minseqlen t) (maxseqlen t))
      as [Emin Emax].
    + rewrite <- Hl, <- Hseq'. apply Forall_map.
      eapply Forall_impl; [|exact Hall']. cbv beta. tauto.
    + rewrite <- Hl, <- Hseq'. now apply Exists_map.
    + rewrite <- Hl, <- Hseq'. now apply Exists_map.
    + apply Forall_map. eapply Forall_impl; [|exact Hall]. cbv beta. tauto.
    + now apply Exists_map.
    + now apply Exists_map.
    + destruct t' as [w mn mx cnt lens sq]. unfold mirror_set.
      cbn [want minseqlen maxseqlen seqcount seqlen seq] in *.
      subst w mn mx sq. f_equal.
      * rewrite Hcount', Hcount. now rewrite length_map.
      * now rewrite Hlens', Hl, Hlens.
Qed.

Lemma mirror_set_wf : wf_Target (mirror_set t).
Proof.
  destruct Target_new_mirror as (s & _ & E). exact (Target_new_wf s _ E).
Qed.

End Mirror.

Lemma mirror_set_involutive (t : Target) :
  wf_Target t -> mirror_set (mirror_set t) = t.
Proof.
  intros (_ & _ & _ & Hall & _). destruct t as [w mn mx cnt lens sq].
  unfold mirror_set. cbn [want minseqlen maxseqlen seqcount seqlen seq] in *.
  f_equal. rewrite map_map. rewrite <- (map_id sq) at 2.
  apply map_ext_in. intros c Hc. apply revcomp_seq_involutive.
  rewrite Forall_forall in Hall. apply (Hall c Hc).
Qed.

(** ** The constructor of a pair and the catalog *)

Lemma TargetPair_new_spec (lbl l r : str) :
  let bad := (len lbl =? 0) || bad_spec l || bad_spec r
             || (spec_absent l && spec_absent r) in
  (bad = true
   /\ exists msg, TargetPair_new lbl l r = Err (runtime_error msg))
  \/ (bad = false
      /\ exists tp, TargetPair_new lbl l r = Ok tp
                    /\ wf_TargetPair tp
                    /\ label tp = lbl
                    /\ want (left tp) = negb (spec_absent l)
                    /\ seq (left tp) = spec_candidates l
                    /\ want (right tp) = negb (spec_absent r)
                    /\ seq (right tp) = spec_candidates r).
Proof.
  cbv zeta. unfold TargetPair_new.
  destruct (Target_new_spec l)
    as [(-> & msg & ->) | (-> & tl & -> & Hwl & Hwantl & Hseql)].
  { left. cbn [bind]. rewrite orb_true_r. cbn [orb]. eauto. }
  destruct (Target_new_spec r)
    as [(-> & msg & ->) | (-> & tr & -> & Hwr & Hwantr & Hseqr)].
  { left. cbn [bind]. rewrite !orb_true_r. cbn [orb]. eauto. }
  cbn [bind]. rewrite !orb_false_r.
  destruct (Z.eqb_spec (len lbl) 0) as [E0|N0]; cbn [orb].
  { left. eauto. }
  rewrite Hwantl, Hwantr, !negb_involutive.
  destruct (spec_absent l && spec_absent r) eqn:Eabs.
  { left. eauto. }
  right. split; [reflexivity|]. eexists. split; [reflexivity|].
  split.
  - split; [exact Hwl|]. split; [exact Hwr|].
    split; [intros E; cbn [label] in E; subst lbl; now apply N0|].
    change (want tl = true \/ want tr = true).
    rewrite Hwantl, Hwantr. apply andb_false_iff in Eabs.
    destruct Eabs as [->| ->]; [now left | now right].
  - split; [reflexivity|]. split; [exact Hwantl|]. split; [exact Hseql|].
    split; [exact Hwantr | exact Hseqr].
Qed.

Lemma createReverseComplement_mirror (tp : TargetPair) :
  wf_TargetPair tp -> createReverseComplement tp = Ok (mirror_pair tp).
Proof.
  intros (Hl & Hr & Hlbl & Hwant). unfold createReverseComplement.
  destruct (Target_new_mirror (right tp) Hr) as (s1 & -> & E1).
  destruct (Target_new_mirror (left tp) Hl) as (s2 & -> & E2).
  cbn [bind]. unfold TargetPair_new. rewrite E1, E2. cbn [bind].
  destruct (Z.eqb_spec (len (label tp)) 0) as [E0|_].
  { exfalso. apply Hlbl. unfold len in E0.
    destruct (label tp); [reflexivity | discriminate E0]. }
  cbn [mirror_set want].
  destruct Hwant as [-> | ->]; cbn [negb andb];
    rewrite ?andb_false_r; reflexivity.
Qed.

Lemma mirror_pair_wf (tp : TargetPair) :
  wf_TargetPair tp -> wf_TargetPair (mirror_pair tp).
Proof.
  intros (Hl & Hr & Hlbl & Hwant). unfold mirror_pair.
  split; [now apply mirror_set_wf|]. split; [now apply mirror_set_wf|].
  split; [exact Hlbl|]. cbn [left right mirror_set want]. tauto.
Qed.

(** One input line: a malformed line is a [runtime_error]; any other
    line appends the pair it defines and the mirror of that pair. *)
Lemma readTargetPairs_step_spec (line : str) (targetPair : list TargetPair) :
  (malformed line = true
   /\ exists msg,
       readTargetPairs_step line targetPair = Err (runtime_error msg))
  \/ (malformed line = false
      /\ exists tp, wf_TargetPair tp /\ defines line tp
                    /\ readTargetPairs_step line targetPair
                       = Ok (targetPair ++ [tp; mirror_pair tp])).
Proof.
  unfold readTargetPairs_step, malformed, defines.
  rewrite getDelimitedStrings_split.
  destruct (split_on tab line) as [|c0 [|c1 [|c2 [|c3 cols]]]];
    try solve [left; split; [reflexivity|]; cbn; eauto].
  - change (negb (Z.of_nat (length [c0; c1; c2]) =? 3)) with false.
    cbv iota.
    change (array_get [c0; c1; c2] 0) with (Ok (A:=str) c0).
    change (array_get [c0; c1; c2] 1) with (Ok (A:=str) c1).
    change (array_get [c0; c1; c2] 2) with (Ok (A:=str) c2).
    cbn [bind].
    destruct (TargetPair_new_spec c0 c1 c2)
      as [(-> & msg & ->) | (-> & tp & -> & Hwf & Hlbl & Hrest)];
      cbv zeta; cbn [bind].
    + left. eauto.
    + right. split; [reflexivity|]. exists tp. split; [exact Hwf|].
      split; [exists c0, c1, c2; split; [reflexivity | now split]|].
      rewrite (createReverseComplement_mirror tp Hwf). cbn [bind].
      now rewrite <- app_assoc.
  - left. split; [reflexivity|].
    destruct (negb (Z.of_nat (length (c0 :: c1 :: c2 :: c3 :: cols)) =? 3))
      eqn:E; [eauto|].
    apply negb_false_iff, Z.eqb_eq in E. cbn [length] in E. lia.
Qed.

Lemma readTargetPairs_loop_spec (lines : list str)
      (targetPair : list TargetPair) :
  (existsb malformed lines = true
   /\ exists msg,
       readTargetPairs_loop lines targetPair = Err (runtime_error msg))
  \/ (existsb malformed lines = false
      /\ exists tps,
          Forall2 defines lines tps /\ Forall wf_TargetPair tps
          /\ readTargetPairs_loop lines targetPair
             = Ok (targetPair
                   ++ flat_map (fun tp => [tp; mirror_pair tp]) tps)).
Proof.
  revert targetPair. induction lines as [|line lines IH]; intros targetPair.
  - right. split; [reflexivity|]. exists []. cbn.
    rewrite app_nil_r. repeat constructor.
  - cbn [existsb readTargetPairs_loop].
    destruct (readTargetPairs_step_spec line targetPair)
      as [(-> & msg & ->) | (-> & tp & Hwf & Hdef & ->)]; cbn [orb bind].
    + left. eauto.
    + destruct (IH (targetPair ++ [tp; mirror_pair tp]))
        as [(-> & msg & ->) | (-> & tps & Hdefs & Hwfs & ->)].
      * left. eauto.
      * right. split; [reflexivity|]. exists (tp :: tps).
        split; [now constructor|]. split; [now constructor|].
        cbn [flat_map]. now rewrite <- app_assoc.
Qed.

Lemma wf_survivor (tp : TargetPair) : wf_TargetPair tp -> survivor tp.
Proof.
  intros ((_ & _ & _ & Hl & _) & (_ & _ & _ & Hr & _) & _ & Hwant).
  split; [exact Hwant|].
  split; (eapply Forall_impl; [|eassumption]); cbv beta; tauto.
Qed.

(** C5.  Every line that is not malformed appends exactly two entries
    to the catalog: the pair it defines and that pair's mirror, which
    [createReverseComplement] returns; and whenever a line is accepted
    these are the two entries appended.  The mirror has the same label;
    its left side is the mirror of the original's right side and its
    right side the mirror of the original's left side; a mirrored set
    keeps polarity and candidate order, each candidate reversed and
    complemented (A with T, C with G).  For every non-empty input
    without a malformed line [readTargetPairs] returns the catalog that
    holds these two entries for every line, in line order; and every
    catalog it returns is of this form. *)
Theorem catalog_gains_pair_and_mirror :
  (forall (line : str) (cat : list TargetPair),
      malformed line = false ->
      exists tp, defines line tp /\ wf_TargetPair tp
                 /\ createReverseComplement tp = Ok (mirror_pair tp)
                 /\ readTargetPairs_step line cat
                    = Ok (cat ++ [tp; mirror_pair tp]))
  /\ (forall (line : str) (cat cat' : list TargetPair),
         readTargetPairs_step line cat = Ok cat' ->
         exists tp, defines line tp /\ wf_TargetPair tp
                    /\ createReverseComplement tp = Ok (mirror_pair tp)
                    /\ cat' = cat ++ [tp; mirror_pair tp])
  /\ (forall lines : list str,
         lines <> [] -> existsb malformed lines = false ->
         exists tps,
           Forall2 defines lines tps /\ Forall wf_TargetPair tps
           /\ readTargetPairs lines
              = Ok (flat_map (fun tp => [tp; mirror_pair tp]) tps))
  /\ (forall (lines : list str) (cat : list TargetPair),
         readTargetPairs lines = Ok cat ->
         exists tps,
           Forall2 defines lines tps
           /\ cat = flat_map (fun tp => [tp; mirror_pair tp]) tps).
Proof.
  split; [|split; [|split]].
  - intros line cat Hgood.
    destruct (readTargetPairs_step_spec line cat)
      as [(Hbad & _) | (_ & tp & Hwf & Hdef & E')];
      [rewrite Hbad in Hgood; discriminate Hgood|].
    exists tp. split; [exact Hdef|]. split; [exact Hwf|].
    split; [now apply createReverseComplement_mirror | exact E'].
  - intros line cat cat' E.
    destruct (readTargetPairs_step_spec line cat)
      as [(_ & msg & E') | (_ & tp & Hwf & Hdef & E')];
      rewrite E' in E; [discriminate E|]. injection E as <-.
    exists tp. split; [exact Hdef|]. split; [exact Hwf|].
    split; [now apply createReverseComplement_mirror | reflexivity].
  - intros lines Hne Hgood. unfold readTargetPairs.
    destruct (readTargetPairs_loop_spec lines [])
      as [(Hbad & _) | (_ & tps & Hdefs & Hwfs & E')];
      [rewrite Hbad in Hgood; discriminate Hgood|].
    exists tps. split; [exact Hdefs|]. split; [exact Hwfs|].
    rewrite E'. cbn [bind app].
    destruct Hdefs as [|line tp lines tps _ _]; [contradiction|].
    reflexivity.
  - intros lines cat E. unfold readTargetPairs in E.
    destruct (readTargetPairs_loop_spec lines [])
      as [(_ & msg & E') | (_ & tps & Hdefs & _ & E')];
      rewrite E' in E; cbn [bind app] in E; [discriminate E|].
    destruct (Z.of_nat _ =? 0); [discriminate E|]. injection E as <-.
    exists tps. split; [exact Hdefs | reflexivity].
Qed.

Lemma catalog_gains_pair_and_mirror_witness :
  mirror_pair KMT <> KMT
  /\ (exists tp,
         defines KMT_line tp /\ wf_TargetPair tp
         /\ createReverseComplement tp = Ok (mirror_pair tp)
         /\ [KMT; mirror_pair KMT] = [] ++ [tp; mirror_pair tp])
  /\ (exists tps,
         Forall2 defines [KMT_line; FUS_line] tps
         /\ Forall wf_TargetPair tps
         /\ readTargetPairs [KMT_line; FUS_line]
            = Ok (flat_map (fun tp => [tp; mirror_pair tp]) tps))
  /\ (exists tps,
         Forall2 defines [KMT_line; FUS_line] tps
         /\ [KMT; mirror_pair KMT; FUS; mirror_pair FUS]
            = flat_map (fun tp => [tp; mirror_pair tp]) tps).
Proof.
  split; [intros H; vm_compute in H; discriminate H|].
  split; [|split].
  - apply (proj1 (proj2 catalog_gains_pair_and_mirror) KMT_line []).
    vm_compute. reflexivity.
  - apply (proj1 (proj2 (proj2 catalog_gains_pair_and_mirror))
                 [KMT_line; FUS_line]).
    + discriminate.
    + vm_compute. reflexivity.
  - apply (proj2 (proj2 (proj2 catalog_gains_pair_and_mirror))
                 [KMT_line; FUS_line]).
    vm_compute. reflexivity.
Defined.

(** C6.  Reverse-then-complement ([reverseSequence] followed by
    [invertSequence]) applied twice reproduces every string, so every
    candidate; and for a validly constructed sequence set the mirror of
    its mirror, each built by [reverseComplement] and the constructor,
    has the original polarity and candidates (it is the original set). *)
Theorem reverse_complement_involution :
  (forall s : str,
      invertSequence (reverseSequence (invertSequence (reverseSequence s)))
      = s)
  /\ (forall t : Target,
         wf_Target t ->
         exists s1 t1 s2 t2,
           reverseComplement t = Ok s1 /\ Target_new s1 = Ok t1
           /\ reverseComplement t1 = Ok s2 /\ Target_new s2 = Ok t2
           /\ want t2 = want t /\ seq t2 = seq t /\ t2 = t).
Proof.
  split; [exact reverse_invert_twice|]. intros t Hwf.
  destruct (Target_new_mirror t Hwf) as (s1 & E1 & E1').
  destruct (Target_new_mirror (mirror_set t) (mirror_set_wf t Hwf))
    as (s2 & E2 & E2').
  rewrite (mirror_set_involutive t Hwf) in E2'.
  exists s1, (mirror_set t), s2, t. repeat split; assumption.
Qed.

Lemma reverse_complement_involution_witness :
  exists s1 t1 s2 t2,
    reverseComplement one_candidate = Ok s1 /\ Target_new s1 = Ok t1
    /\ reverseComplement t1 = Ok s2 /\ Target_new s2 = Ok t2
    /\ want t2 = want one_candidate /\ seq t2 = seq one_candidate
    /\ t2 = one_candidate.
Proof.
  exact (proj2 reverse_complement_involution one_candidate one_candidate_wf).
Defined.

(** C7.  Reading a target-definition line fails, with a
    [runtime_error], exactly when the line is malformed (not three
    tab-separated columns, an empty label, a candidate shorter than 8 or
    with a character outside A, C, G, T after upper-casing, or both
    sides absent); a malformed line anywhere in the input makes the run
    end in that error with nothing written; and every pair of a catalog
    that was built has a side requiring presence and only candidates of
    length at least 8. *)
Theorem malformed_line_is_fatal :
  (forall (line : str) (cat : list TargetPair),
      (malformed line = true
       <-> exists msg,
            readTargetPairs_step line cat = Err (runtime_error msg))
      /\ (malformed line = false
          <-> exists cat', readTargetPairs_step line cat = Ok cat'))
  /\ (forall (maxsub : Z) (lines : list str) (reads : list (str * str))
             (v0 : locals),
         existsb malformed lines = true ->
         exists msg,
           readBamFile maxsub lines reads v0 = Err (runtime_error msg))
  /\ (forall (lines : list str) (cat : list TargetPair),
         readTargetPairs lines = Ok cat -> Forall survivor cat).
Proof.
  split; [|split].
  - intros line cat.
    destruct (readTargetPairs_step_spec line cat)
      as [(Em & msg & E) | (Em & tp & _ & _ & E)]; rewrite Em, E.
    + split; split; try discriminate; eauto.
      intros [cat' H]. discriminate H.
    + split; split; try discriminate; eauto.
      intros [msg H]. discriminate H.
  - intros maxsub lines reads v0 Hbad. unfold readBamFile, readTargetPairs.
    destruct (readTargetPairs_loop_spec lines [])
      as [(_ & msg & E) | (Eok & _)]; [|rewrite Eok in Hbad; discriminate].
    rewrite E. cbn [bind]. eauto.
  - intros lines cat E. unfold readTargetPairs in E.
    destruct (readTargetPairs_loop_spec lines [])
      as [(_ & msg & E') | (_ & tps & _ & Hwfs & E')];
      rewrite E' in E; cbn [bind app] in E; [discriminate E|].
    destruct (Z.of_nat _ =? 0); [discriminate E|]. injection E as <-.
    clear E'. induction Hwfs as [|tp tps Hwf _ IH]; [constructor|].
    cbn [flat_map app]. constructor; [now apply wf_survivor|].
    constructor; [apply wf_survivor; now apply mirror_pair_wf | exact IH].
Qed.

Lemma malformed_line_is_fatal_witness :
  malformed short_line = true
  /\ exists msg,
      readBamFile 2 [FUS_line; short_line]
                  [(lit "read1", lit "AAAACCCCGGGGTTTT")] some_locals
      = Err (runtime_error msg).
Proof.
  split; [reflexivity|].
  exact (proj1 (proj2 malformed_line_is_fatal) 2 [FUS_line; short_line]
               [(lit "read1", lit "AAAACCCCGGGGTTTT")] some_locals eq_refl).
Defined.

(** * Further properties *)

(** ** The searches *)

(** X1.  For a non-negative left reserve, [findRightmost] returns "not
    found" exactly when no candidate occurs with its start at or after the
    reserve; otherwise it returns the occurrence that starts last, and the
    earliest stored candidate among those that start there. *)
Theorem findRightmost_largest_start (maxsub : Z) (readseq : str) (t : Target)
        (readseqlen leftpad matchStart0 : Z) :
  arrays_ok t -> readseqlen = len readseq -> 0 <= leftpad ->
  (findRightmost maxsub readseq t readseqlen leftpad matchStart0
   = Ok (mkFound false (-1) matchStart0)
   /\ forall j s, ~ qualifies maxsub readseq t leftpad readseqlen j s)
  \/
  (exists (idx : nat) (start : Z),
      findRightmost maxsub readseq t readseqlen leftpad matchStart0
      = Ok (mkFound true (Z.of_nat idx) start)
      /\ qualifies maxsub readseq t leftpad readseqlen idx start
      /\ forall j s, qualifies maxsub readseq t leftpad readseqlen j s ->
           s <= start /\ (s = start -> (idx <= j)%nat)).
Proof.
  intros Harrays Hlen Hpad. now apply findRightmost_correct.
Qed.

Lemma findRightmost_largest_start_witness :
  exists (idx : nat) (start : Z),
    findRightmost 0 (lit "GGAAAAAAAACC") two_overlapping 12 0 0
    = Ok (mkFound true (Z.of_nat idx) start)
    /\ qualifies 0 (lit "GGAAAAAAAACC") two_overlapping 0 12 idx start.
Proof.
  assert (Ha : arrays_ok two_overlapping) by (split; reflexivity).
  destruct (findRightmost_largest_start 0 (lit "GGAAAAAAAACC")
              two_overlapping 12 0 0 Ha eq_refl ltac:(lia))
    as [[E _] | (idx & start & E & Hq & _)].
  - discriminate E.
  - exists idx, start. split; [exact E | exact Hq].
Defined.

Lemma qualifies_widen (maxsub : Z) (readseq : str) (t : Target)
      (lo hi lo' hi' : Z) (j : nat) (s : Z) :
  lo' <= lo -> hi <= hi' ->
  qualifies maxsub readseq t lo hi j s ->
  qualifies maxsub readseq t lo' hi' j s.
Proof.
  intros Hlo Hhi (c & Hc & Ho & H1 & H2). exists c.
  split; [exact Hc|]. split; [exact Ho|]. lia.
Qed.

Lemma qualifies_occ_end (maxsub : Z) (readseq : str) (t : Target)
      (lo hi : Z) (j : nat) (s : Z) :
  qualifies maxsub readseq t lo hi j s ->
  0 <= s /\ lo <= s /\ s <= occ_end t (Z.of_nat j) s
  /\ occ_end t (Z.of_nat j) s <= hi
  /\ occ_end t (Z.of_nat j) s <= len readseq.
Proof.
  intros (c & Hc & (H0 & H1 & _) & H2 & H3).
  unfold occ_end. rewrite (cand_len_nth _ _ _ Hc).
  pose proof (len_nonneg c). lia.
Qed.

(** X2.  The output parameters of a search: when [findLeftmost] or
    [findRightmost] returns false, [matchIndex] is -1 and [matchStart]
    keeps the value it had on entry; when it returns true, [matchIndex] is
    the subscript of a stored candidate and the match lies inside the
    read. *)
Theorem search_output_parameters (maxsub : Z) (readseq : str) (t : Target)
        (readseqlen pad matchStart0 : Z) :
  arrays_ok t -> readseqlen = len readseq -> 0 <= pad ->
  forall r,
    findLeftmost maxsub readseq t readseqlen pad matchStart0 = Ok r
    \/ findRightmost maxsub readseq t readseqlen pad matchStart0 = Ok r ->
    (isFound r = false /\ matchIndex r = -1 /\ matchStart r = matchStart0)
    \/ (isFound r = true /\ 0 <= matchIndex r < seqcount t
        /\ 0 <= matchStart r
        /\ matchStart r + cand_len t (matchIndex r) <= readseqlen).
Proof.
  intros Harrays Hlen Hpad r [E|E].
  - destruct (findLeftmost_correct maxsub readseq t Harrays readseqlen pad
                matchStart0 Hlen Hpad) as [[E' _] | (i & s & E' & Hq & _)];
      rewrite E' in E; injection E as <-; [left; now repeat split|].
    right. cbn [isFound matchIndex matchStart].
    pose proof (qualifies_in_range _ _ _ _ _ _ _ Hq) as Hi.
    pose proof (qualifies_occ_end _ _ _ _ _ _ _ Hq) as Hb.
    unfold occ_end in Hb. destruct Harrays as [Hc _]. rewrite Hc.
    split; [reflexivity|]. split; [lia|]. split; lia.
  - destruct (findRightmost_correct maxsub readseq t Harrays readseqlen pad
                matchStart0 Hlen Hpad) as [[E' _] | (i & s & E' & Hq & _)];
      rewrite E' in E; injection E as <-; [left; now repeat split|].
    right. cbn [isFound matchIndex matchStart].
    pose proof (qualifies_in_range _ _ _ _ _ _ _ Hq) as Hi.
    pose proof (qualifies_occ_end _ _ _ _ _ _ _ Hq) as Hb.
    unfold occ_end in Hb. destruct Harrays as [Hc _]. rewrite Hc.
    split; [reflexivity|]. split; [lia|]. split; lia.
Qed.

Lemma search_output_parameters_witness :
  (isFound (mkFound false (-1) 7) = false
   /\ matchIndex (mkFound false (-1) 7) = -1
   /\ matchStart (mkFound false (-1) 7) = 7)
  \/ (isFound (mkFound false (-1) 7) = true
      /\ 0 <= matchIndex (mkFound false (-1) 7) < seqcount one_candidate
      /\ 0 <= matchStart (mkFound false (-1) 7)
      /\ matchStart (mkFound false (-1) 7)
         + cand_len one_candidate (matchIndex (mkFound false (-1) 7)) <= 5).
Proof.
  apply (search_output_parameters 2 (lit "AAAAC") one_candidate 5 0 7).
  - split; reflexivity.
  - reflexivity.
  - lia.
  - left. reflexivity.
Defined.

(** X3.  The reserve only filters: when [findLeftmost] finds a match
    under a right reserve, it reports the same match under every smaller
    non-negative reserve; likewise [findRightmost] and its left reserve. *)
Theorem smaller_reserve_same_match (maxsub : Z) (readseq : str) (t : Target)
        (pad pad' m m' : Z) (r : found) :
  arrays_ok t -> 0 <= pad' <= pad -> isFound r = true ->
  (findLeftmost maxsub readseq t (len readseq) pad m = Ok r ->
   findLeftmost maxsub readseq t (len readseq) pad' m' = Ok r)
  /\ (findRightmost maxsub readseq t (len readseq) pad m = Ok r ->
      findRightmost maxsub readseq t (len readseq) pad' m' = Ok r).
Proof.
  intros Harrays Hpad Hf. split; intros E.
  - destruct (findLeftmost_correct maxsub readseq t Harrays (len readseq) pad
                m eq_refl ltac:(lia)) as [[E1 _] | (i & s & E1 & Hq & Hmin)];
      rewrite E1 in E; injection E as <-; [discriminate Hf|].
    assert (Hq' : qualifies maxsub readseq t 0 (len readseq - pad') i s)
      by (eapply qualifies_widen; [| |exact Hq]; lia).
    destruct (findLeftmost_correct maxsub readseq t Harrays (len readseq) pad'
                m' eq_refl ltac:(lia))
      as [[_ Hn] | (i' & s' & E2 & Hq2 & Hmin2)];
      [exfalso; exact (Hn _ _ Hq')|].
    rewrite E2. destruct (Hmin2 _ _ Hq') as [Hle Htie].
    pose proof (qualifies_occ_end _ _ _ _ _ _ _ Hq) as Hb.
    pose proof (qualifies_occ_end _ _ _ _ _ _ _ Hq2) as Hb2.
    assert (Hq2' : qualifies maxsub readseq t 0 (len readseq - pad) i' s').
    { destruct Hq2 as (c & Hc & Ho & H1 & H2). exists c.
      split; [exact Hc|]. split; [exact Ho|]. split; [exact H1|].
      unfold occ_end in *. rewrite (cand_len_nth _ _ _ Hc) in *. lia. }
    destruct (Hmin _ _ Hq2') as [Hle' Htie'].
    assert (He : occ_end t (Z.of_nat i) s = occ_end t (Z.of_nat i') s')
      by lia.
    assert (i = i')
      by (specialize (Htie (eq_sym He)); specialize (Htie' He); lia).
    subst i'. now rewrite (occ_end_same_cand t _ _ _ He).
  - destruct (findRightmost_correct maxsub readseq t Harrays (len readseq) pad
                m eq_refl ltac:(lia)) as [[E1 _] | (i & s & E1 & Hq & Hmax)];
      rewrite E1 in E; injection E as <-; [discriminate Hf|].
    assert (Hq' : qualifies maxsub readseq t pad' (len readseq) i s)
      by (eapply qualifies_widen; [| |exact Hq]; lia).
    destruct (findRightmost_correct maxsub readseq t Harrays (len readseq)
                pad' m' eq_refl ltac:(lia))
      as [[_ Hn] | (i' & s' & E2 & Hq2 & Hmax2)];
      [exfalso; exact (Hn _ _ Hq')|].
    rewrite E2. destruct (Hmax2 _ _ Hq') as [Hle Htie].
    pose proof (qualifies_occ_end _ _ _ _ _ _ _ Hq) as Hb.
    assert (Hq2' : qualifies maxsub readseq t pad (len readseq) i' s').
    { destruct Hq2 as (c & Hc & Ho & H1 & H2). exists c.
      split; [exact Hc|]. split; [exact Ho|]. split; [lia | exact H2]. }
    destruct (Hmax _ _ Hq2') as [Hle' Htie'].
    assert (He : s = s') by lia. subst s'.
    assert (i = i')
      by (specialize (Htie eq_refl); specialize (Htie' eq_refl); lia).
    now subst i'.
Qed.

Lemma smaller_reserve_same_match_witness :
  findLeftmost 0 (lit "AAAACCCCAAAACCCC") one_candidate 16 3 5
  = Ok (mkFound true 0 0)
  /\ findRightmost 0 (lit "AAAACCCCAAAACCCC") one_candidate 16 3 5
     = Ok (mkFound true 0 8).
Proof.
  split.
  - apply (proj1 (smaller_reserve_same_match 0 (lit "AAAACCCCAAAACCCC")
                    one_candidate 8 3 0 5 (mkFound true 0 0)
                    ltac:(split; reflexivity) ltac:(lia) eq_refl)).
    reflexivity.
  - apply (proj2 (smaller_reserve_same_match 0 (lit "AAAACCCCAAAACCCC")
                    one_candidate 8 3 0 5 (mkFound true 0 8)
                    ltac:(split; reflexivity) ltac:(lia) eq_refl)).
    reflexivity.
Defined.

(** X4.  With zero reserve the two searches agree on whether the set
    occurs in the read, and the leftmost match neither starts nor ends
    after the rightmost one. *)
Theorem zero_reserve_searches_agree (maxsub : Z) (readseq : str) (t : Target)
        (m m' : Z) :
  arrays_ok t ->
  exists l r,
    findLeftmost maxsub readseq t (len readseq) 0 m = Ok l
    /\ findRightmost maxsub readseq t (len readseq) 0 m' = Ok r
    /\ isFound l = isFound r
    /\ (isFound l = true ->
        matchStart l <= matchStart r
        /\ occ_end t (matchIndex l) (matchStart l)
           <= occ_end t (matchIndex r) (matchStart r)).
Proof.
  intros Harrays.
  destruct (findLeftmost_correct maxsub readseq t Harrays (len readseq) 0
              m eq_refl ltac:(lia)) as [[E1 Hn] | (i & s & E1 & Hq & Hmin)];
  destruct (findRightmost_correct maxsub readseq t Harrays (len readseq) 0
              m' eq_refl ltac:(lia)) as [[E2 Hn'] | (i' & s' & E2 & Hq' & Hmax)];
  rewrite E1, E2; do 2 eexists; (split; [reflexivity|]);
    (split; [reflexivity|]); cbn [isFound matchIndex matchStart].
  - split; [reflexivity | discriminate].
  - exfalso. apply (Hn i' s').
    now rewrite Z.sub_0_r.
  - exfalso. apply (Hn' i s). now rewrite Z.sub_0_r in Hq.
  - split; [reflexivity|]. intros _. rewrite Z.sub_0_r in *.
    destruct (Hmin _ _ Hq') as [H1 _]. destruct (Hmax _ _ Hq) as [H2 _].
    split; assumption.
Qed.

Lemma zero_reserve_searches_agree_witness :
  exists l r,
    findLeftmost 1 (lit "AAAACCCCAAAACCCC") one_candidate
                 (len (lit "AAAACCCCAAAACCCC")) 0 0 = Ok l
    /\ findRightmost 1 (lit "AAAACCCCAAAACCCC") one_candidate
                     (len (lit "AAAACCCCAAAACCCC")) 0 0 = Ok r
    /\ isFound l = isFound r
    /\ (isFound l = true ->
        matchStart l <= matchStart r
        /\ occ_end one_candidate (matchIndex l) (matchStart l)
           <= occ_end one_candidate (matchIndex r) (matchStart r)).
Proof.
  exact (zero_reserve_searches_agree 1 (lit "AAAACCCCAAAACCCC") one_candidate
           0 0 ltac:(split; reflexivity)).
Defined.

(** ** The pair predicate in terms of occurrences *)

Lemma findLeftmost_cases (maxsub : Z) (readseq : str) (t : Target)
      (pad m : Z) (l : found) :
  arrays_ok t -> 0 <= pad ->
  findLeftmost maxsub readseq t (len readseq) pad m = Ok l ->
  (isFound l = false
   /\ forall j s, ~ qualifies maxsub readseq t 0 (len readseq - pad) j s)
  \/ (exists i : nat,
         isFound l = true /\ matchIndex l = Z.of_nat i
         /\ ends_first maxsub readseq t 0 (len readseq - pad) i (matchStart l)).
Proof.
  intros Harrays Hpad E.
  destruct (findLeftmost_correct maxsub readseq t Harrays (len readseq) pad
              m eq_refl Hpad) as [[E' Hn] | (i & s & E' & Hq & Hmin)];
    rewrite E' in E; injection E as <-.
  - left. split; [reflexivity | exact Hn].
  - right. exists i. split; [reflexivity|]. split; [reflexivity|].
    split; [exact Hq|]. intros j' s' Hq'. apply (Hmin j' s' Hq').
Qed.

Lemma findRightmost_cases (maxsub : Z) (readseq : str) (t : Target)
      (pad m : Z) (r : found) :
  arrays_ok t -> 0 <= pad ->
  findRightmost maxsub readseq t (len readseq) pad m = Ok r ->
  (isFound r = false
   /\ forall j s, ~ qualifies maxsub readseq t pad (len readseq) j s)
  \/ (exists i : nat,
         isFound r = true /\ matchIndex r = Z.of_nat i
         /\ starts_last maxsub readseq t pad (len readseq) i (matchStart r)).
Proof.
  intros Harrays Hpad E.
  destruct (findRightmost_correct maxsub readseq t Harrays (len readseq) pad
              m eq_refl Hpad) as [[E' Hn] | (i & s & E' & Hq & Hmax)];
    rewrite E' in E; injection E as <-.
  - left. split; [reflexivity | exact Hn].
  - right. exists i. split; [reflexivity|]. split; [reflexivity|].
    split; [exact Hq|]. intros j' s' Hq'. apply (Hmax j' s' Hq').
Qed.

Lemma wf_cand_len (t : Target) (j : nat) (c : str) :
  wf_Target t -> nth_error (seq t) j = Some c ->
  MIN_TARGET_LENGTH <= len c /\ minseqlen t <= len c <= maxseqlen t.
Proof.
  intros (_ & _ & _ & Hall & _) Hc. rewrite Forall_forall in Hall.
  destruct (Hall c (nth_error_In _ _ Hc)) as (H8 & Hmm & _). now split.
Qed.

Section PairOccurrences.
Variable maxsub : Z.
Variable tp : TargetPair.
Variable readString : str.
Variable v0 : locals.
Hypothesis Hwf : wf_TargetPair tp.

Lemma matches_both_present :
  want (left tp) = true -> want (right tp) = true ->
  (matches maxsub tp readString v0
   <-> exists j s k u,
        occurs_in maxsub readString (left tp) j s
        /\ occurs_in maxsub readString (right tp) k u
        /\ occ_end (left tp) (Z.of_nat j) s <= u).
Proof.
  intros Ewl Ewr. pose proof Hwf as (Hl & Hr & _ & _).
  pose proof (wf_arrays_ok _ Hl) as Hal.
  pose proof (wf_arrays_ok _ Hr) as Har.
  unfold matches, occurs_in.
  destruct (findMatch_cond_cases maxsub tp readString Hwf v0)
    as [(_ & Hpad1 & l & El & Hcase) | (Ewl' & _)];
    [|rewrite Ewl in Ewl'; discriminate Ewl'].
  cbv zeta in *. rewrite Ewr in *.
  assert (Hroom : forall j s k u,
             qualifies maxsub readString (left tp) 0 (len readString) j s ->
             qualifies maxsub readString (right tp) 0 (len readString) k u ->
             occ_end (left tp) (Z.of_nat j) s <= u ->
             qualifies maxsub readString (left tp) 0
                       (len readString - minseqlen (right tp)) j s).
  { intros j s k u Hq Hq' Hle.
    destruct Hq' as (ck & Hck & _ & _ & Hend).
    destruct (wf_cand_len _ _ _ Hr Hck) as (_ & Hmin & _).
    destruct Hq as (cj & Hcj & Ho & H0 & H1). exists cj.
    unfold occ_end in Hle. rewrite (cand_len_nth _ _ _ Hcj) in Hle.
    split; [exact Hcj|]. split; [exact Ho|]. lia. }
  destruct (findLeftmost_cases maxsub readString (left tp) _ _ l Hal Hpad1 El)
    as [(Efl & Hnone) | (i & Efl & Ei & Hq & Hmin)];
    destruct Hcase as [(Efl' & Ec) | (Efl' & Hpad2 & r & Er & Ec)];
    try (rewrite Efl in Efl'; discriminate Efl'); rewrite Ec.
  - split; [intros [f H]; discriminate H|].
    intros (j & s & k & u & Hq & Hq' & Hle). exfalso.
    exact (Hnone j s (Hroom j s k u Hq Hq' Hle)).
  - rewrite Ei in *. fold (occ_end (left tp) (Z.of_nat i) (matchStart l)) in *.
    destruct (findRightmost_cases maxsub readString (right tp) _ _ r Har
                Hpad2 Er)
      as [(Efr & Hnone) | (k & Efr & _ & Hq' & _)]; rewrite Efr; cbn [Bool.eqb].
    + split; [intros [f H]; discriminate H|].
      intros (j & s & k & u & Hqj & Hqk & Hle). exfalso.
      apply (Hnone k u). specialize (Hmin j s (Hroom j s k u Hqj Hqk Hle)).
      destruct Hqk as (ck & Hck & Ho & _ & Hend). exists ck.
      split; [exact Hck|]. split; [exact Ho|]. split; [lia | exact Hend].
    + split; [|intros _; eauto].
      intros _. exists i, (matchStart l), k, (matchStart r).
      split; [eapply qualifies_widen; [| |exact Hq]; lia|].
      pose proof (qualifies_occ_end _ _ _ _ _ _ _ Hq') as Hb.
      split; [eapply qualifies_widen; [| |exact Hq']; lia | lia].
Qed.

Lemma matches_left_only :
  want (left tp) = true -> want (right tp) = false ->
  (matches maxsub tp readString v0
   <-> exists j s,
        ends_first maxsub readString (left tp) 0
                   (len readString - maxseqlen (right tp)) j s
        /\ forall k u,
            ~ qualifies maxsub readString (right tp)
                        (occ_end (left tp) (Z.of_nat j) s)
                        (len readString) k u).
Proof.
  intros Ewl Ewr. pose proof Hwf as (Hl & Hr & _ & _).
  pose proof (wf_arrays_ok _ Hl) as Hal.
  pose proof (wf_arrays_ok _ Hr) as Har.
  unfold matches.
  destruct (findMatch_cond_cases maxsub tp readString Hwf v0)
    as [(_ & Hpad1 & l & El & Hcase) | (Ewl' & _)];
    [|rewrite Ewl in Ewl'; discriminate Ewl'].
  cbv zeta in *. rewrite Ewr in *.
  destruct (findLeftmost_cases maxsub readString (left tp) _ _ l Hal Hpad1 El)
    as [(Efl & Hnone) | (i & Efl & Ei & Hq & Hmin)];
    destruct Hcase as [(Efl' & Ec) | (Efl' & Hpad2 & r & Er & Ec)];
    try (rewrite Efl in Efl'; discriminate Efl'); rewrite Ec.
  - split; [intros [f H]; discriminate H|].
    intros (j & s & (Hqj & _) & _). exfalso. exact (Hnone j s Hqj).
  - rewrite Ei in *. fold (occ_end (left tp) (Z.of_nat i) (matchStart l)) in *.
    destruct (findRightmost_cases maxsub readString (right tp) _ _ r Har
                Hpad2 Er)
      as [(Efr & Hnone) | (k & Efr & _ & (Hq' & _))]; rewrite Efr;
      cbn [Bool.eqb].
    + split; [|intros _; eauto]. intros _. exists i, (matchStart l).
      split; [split; assumption | exact Hnone].
    + split; [intros [f H]; discriminate H|].
      intros (j & s & (Hqj & Hminj) & Hno). exfalso.
      specialize (Hmin j s Hqj). specialize (Hminj i (matchStart l) Hq).
      apply (Hno k (matchStart r)).
      replace (occ_end (left tp) (Z.of_nat j) s)
        with (occ_end (left tp) (Z.of_nat i) (matchStart l)) by lia.
      exact Hq'.
Qed.

Lemma matches_right_only :
  want (left tp) = false ->
  (matches maxsub tp readString v0
   <-> exists k u,
        starts_last maxsub readString (right tp) (maxseqlen (left tp))
                    (len readString) k u
        /\ forall j s, ~ qualifies maxsub readString (left tp) 0 u j s).
Proof.
  intros Ewl. pose proof Hwf as (Hl & Hr & _ & _).
  pose proof (wf_arrays_ok _ Hl) as Hal.
  pose proof (wf_arrays_ok _ Hr) as Har.
  unfold matches.
  destruct (findMatch_cond_cases maxsub tp readString Hwf v0)
    as [(Ewl' & _) | (_ & Ewr & Hpad & r & Er & Hcase)];
    [rewrite Ewl in Ewl'; discriminate Ewl'|].
  cbv zeta in *.
  destruct (findRightmost_cases maxsub readString (right tp) _ _ r Har Hpad Er)
    as [(Efr & Hnone) | (k & Efr & Ek & Hq & Hmax)];
    destruct Hcase as [(Efr' & Ec) | (Efr' & Hpad2 & l & El & Ec)];
    try (rewrite Efr in Efr'; discriminate Efr'); rewrite Ec.
  - split; [intros [f H]; discriminate H|].
    intros (k & u & (Hqk & _) & _). exfalso. exact (Hnone k u Hqk).
  - destruct (findLeftmost_cases maxsub readString (left tp) _ _ l Hal
                Hpad2 El)
      as [(Efl & Hnone) | (j & Efl & _ & (Hq' & _))]; rewrite Efl;
      cbn [negb];
      replace (len readString - (len readString - matchStart r))
        with (matchStart r) in * by lia.
    + split; [|intros _; eauto]. intros _. exists k, (matchStart r).
      split; [split; assumption | exact Hnone].
    + split; [intros [f H]; discriminate H|].
      intros (k' & u & (Hqk & Hmaxk) & Hno). exfalso.
      specialize (Hmax k' u Hqk). specialize (Hmaxk k (matchStart r) Hq).
      apply (Hno j (matchStart l)).
      replace u with (matchStart r) by lia. exact Hq'.
Qed.

End PairOccurrences.

Lemma left_only_pair_wf : wf_TargetPair left_only_pair.
Proof.
  split; [exact one_candidate_wf|]. split; [wf_concrete|].
  split; [discriminate | now left].
Qed.

Lemma right_only_pair_wf : wf_TargetPair right_only_pair.
Proof.
  split; [wf_concrete|]. split; [wf_concrete|].
  split; [discriminate | now right].
Qed.

(** X5.  A pair whose two sides require presence matches a read exactly
    when some candidate of the left set occurs in the read and some
    candidate of the right set occurs at or after the end of that
    occurrence: the two greedy searches miss no such arrangement. *)
Theorem both_present_match_iff_ordered_occurrences (maxsub : Z)
        (tp : TargetPair) (readString : str) (v0 : locals) :
  wf_TargetPair tp ->
  want (left tp) = true -> want (right tp) = true ->
  (matches maxsub tp readString v0
   <-> exists j s k u,
        occurs_in maxsub readString (left tp) j s
        /\ occurs_in maxsub readString (right tp) k u
        /\ occ_end (left tp) (Z.of_nat j) s <= u).
Proof. intros Hwf. now apply matches_both_present. Qed.

Lemma both_present_match_iff_ordered_occurrences_witness :
  exists j s k u,
    occurs_in 0 (lit "NNNAAAACCCCxxxxGGGGTTTTNNN") (left FUS) j s
    /\ occurs_in 0 (lit "NNNAAAACCCCxxxxGGGGTTTTNNN") (right FUS) k u
    /\ occ_end (left FUS) (Z.of_nat j) s <= u.
Proof.
  exact (proj1 (both_present_match_iff_ordered_occurrences 0 FUS
                  (lit "NNNAAAACCCCxxxxGGGGTTTTNNN") some_locals FUS_wf
                  eq_refl eq_refl)
               (ex_intro _ (mkFrame (mkLocals 0 3 0 15)
                                    [LeftmostCall 8; RightmostCall 11])
                         eq_refl)).
Defined.

(** X6.  A pair whose left side requires presence and whose right side
    requires absence matches a read exactly when a left candidate occurs
    leaving at least [maxseqlen] of the right set free at the end of the
    read, and no right candidate occurs at or after the end of the first
    such occurrence to end.  In particular a left occurrence closer to
    the end of the read than the longest right candidate never matches. *)
Theorem left_only_match_iff (maxsub : Z) (tp : TargetPair)
        (readString : str) (v0 : locals) :
  wf_TargetPair tp ->
  want (left tp) = true -> want (right tp) = false ->
  (matches maxsub tp readString v0
   <-> exists j s,
        ends_first maxsub readString (left tp) 0
                   (len readString - maxseqlen (right tp)) j s
        /\ forall k u,
            ~ qualifies maxsub readString (right tp)
                        (occ_end (left tp) (Z.of_nat j) s)
                        (len readString) k u).
Proof. intros Hwf. now apply matches_left_only. Qed.

Lemma left_only_match_iff_witness :
  exists j s,
    ends_first 0 (lit "AAAACCCCNNNNNNNN") (left left_only_pair) 0
               (len (lit "AAAACCCCNNNNNNNN")
                - maxseqlen (right left_only_pair)) j s
    /\ forall k u,
        ~ qualifies 0 (lit "AAAACCCCNNNNNNNN") (right left_only_pair)
                    (occ_end (left left_only_pair) (Z.of_nat j) s)
                    (len (lit "AAAACCCCNNNNNNNN")) k u.
Proof.
  exact (proj1 (left_only_match_iff 0 left_only_pair
                  (lit "AAAACCCCNNNNNNNN") some_locals left_only_pair_wf
                  eq_refl eq_refl)
               (ex_intro _ (mkFrame (mkLocals 0 0 (-1) 0)
                                    [LeftmostCall 8; RightmostCall 8])
                         eq_refl)).
Defined.

(** X7.  A pair whose left side requires absence matches a read exactly
    when a right candidate occurs with its start at or after [maxseqlen]
    of the left set, and no left candidate occurs ending at or before the
    start of the last such occurrence to start. *)
Theorem right_only_match_iff (maxsub : Z) (tp : TargetPair)
        (readString : str) (v0 : locals) :
  wf_TargetPair tp ->
  want (left tp) = false ->
  (matches maxsub tp readString v0
   <-> exists k u,
        starts_last maxsub readString (right tp) (maxseqlen (left tp))
                    (len readString) k u
        /\ forall j s, ~ qualifies maxsub readString (left tp) 0 u j s).
Proof. intros Hwf. now apply matches_right_only. Qed.

Lemma right_only_match_iff_witness :
  exists k u,
    starts_last 0 (lit "NNNNNNNNGGGGTTTT") (right right_only_pair)
                (maxseqlen (left right_only_pair))
                (len (lit "NNNNNNNNGGGGTTTT")) k u
    /\ forall j s,
        ~ qualifies 0 (lit "NNNNNNNNGGGGTTTT") (left right_only_pair) 0 u j s.
Proof.
  exact (proj1 (right_only_match_iff 0 right_only_pair
                  (lit "NNNNNNNNGGGGTTTT") some_locals right_only_pair_wf
                  eq_refl)
               (ex_intro _ (mkFrame (mkLocals (-1) 0 0 8)
                                    [RightmostCall 8; LeftmostCall 8])
                         eq_refl)).
Defined.

(** ** The opposite strand *)

Lemma mismatches_map (f : ascii -> ascii) (a b : str) :
  (forall x y, Ascii.eqb (f x) (f y) = Ascii.eqb x y) ->
  mismatches (map f a) (map f b) = mismatches a b.
Proof.
  intros Hf. revert b. induction a as [|x a IH]; intros [|y b]; cbn;
    try reflexivity.
  now rewrite Hf, IH.
Qed.

Lemma mismatches_app (a b a' b' : str) :
  length a = length b ->
  mismatches (a ++ a') (b ++ b') = mismatches a b + mismatches a' b'.
Proof.
  revert b. induction a as [|x a IH]; intros [|y b] H; cbn in *;
    try discriminate; [lia|].
  rewrite IH by lia. lia.
Qed.

Lemma mismatches_rev (a b : str) :
  length a = length b -> mismatches (rev a) (rev b) = mismatches a b.
Proof.
  revert b. induction a as [|x a IH]; intros [|y b] H; cbn in *;
    try discriminate; [reflexivity|].
  rewrite mismatches_app by (rewrite !length_rev; lia).
  rewrite IH by lia. cbn. lia.
Qed.

Lemma invert_char_eqb (x y : ascii) :
  Ascii.eqb (invert_char x) (invert_char y) = Ascii.eqb x y.
Proof.
  destruct (Ascii.eqb_spec x y) as [->|Hne]; [apply Ascii.eqb_refl|].
  apply Ascii.eqb_neq. intros H. apply Hne.
  rewrite <- (invert_char_involutive x), <- (invert_char_involutive y).
  now rewrite H.
Qed.

Lemma window_map (f : ascii -> ascii) (r : str) (p : Z) (n : nat) :
  window (map f r) p n = map f (window r p n).
Proof. unfold window. now rewrite skipn_map, firstn_map. Qed.

Lemma window_rev (r : str) (s : Z) (n : nat) :
  0 <= s -> s + Z.of_nat n <= len r ->
  window (rev r) (len r - s - Z.of_nat n) n = rev (window r s n).
Proof.
  intros H0 H1. unfold window, len in *.
  rewrite skipn_rev, firstn_rev, length_firstn, skipn_firstn_comm.
  replace (length r - Z.to_nat (Z.of_nat (length r) - s - Z.of_nat n))%nat
    with (Z.to_nat s + n)%nat by lia.
  replace (Nat.min (Z.to_nat s + n) (length r) - n)%nat
    with (Z.to_nat s) by lia.
  replace (Z.to_nat s + n - Z.to_nat s)%nat with n by lia.
  reflexivity.
Qed.

Lemma opposite_strand_len (r : str) : len (opposite_strand r) = len r.
Proof.
  unfold opposite_strand, invertSequence, len.
  now rewrite reverseSequence_rev, length_map, length_rev.
Qed.

Lemma opposite_strand_involutive (r : str) :
  opposite_strand (opposite_strand r) = r.
Proof. apply reverse_invert_twice. Qed.

(** An occurrence of a candidate is an occurrence of its reverse
    complement in the opposite strand, at the mirrored offset. *)
Lemma occurs_opposite (maxsub : Z) (r c : str) (s : Z) :
  forallb is_base c = true ->
  occurs maxsub r c s ->
  occurs maxsub (opposite_strand r) (revcomp_seq c) (len r - (s + len c)).
Proof.
  intros Hb (H0 & H1 & E). pose proof (len_nonneg c) as Hc0.
  unfold occurs. rewrite opposite_strand_len, revcomp_seq_len.
  split; [lia|]. split; [lia|].
  rewrite <- (revcomp_seq_len c) at 2.
  rewrite isMatch_spec
    by (rewrite ?opposite_strand_len, ?revcomp_seq_len; lia).
  rewrite isMatch_spec in E by assumption.
  rewrite <- E. do 3 f_equal.
  all: rewrite <- (invert_reverse_bases c Hb); unfold opposite_strand;
    rewrite !reverseSequence_rev; unfold invertSequence;
    rewrite window_map, length_map, length_rev;
    replace (len r - (s + len c)) with (len r - s - Z.of_nat (length c))
      by (unfold len; lia);
    rewrite window_rev by (unfold len in *; lia);
    rewrite (mismatches_map invert_char _ _ invert_char_eqb);
    apply mismatches_rev;
    apply window_length; unfold len in *; lia.
Qed.

Lemma cand_len_mirror (t : Target) (j : Z) :
  cand_len (mirror_set t) j = cand_len t j.
Proof.
  unfold cand_len, mirror_set. cbn [seq]. destruct (j <? 0); [reflexivity|].
  change (@nil ascii) with (revcomp_seq []) at 1.
  now rewrite map_nth, revcomp_seq_len.
Qed.

Lemma occ_end_mirror (t : Target) (j s : Z) :
  occ_end (mirror_set t) j s = occ_end t j s.
Proof. unfold occ_end. now rewrite cand_len_mirror. Qed.

(** A qualifying occurrence in a read is a qualifying occurrence of the
    mirrored set in the opposite strand, with the bounds mirrored. *)
Lemma qualifies_opposite (maxsub : Z) (r : str) (t : Target) (lo hi : Z)
      (j : nat) (s : Z) :
  wf_Target t ->
  qualifies maxsub r t lo hi j s ->
  qualifies maxsub (opposite_strand r) (mirror_set t)
            (len r - hi) (len r - lo) j
            (len r - occ_end t (Z.of_nat j) s).
Proof.
  intros Hwf (c & Hc & Ho & Hlo & Hhi).
  pose proof Hwf as (_ & _ & _ & Hall & _). rewrite Forall_forall in Hall.
  destruct (Hall c (nth_error_In _ _ Hc)) as (_ & _ & Hb).
  exists (revcomp_seq c). unfold occ_end. rewrite (cand_len_nth _ _ _ Hc).
  split; [cbn [mirror_set seq]; now rewrite nth_error_map, Hc|].
  split; [now apply occurs_opposite|].
  rewrite revcomp_seq_len. lia.
Qed.

Lemma qualifies_opposite_back (maxsub : Z) (r : str) (t : Target)
      (lo hi : Z) (j : nat) (s : Z) :
  wf_Target t ->
  qualifies maxsub (opposite_strand r) (mirror_set t) lo hi j s ->
  qualifies maxsub r t (len r - hi) (len r - lo) j
            (len r - occ_end t (Z.of_nat j) s).
Proof.
  intros Hwf Hq.
  apply (qualifies_opposite _ _ _ _ _ _ _ (mirror_set_wf t Hwf)) in Hq.
  rewrite opposite_strand_involutive, (mirror_set_involutive t Hwf),
    opposite_strand_len, occ_end_mirror in Hq.
  exact Hq.
Qed.

Lemma qualifies_adjust (maxsub : Z) (readseq : str) (t : Target)
      (lo hi lo' hi' : Z) (j : nat) (s s' : Z) :
  qualifies maxsub readseq t lo hi j s ->
  lo' <= lo -> hi <= hi' -> s = s' ->
  qualifies maxsub readseq t lo' hi' j s'.
Proof. intros Hq Hlo Hhi <-. exact (qualifies_widen _ _ _ _ _ _ _ _ _ Hlo Hhi Hq). Qed.

Ltac mirror_arith :=
  unfold occ_end in *;
  cbn [mirror_pair mirror_set left right maxseqlen minseqlen] in *;
  change (mkTarget (want ?t) (minseqlen ?t) (maxseqlen ?t) (seqcount ?t)
                   (seqlen ?t) (map revcomp_seq (seq ?t)))
    with (mirror_set t) in *;
  rewrite ?opposite_strand_len, ?cand_len_mirror in *;
  try lia.

Section OppositeStrand.
Variable maxsub : Z.
Variable tp : TargetPair.
Variable readString : str.
Hypothesis Hwf : wf_TargetPair tp.

Lemma matches_opposite_forward (v0 v0' : locals) :
  matches maxsub tp readString v0 ->
  matches maxsub (mirror_pair tp) (opposite_strand readString) v0'.
Proof.
  intros Hm. pose proof Hwf as (Hl & Hr & _ & Hwant).
  pose proof (mirror_pair_wf tp Hwf) as Hwf'.
  destruct (want (left tp)) eqn:Ewl; [destruct (want (right tp)) eqn:Ewr|].
  - (* both sides present *)
    apply (matches_both_present maxsub tp readString v0 Hwf Ewl Ewr) in Hm.
    destruct Hm as (j & s & k & u & Hqj & Hqk & Hle).
    apply (matches_both_present maxsub _ _ v0' Hwf'); [exact Ewr|exact Ewl|].
    exists k, (len readString - occ_end (right tp) (Z.of_nat k) u),
      j, (len readString - occ_end (left tp) (Z.of_nat j) s).
    unfold occurs_in in *.
    pose proof (qualifies_occ_end _ _ _ _ _ _ _ Hqj) as Hbj.
    pose proof (qualifies_occ_end _ _ _ _ _ _ _ Hqk) as Hbk.
    split; [|split].
    + apply (qualifies_opposite _ _ _ _ _ _ _ Hr) in Hqk.
      eapply qualifies_adjust; [exact Hqk| | |reflexivity]; mirror_arith.
    + apply (qualifies_opposite _ _ _ _ _ _ _ Hl) in Hqj.
      eapply qualifies_adjust; [exact Hqj| | |reflexivity]; mirror_arith.
    + mirror_arith.
  - (* left present, right absent *)
    apply (matches_left_only maxsub tp readString v0 Hwf Ewl Ewr) in Hm.
    destruct Hm as (j & s & (Hqj & Hmin) & Hno).
    apply (matches_right_only maxsub _ _ v0' Hwf'); [exact Ewr|].
    exists j, (len readString - occ_end (left tp) (Z.of_nat j) s).
    split; [split|].
    + apply (qualifies_opposite _ _ _ _ _ _ _ Hl) in Hqj.
      eapply qualifies_adjust; [exact Hqj| | |reflexivity]; mirror_arith.
    + intros j' s' Hq'.
      apply (qualifies_opposite_back _ _ _ _ _ _ _ Hl) in Hq'.
      assert (Hq'' : qualifies maxsub readString (left tp) 0
                       (len readString - maxseqlen (right tp)) j'
                       (len readString - occ_end (left tp) (Z.of_nat j') s'))
        by (eapply qualifies_adjust; [exact Hq'| | |reflexivity];
            mirror_arith).
      specialize (Hmin _ _ Hq''). mirror_arith.
    + intros j' s' Hq'.
      apply (qualifies_opposite_back _ _ _ _ _ _ _ Hr) in Hq'.
      apply (Hno j' (len readString - occ_end (right tp) (Z.of_nat j') s')).
      eapply qualifies_adjust; [exact Hq'| | |reflexivity]; mirror_arith.
  - (* left absent *)
    assert (Ewr : want (right tp) = true)
      by (destruct Hwant as [H|H]; [discriminate H | exact H]).
    apply (matches_right_only maxsub tp readString v0 Hwf Ewl) in Hm.
    destruct Hm as (k & u & (Hqk & Hmax) & Hno).
    apply (matches_left_only maxsub _ _ v0' Hwf'); [exact Ewr|exact Ewl|].
    exists k, (len readString - occ_end (right tp) (Z.of_nat k) u).
    pose proof (qualifies_occ_end _ _ _ _ _ _ _ Hqk) as Hbk.
    split; [split|].
    + apply (qualifies_opposite _ _ _ _ _ _ _ Hr) in Hqk.
      eapply qualifies_adjust; [exact Hqk| | |reflexivity]; mirror_arith.
    + intros j' s' Hq'.
      apply (qualifies_opposite_back _ _ _ _ _ _ _ Hr) in Hq'.
      assert (Hq'' : qualifies maxsub readString (right tp)
                       (maxseqlen (left tp)) (len readString) j'
                       (len readString
                        - occ_end (right tp) (Z.of_nat j') s'))
        by (eapply qualifies_adjust; [exact Hq'| | |reflexivity];
            mirror_arith).
      specialize (Hmax _ _ Hq''). mirror_arith.
    + intros j' s' Hq'.
      apply (qualifies_opposite_back _ _ _ _ _ _ _ Hl) in Hq'.
      apply (Hno j' (len readString - occ_end (left tp) (Z.of_nat j') s')).
      eapply qualifies_adjust; [exact Hq'| | |reflexivity]; mirror_arith.
Qed.

End OppositeStrand.

Lemma mirror_pair_involutive (tp : TargetPair) :
  wf_TargetPair tp -> mirror_pair (mirror_pair tp) = tp.
Proof.
  intros (Hl & Hr & _). destruct tp as [lbl l r]. unfold mirror_pair.
  cbn [label left right] in *.
  now rewrite (mirror_set_involutive l Hl), (mirror_set_involutive r Hr).
Qed.

(** X8.  Strand symmetry: a validly constructed pair matches a read
    exactly when its mirror (the entry [createReverseComplement] adds to
    the catalog) matches the reverse complement of the read.  This holds
    for all three polarity combinations; the minimum-length and
    maximum-length reserves of [findMatch] are mirror images of each
    other. *)
Theorem mirror_matches_opposite_strand (maxsub : Z) (tp : TargetPair)
        (readString : str) (v0 v0' : locals) :
  wf_TargetPair tp ->
  createReverseComplement tp = Ok (mirror_pair tp)
  /\ (matches maxsub tp readString v0
      <-> matches maxsub (mirror_pair tp) (opposite_strand readString) v0').
Proof.
  intros Hwf. split; [now apply createReverseComplement_mirror|]. split.
  - now apply matches_opposite_forward.
  - intros Hm.
    apply (matches_opposite_forward maxsub _ _ (mirror_pair_wf tp Hwf) v0' v0)
      in Hm.
    now rewrite (mirror_pair_involutive tp Hwf), opposite_strand_involutive
      in Hm.
Qed.

Lemma mirror_matches_opposite_strand_witness :
  matches 0 (mirror_pair right_only_pair)
          (opposite_strand (lit "NNNNNNNNGGGGTTTT")) some_locals.
Proof.
  exact (proj1 (proj2 (mirror_matches_opposite_strand 0 right_only_pair
                         (lit "NNNNNNNNGGGGTTTT") some_locals some_locals
                         right_only_pair_wf))
               (ex_intro _ (mkFrame (mkLocals (-1) 0 0 8)
                                    [RightmostCall 8; LeftmostCall 8])
                         eq_refl)).
Defined.

(** ** Delimited strings *)

Lemma join_split_on (d : ascii) (s : str) : join d (split_on d s) = s.
Proof.
  induction s as [|c s IH]; [reflexivity|]. cbn [split_on].
  pose proof (split_on_nonempty d s) as Hne.
  destruct (Ascii.eqb_spec c d) as [->|Hcd].
  - destruct (split_on d s) as [|x r] eqn:E; [contradiction|].
    change (join d ([] :: x :: r)) with ([] ++ d :: join d (x :: r)).
    now rewrite IH.
  - destruct (split_on d s) as [|x r] eqn:E; [contradiction|].
    rewrite join_cons. rewrite join_cons in IH. cbn [app]. now rewrite IH.
Qed.

Lemma split_on_length (d : ascii) (s : str) :
  length (split_on d s) = S (count_occ ascii_dec s d).
Proof.
  induction s as [|c s IH]; [reflexivity|]. cbn [split_on count_occ].
  pose proof (split_on_nonempty d s) as Hne.
  destruct (Ascii.eqb_spec c d) as [->|Hcd].
  - destruct (ascii_dec d d) as [_|N]; [|contradiction]. cbn [length].
    now rewrite IH.
  - destruct (ascii_dec c d) as [E|_]; [contradiction|].
    destruct (split_on d s) as [|x r]; [contradiction|]. exact IH.
Qed.

Lemma split_on_no_delimiter (d : ascii) (s : str) :
  Forall (fun f => ~ In d f) (split_on d s).
Proof.
  induction s as [|c s IH]; cbn [split_on].
  - constructor; [intros []|constructor].
  - destruct (Ascii.eqb_spec c d) as [->|Hcd].
    + constructor; [intros []|exact IH].
    + destruct (split_on d s) as [|x r].
      * constructor; [|constructor]. intros [H|[]]. now apply Hcd.
      * inversion IH as [|? ? Hx Hr]; subst. constructor; [|exact Hr].
        intros [H|H]; [now apply Hcd | now apply Hx].
Qed.

(** X9.  [getDelimitedStrings] appends to the vector it is given the
    fields of the string: one more field than the string has delimiters,
    none containing the delimiter, and the fields joined by the delimiter
    give the string back (so empty fields, also a leading or trailing
    one, are kept). *)
Theorem getDelimitedStrings_fields (s : str) (delimiter : ascii)
        (v : list str) :
  getDelimitedStrings s delimiter v
  = v ++ getDelimitedStrings s delimiter []
  /\ join delimiter (getDelimitedStrings s delimiter []) = s
  /\ length (getDelimitedStrings s delimiter [])
     = S (count_occ ascii_dec s delimiter)
  /\ Forall (fun f => ~ In delimiter f) (getDelimitedStrings s delimiter []).
Proof.
  rewrite getDelimitedStrings_split. split; [|split; [|split]].
  - unfold getDelimitedStrings. rewrite getDelimitedStrings_loop_split.
    pose proof (split_on_nonempty delimiter s) as Hne.
    destruct (split_on delimiter s); [contradiction | reflexivity].
  - apply join_split_on.
  - apply split_on_length.
  - apply split_on_no_delimiter.
Qed.

(** ** The constructor of a sequence set, continued *)

Lemma toupperSequence_idempotent (s : str) :
  toupperSequence (toupperSequence s) = toupperSequence s.
Proof.
  unfold toupperSequence. rewrite map_map. apply map_ext.
  exact toupper_idempotent.
Qed.

(** X10.  What the constructor establishes: a [Target] it returns has at
    least one candidate, [seqcount] candidates in [seq] with their
    lengths in [seqlen], every candidate upper-case A, C, G, T of length
    at least 8, and [minseqlen], [maxseqlen] the shortest and the longest
    length; [want] is false exactly when the string starts with [-]. *)
Theorem Target_constructor_invariant (targetString : str) (t : Target) :
  Target_new targetString = Ok t ->
  wf_Target t /\ 1 <= seqcount t
  /\ want t = negb (spec_absent targetString)
  /\ seq t = spec_candidates targetString.
Proof.
  intros E.
  destruct (Target_new_spec targetString)
    as [(_ & msg & E') | (_ & t' & E' & Hwf & Hwant & Hseq)];
    rewrite E' in E; [discriminate E|]. injection E as <-.
  split; [exact Hwf|]. split; [|split; assumption].
  destruct Hwf as (Hc & _ & Hne & _). rewrite Hc.
  destruct (seq t'); [contradiction | cbn [length]; lia].
Qed.

Lemma Target_constructor_invariant_witness :
  wf_Target two_overlapping /\ 1 <= seqcount two_overlapping
  /\ want two_overlapping = negb (spec_absent (lit "aaaaaaaacc|GGAAAAAAAA"))
  /\ seq two_overlapping = spec_candidates (lit "aaaaaaaacc|GGAAAAAAAA").
Proof.
  exact (Target_constructor_invariant (lit "aaaaaaaacc|GGAAAAAAAA")
           two_overlapping eq_refl).
Defined.

(** X11.  The constructor is case-insensitive: a target string and its
    upper-case form build the same [Target], or both are rejected. *)
Theorem Target_constructor_case_insensitive (targetString : str) :
  (forall t, Target_new targetString = Ok t
             <-> Target_new (toupperSequence targetString) = Ok t)
  /\ ((exists e, Target_new targetString = Err e)
      <-> (exists e, Target_new (toupperSequence targetString) = Err e)).
Proof.
  assert (Ha : spec_absent (toupperSequence targetString)
               = spec_absent targetString).
  { unfold spec_absent. fold (toupperSequence targetString).
    fold (toupperSequence (toupperSequence targetString)).
    now rewrite toupperSequence_idempotent. }
  assert (Hc : spec_candidates (toupperSequence targetString)
               = spec_candidates targetString).
  { unfold spec_candidates. rewrite Ha.
    fold (toupperSequence targetString).
    fold (toupperSequence (toupperSequence targetString)).
    now rewrite toupperSequence_idempotent. }
  assert (Hb : bad_spec (toupperSequence targetString)
               = bad_spec targetString)
    by (unfold bad_spec; now rewrite Hc).
  destruct (Target_new_spec targetString)
    as [(Eb & msg & E) | (Eb & t & E & Hwf & Hwant & Hseq)];
  destruct (Target_new_spec (toupperSequence targetString))
    as [(Eb' & msg' & E') | (Eb' & t' & E' & Hwf' & Hwant' & Hseq')];
    try (rewrite Hb, Eb in Eb'; discriminate Eb'); rewrite E, E'.
  - split; [intros t0; split; discriminate|]. split; eauto.
  - assert (t = t').
    { rewrite Ha in Hwant'. rewrite Hc in Hseq'.
      destruct Hwf as (H1 & H2 & _ & H4 & H5 & H6).
      destruct Hwf' as (H1' & H2' & _ & H4' & H5' & H6').
      destruct (extremes_unique (map len (seq t))
                  (minseqlen t) (maxseqlen t) (minseqlen t') (maxseqlen t'))
        as [Emin Emax].
      - apply Forall_map. eapply Forall_impl; [|exact H4]. cbv beta. tauto.
      - now apply Exists_map.
      - now apply Exists_map.
      - rewrite Hseq, <- Hseq'. apply Forall_map.
        eapply Forall_impl; [|exact H4']. cbv beta. tauto.
      - rewrite Hseq, <- Hseq'. now apply Exists_map.
      - rewrite Hseq, <- Hseq'. now apply Exists_map.
      - destruct t as [w mn mx cnt lens sq].
        destruct t' as [w' mn' mx' cnt' lens' sq'].
        cbn [want minseqlen maxseqlen seqcount seqlen seq] in *.
        subst. reflexivity. }
    subst t'. split; [intros t0; tauto|].
    split; intros [e H]; discriminate H.
Qed.

Lemma check_all_ACGT_first (pre post : list str) (c : str) :
  forallb isAllACGT pre = true -> isAllACGT c = false ->
  check_all_ACGT (pre ++ c :: post)
  = Err (runtime_error (lit "invalid character in " ++ what_of c)).
Proof.
  intros Hpre Hc. induction pre as [|p pre IH]; cbn [app check_all_ACGT].
  - now rewrite Hc.
  - cbn [forallb] in Hpre. apply andb_true_iff in Hpre.
    destruct Hpre as [-> Hpre]. cbn [negb]. now apply IH.
Qed.

(** X12.  The diagnostics of the constructor, as [what()] gives them:
    when some candidate is shorter than 8 the error is "invalid sequence
    length in" followed by the target string as given (whatever else is
    wrong with it); otherwise, when some candidate holds a character
    outside A, C, G, T, the error is "invalid character in" followed by
    the first such candidate, in upper case.  In both, the text ends
    before the first NUL of the string, if it has one. *)
Theorem Target_constructor_errors (targetString : str) :
  (existsb (fun c => len c <? MIN_TARGET_LENGTH)
           (spec_candidates targetString) = true ->
   Target_new targetString
   = Err (runtime_error
            (lit "invalid sequence length in " ++ what_of targetString)))
  /\ (existsb (fun c => len c <? MIN_TARGET_LENGTH)
              (spec_candidates targetString) = false ->
      forall pre c post,
        spec_candidates targetString = pre ++ c :: post ->
        forallb (forallb is_base) pre = true ->
        forallb is_base c = false ->
        Target_new targetString
        = Err (runtime_error (lit "invalid character in " ++ what_of c))).
Proof.
  rewrite Target_new_unfold. cbv zeta.
  pose proof (upper_candidates targetString) as Hup.
  pose proof (split_on_nonempty "|"
                (if spec_absent targetString
                 then tl (map toupper targetString)
                 else map toupper targetString)) as Hne.
  fold (spec_candidates targetString) in Hne.
  destruct (spec_candidates targetString) as [|t0 rest] eqn:Ecands;
    [contradiction|].
  change (array_get (t0 :: rest) 0) with (Ok (A:=str) t0). cbn [bind tl].
  destruct (fold_left minmax_step rest (len t0, len t0)) as [mn mx] eqn:Efold.
  destruct (minmax_all _ _ _ _ Efold) as (Hall & Hmin & _).
  rewrite Forall_forall in Hall. apply Exists_exists in Hmin.
  destruct Hmin as (cm & Hcm & Ecm).
  split.
  - intros Hex. apply existsb_exists in Hex. destruct Hex as (c & Hin & Hc).
    apply Z.ltb_lt in Hc. specialize (Hall c Hin).
    destruct (Z.ltb_spec mn MIN_TARGET_LENGTH); [reflexivity | lia].
  - intros Hex pre c post Esplit Hpre Hc.
    destruct (Z.ltb_spec mn MIN_TARGET_LENGTH) as [Hlt|_].
    + exfalso. assert (Hex' : existsb (fun c0 => len c0 <? MIN_TARGET_LENGTH)
                                      (t0 :: rest) = true).
      { apply existsb_exists. exists cm. split; [exact Hcm|].
        apply Z.ltb_lt. lia. }
      rewrite Hex' in Hex. discriminate Hex.
    + rewrite Esplit in Hup |- *.
      apply Forall_app in Hup. destruct Hup as [Hup_pre Hup_c].
      inversion Hup_c as [|? ? Hcu _]; subst.
      rewrite check_all_ACGT_first; [reflexivity| |].
      * clear - Hpre Hup_pre. induction Hup_pre as [|p l Hp _ IH];
          [reflexivity|].
        cbn [forallb] in *. apply andb_true_iff in Hpre.
        destruct Hpre as [Hp' Hl]. rewrite (isAllACGT_upper p Hp), Hp'.
        now apply IH.
      * now rewrite (isAllACGT_upper c Hcu).
Qed.

Lemma Target_constructor_errors_witness :
  Target_new (lit "-aaaacccc|acgtN")
  = Err (runtime_error (lit "invalid sequence length in -aaaacccc|acgtN"))
  /\ Target_new (lit "aaaa" ++ zero :: lit "cccc")
     = Err (runtime_error (lit "invalid character in AAAA")).
Proof.
  split.
  - apply (proj1 (Target_constructor_errors (lit "-aaaacccc|acgtN"))).
    vm_compute. reflexivity.
  - apply (proj2 (Target_constructor_errors
                    (lit "aaaa" ++ zero :: lit "cccc"))
                 eq_refl [] (lit "AAAA" ++ zero :: lit "CCCC") []);
      vm_compute; reflexivity.
Defined.

(** ** Reversal and complement *)

(** X13.  [reverseSequence] reverses: the result has the length of the
    sequence, its character [i] is character [len - 1 - i] of the
    sequence, and reversing twice gives the sequence back. *)
Theorem reverseSequence_reverses (sequence : str) :
  reverseSequence sequence = rev sequence
  /\ len (reverseSequence sequence) = len sequence
  /\ (forall i : nat,
         (i < length sequence)%nat ->
         nth i (reverseSequence sequence) zero
         = nth (length sequence - 1 - i) sequence zero)
  /\ reverseSequence (reverseSequence sequence) = sequence.
Proof.
  rewrite !reverseSequence_rev. split; [reflexivity|].
  split; [unfold len; now rewrite length_rev|]. split.
  - intros i Hi. rewrite rev_nth by assumption. f_equal. lia.
  - apply rev_involutive.
Qed.

Lemma reverseSequence_reverses_witness :
  nth 1 (reverseSequence (lit "ACGT")) zero = "G"%char.
Proof.
  exact (proj1 (proj2 (proj2 (reverseSequence_reverses (lit "ACGT")))) 1%nat
               ltac:(cbn; lia)).
Defined.

Lemma invert_char_toupper (c : ascii) :
  invert_char (toupper c) = toupper (invert_char c).
Proof. destruct c as [[] [] [] [] [] [] [] []]; reflexivity. Qed.

Lemma invert_char_other (c : ascii) :
  isACGT c = false -> invert_char c = c.
Proof. destruct c as [[] [] [] [] [] [] [] []]; cbn; congruence. Qed.

(** X14.  [invertSequence] keeps the length and the case of every
    letter (it commutes with [toupperSequence]), leaves every character
    other than A, C, G, T in either case unchanged, undoes itself, and
    commutes with [reverseSequence]. *)
Theorem invertSequence_complements (sequence : str) :
  len (invertSequence sequence) = len sequence
  /\ invertSequence (toupperSequence sequence)
     = toupperSequence (invertSequence sequence)
  /\ (forallb (fun c => negb (isACGT c)) sequence = true ->
      invertSequence sequence = sequence)
  /\ invertSequence (invertSequence sequence) = sequence
  /\ invertSequence (reverseSequence sequence)
     = reverseSequence (invertSequence sequence).
Proof.
  split; [unfold len, invertSequence; now rewrite length_map|].
  split; [unfold invertSequence, toupperSequence; rewrite !map_map;
          apply map_ext; exact invert_char_toupper|].
  split.
  - intros H. unfold invertSequence. rewrite <- (map_id sequence) at 2.
    apply map_ext_in. intros c Hc. rewrite forallb_forall in H.
    apply invert_char_other. specialize (H c Hc).
    now apply negb_true_iff in H.
  - split; [apply invertSequence_involutive|].
    rewrite !reverseSequence_rev. unfold invertSequence. apply map_rev.
Qed.

Lemma invertSequence_complements_witness :
  invertSequence (lit "NN-nn") = lit "NN-nn".
Proof.
  exact (proj1 (proj2 (proj2 (invertSequence_complements (lit "NN-nn"))))
               eq_refl).
Defined.

(** ** The record keeps the read *)

Lemma bases_of_app (a b : str) : bases_of (a ++ b) = bases_of a ++ bases_of b.
Proof. unfold bases_of. now rewrite filter_app, map_app. Qed.

Lemma mark_lower_base (r c : ascii) :
  is_bracket (mark_lower r c) = is_bracket r
  /\ toupper (mark_lower r c) = toupper r.
Proof.
  unfold mark_lower. destruct (Ascii.eqb r c); [now split|].
  destruct r as [[] [] [] [] [] [] [] []]; split; reflexivity.
Qed.

Lemma zip_mark_lower_bases (w c : str) :
  (length w <= length c)%nat ->
  bases_of (zip_mark mark_lower w c) = bases_of w
  /\ length (zip_mark mark_lower w c) = length w.
Proof.
  revert c. induction w as [|r w IH]; intros [|x c] H; cbn in H |- *;
    try (split; reflexivity); try lia.
  destruct (IH c ltac:(lia)) as [IHb IHl].
  destruct (mark_lower_base r x) as [Hb Hu].
  unfold bases_of in *. cbn [filter]. rewrite Hb, IHl.
  destruct (negb (is_bracket r)); cbn [map]; rewrite ?Hu, IHb;
    split; reflexivity.
Qed.

Lemma spans_ok_pos (readString : str) (pos : Z) (spans : list (Z * str)) :
  spans_ok readString pos spans -> pos <= len readString.
Proof.
  revert pos. induction spans as [|[start c] rest IH]; intros pos H;
    cbn [spans_ok] in H; [exact H|].
  destruct H as [H1 H2]. specialize (IH _ H2). pose proof (len_nonneg c).
  lia.
Qed.

Lemma skipn_window (r : str) (pos : Z) (k : nat) :
  0 <= pos ->
  skipn (Z.to_nat pos) r
  = window r pos k ++ skipn (Z.to_nat (pos + Z.of_nat k)) r.
Proof.
  intros H. unfold window.
  replace (Z.to_nat (pos + Z.of_nat k)) with (k + Z.to_nat pos)%nat by lia.
  now rewrite <- skipn_skipn, firstn_skipn.
Qed.

Lemma annotate_keeps_read (readString : str) (pos : Z)
      (spans : list (Z * str)) :
  0 <= pos -> spans_ok readString pos spans ->
  bases_of (annotate mark_lower readString pos spans)
  = bases_of (skipn (Z.to_nat pos) readString)
  /\ len (annotate mark_lower readString pos spans)
     = len readString - pos + 2 * Z.of_nat (length spans).
Proof.
  revert pos. induction spans as [|[start c] rest IH]; intros pos H0 Hok.
  - cbn [annotate spans_ok length] in *. split; [reflexivity|].
    unfold len in *. rewrite length_skipn. lia.
  - cbn [spans_ok] in Hok. destruct Hok as [Hps Hok].
    pose proof (spans_ok_pos _ _ _ Hok) as Hend.
    pose proof (len_nonneg c) as Hc0.
    destruct (IH (start + len c) ltac:(lia) Hok) as [IHb IHl].
    assert (Hw : length (window readString start (length c)) = length c)
      by (apply window_length; unfold len in *; lia).
    destruct (zip_mark_lower_bases (window readString start (length c)) c
                ltac:(lia)) as [Hzb Hzl].
    cbn [annotate length]. split.
    + rewrite !bases_of_app, Hzb, IHb.
      change (bases_of (lit "[")) with (@nil ascii).
      change (bases_of (lit "]")) with (@nil ascii). cbn [app].
      rewrite (skipn_window readString pos (Z.to_nat (start - pos)) H0).
      rewrite bases_of_app. f_equal.
      replace (pos + Z.of_nat (Z.to_nat (start - pos))) with start by lia.
      rewrite (skipn_window readString start (length c)) by lia.
      rewrite bases_of_app. unfold len. reflexivity.
    + unfold len in *. rewrite !length_app, Hzl, Hw.
      rewrite window_length by (unfold len; lia).
      change (length (lit "[")) with 1%nat.
      change (length (lit "]")) with 1%nat. lia.
Qed.

(** X15.  The record keeps the read: for every confirmed match of a
    validly constructed pair, the text written is the read name, a tab,
    an annotated sequence, a tab, the label and a newline, where the
    annotated sequence has the length of the read plus two brackets for
    each side that requires presence, and, brackets dropped and case
    ignored, is the read. *)
Theorem record_keeps_read (maxsub : Z) (tp : TargetPair)
        (readName readString : str) (v0 : locals) :
  wf_TargetPair tp ->
  matches maxsub tp readString v0 ->
  exists annotated,
    findMatch maxsub tp readName readString v0
    = Ok (readName ++ [tab] ++ annotated ++ [tab] ++ label tp ++ [newline])
    /\ bases_of annotated = bases_of readString
    /\ len annotated
       = len readString
         + 2 * ((if want (left tp) then 1 else 0)
                + (if want (right tp) then 1 else 0)).
Proof.
  intros Hwf [f Ec].
  destruct (findMatch_report maxsub tp readName readString Hwf v0)
    as (b & f' & Ec' & _ & Eo).
  rewrite Ec in Ec'. injection Ec' as <- <-.
  pose proof (confirmed_spans_ok maxsub tp readString v0 f Hwf Ec) as Hok.
  destruct (annotate_keeps_read readString 0 _ ltac:(lia) Hok) as [Hb Hl].
  exists (annotate mark_lower readString 0 (spans_of tp (vars f))).
  split; [|split].
  - rewrite Eo. unfold output_line. f_equal. norm_app. reflexivity.
  - exact Hb.
  - rewrite Hl. unfold spans_of.
    destruct (want (left tp)); destruct (want (right tp)); cbn [app length];
      lia.
Qed.

Lemma record_keeps_read_witness :
  exists annotated,
    findMatch 1 FUS (lit "read1") (lit "NNNAAAATCCCxxxxGGGGTTTTNNN")
              some_locals
    = Ok (lit "read1" ++ [tab] ++ annotated ++ [tab] ++ label FUS
          ++ [newline])
    /\ bases_of annotated = bases_of (lit "NNNAAAATCCCxxxxGGGGTTTTNNN")
    /\ len annotated
       = len (lit "NNNAAAATCCCxxxxGGGGTTTTNNN")
         + 2 * ((if want (left FUS) then 1 else 0)
                + (if want (right FUS) then 1 else 0)).
Proof.
  exact (record_keeps_read 1 FUS (lit "read1")
           (lit "NNNAAAATCCCxxxxGGGGTTTTNNN") some_locals FUS_wf
           (ex_intro _ (mkFrame (mkLocals 0 3 0 15)
                                [LeftmostCall 8; RightmostCall 11])
                     eq_refl)).
Defined.

(** ** The catalog, continued *)

Lemma readTargetPairs_step_error (line : str) (cat cat' : list TargetPair)
      (e : fault) :
  readTargetPairs_step line cat = Err e ->
  readTargetPairs_step line cat' = Err e.
Proof.
  unfold readTargetPairs_step.
  destruct (negb _); [trivial|].
  destruct (array_get _ 0) as [c0|e0]; cbn [bind]; [|trivial].
  destruct (array_get _ 1) as [c1|e1]; cbn [bind]; [|trivial].
  destruct (array_get _ 2) as [c2|e2]; cbn [bind]; [|trivial].
  destruct (TargetPair_new c0 c1 c2) as [tp|e3]; cbn [bind]; [|trivial].
  destruct (createReverseComplement tp) as [rc|e4]; cbn [bind]; [|trivial].
  discriminate.
Qed.

Lemma readTargetPairs_loop_good (good rest : list str)
      (cat : list TargetPair) :
  existsb malformed good = false ->
  exists cat', readTargetPairs_loop (good ++ rest) cat
               = readTargetPairs_loop rest cat'.
Proof.
  revert cat. induction good as [|line good IH]; intros cat Hgood.
  - exists cat. reflexivity.
  - cbn [existsb] in Hgood. apply orb_false_iff in Hgood.
    destruct Hgood as [Hline Hgood]. cbn [app readTargetPairs_loop].
    destruct (readTargetPairs_step_spec line cat)
      as [(Em & _) | (_ & tp & _ & _ & ->)];
      [rewrite Em in Hline; discriminate Hline|].
    cbn [bind]. apply IH, Hgood.
Qed.

(** X16.  Empty input is an error ("no input targets"), and a catalog
    that was built has exactly two entries for each input line. *)
Theorem catalog_size :
  readTargetPairs [] = Err (runtime_error (lit "no input targets"))
  /\ forall (lines : list str) (cat : list TargetPair),
      readTargetPairs lines = Ok cat ->
      lines <> [] /\ length cat = (2 * length lines)%nat.
Proof.
  split; [reflexivity|]. intros lines cat E.
  assert (Hlen : length cat = (2 * length lines)%nat).
  { unfold readTargetPairs in E.
    destruct (readTargetPairs_loop_spec lines [])
      as [(_ & msg & E') | (_ & tps & Hdefs & _ & E')];
      rewrite E' in E; cbn [bind app] in E; [discriminate E|].
    destruct (Z.of_nat _ =? 0); [discriminate E|]. injection E as <-.
    clear E'. induction Hdefs as [|line tp lines tps _ _ IH];
      [reflexivity|].
    cbn [flat_map app length]. rewrite IH. lia. }
  split; [|exact Hlen]. intros ->. discriminate E.
Qed.

Lemma catalog_size_witness :
  [FUS_line] <> [] /\ length [FUS; FUS] = (2 * length [FUS_line])%nat.
Proof.
  exact (proj2 catalog_size [FUS_line] [FUS; FUS] eq_refl).
Defined.

(** The first malformed line ends [readTargetPairs], in its error. *)
Lemma readTargetPairs_first_error (good rest : list str) (bad : str)
      (e : fault) :
  existsb malformed good = false ->
  readTargetPairs_step bad [] = Err e ->
  readTargetPairs (good ++ bad :: rest) = Err e.
Proof.
  intros Hgood Hbad. unfold readTargetPairs.
  destruct (readTargetPairs_loop_good good (bad :: rest) [] Hgood)
    as [cat' ->].
  cbn [readTargetPairs_loop].
  now rewrite (readTargetPairs_step_error bad [] cat' e Hbad).
Qed.

(** X17.  The error of the first malformed line is the one reported,
    whatever follows it; for a line that does not have three columns
    its [what()] is "unexpected #columns in" followed by the line, up to
    the first NUL of the line if it has one. *)
Theorem first_malformed_line_reported (good rest : list str) (bad : str)
        (e : fault) :
  existsb malformed good = false ->
  readTargetPairs_step bad [] = Err e ->
  readTargetPairs (good ++ bad :: rest) = Err e
  /\ (length (getDelimitedStrings bad tab []) <> 3%nat ->
      e = runtime_error (lit "unexpected #columns in " ++ what_of bad)).
Proof.
  intros Hgood Hbad. split.
  - now apply readTargetPairs_first_error.
  - intros Hcols. unfold readTargetPairs_step in Hbad.
    destruct (Z.eqb_spec (Z.of_nat (length (getDelimitedStrings bad tab [])))
                         3) as [E3|_]; [lia|].
    cbn [negb] in Hbad. now injection Hbad as <-.
Qed.

Lemma first_malformed_line_reported_witness :
  readTargetPairs
    ([FUS_line] ++ (lit "FU" ++ zero :: lit "S") :: [short_line])
  = Err (runtime_error (lit "unexpected #columns in FU"))
  /\ (length (getDelimitedStrings (lit "FU" ++ zero :: lit "S") tab [])
      <> 3%nat ->
      runtime_error (lit "unexpected #columns in FU")
      = runtime_error
          (lit "unexpected #columns in "
               ++ what_of (lit "FU" ++ zero :: lit "S"))).
Proof.
  apply (first_malformed_line_reported [FUS_line] [short_line]
           (lit "FU" ++ zero :: lit "S")
           (runtime_error (lit "unexpected #columns in FU")));
    vm_compute; reflexivity.
Defined.

(** ** The scan *)

Lemma match_pairs_total (maxsub : Z) (cat : list TargetPair)
      (readName readString : str) (v0 : locals) :
  Forall wf_TargetPair cat ->
  exists out, match_pairs maxsub cat readName readString v0 = Ok out.
Proof.
  induction 1 as [|tp cat Hwf _ [out IH]]; [now exists []|].
  cbn [match_pairs].
  destruct (findMatch_report maxsub tp readName readString Hwf v0)
    as (b & f & _ & _ & ->).
  rewrite IH. cbn [bind]. eauto.
Qed.

Lemma match_reads_total (maxsub : Z) (cat : list TargetPair)
      (reads : list (str * str)) (v0 : locals) :
  Forall wf_TargetPair cat ->
  exists out, match_reads maxsub cat reads v0 = Ok out.
Proof.
  intros Hwf. induction reads as [|[name bases] reads [out IH]];
    [now exists []|].
  cbn [match_reads].
  destruct (match_pairs_total maxsub cat name bases v0 Hwf) as [o ->].
  rewrite IH. cbn [bind]. eauto.
Qed.

Lemma match_reads_app (maxsub : Z) (cat : list TargetPair)
      (reads1 reads2 : list (str * str)) (v0 : locals) (out1 out2 : str) :
  match_reads maxsub cat reads1 v0 = Ok out1 ->
  match_reads maxsub cat reads2 v0 = Ok out2 ->
  match_reads maxsub cat (reads1 ++ reads2) v0 = Ok (out1 ++ out2).
Proof.
  revert out1. induction reads1 as [|[name bases] reads1 IH];
    intros out1 E1 E2.
  - injection E1 as <-. exact E2.
  - cbn [app match_reads] in *.
    destruct (match_pairs maxsub cat name bases v0) as [o|e];
      cbn [bind] in *; [|discriminate E1].
    destruct (match_reads maxsub cat reads1 v0) as [os|e];
      cbn [bind] in *; [|discriminate E1].
    injection E1 as <-. rewrite (IH os eq_refl E2). cbn [bind].
    now rewrite app_assoc.
Qed.

Lemma catalog_wf (lines : list str) (cat : list TargetPair) :
  readTargetPairs lines = Ok cat -> Forall wf_TargetPair cat.
Proof.
  intros E. unfold readTargetPairs in E.
  destruct (readTargetPairs_loop_spec lines [])
    as [(_ & msg & E') | (_ & tps & _ & Hwfs & E')];
    rewrite E' in E; cbn [bind app] in E; [discriminate E|].
  destruct (Z.of_nat _ =? 0); [discriminate E|]. injection E as <-.
  clear E'. induction Hwfs as [|tp tps Hwf _ IH]; [constructor|].
  cbn [flat_map app]. constructor; [exact Hwf|].
  constructor; [now apply mirror_pair_wf | exact IH].
Qed.

(** X18.  Nothing fails during the scan: [readBamFile] returns normally
    for every list of reads exactly when the target input is non-empty
    and has no malformed line; and the output for a list of reads is the
    output for its first part followed by the output for the rest (no
    state is carried from read to read). *)
Theorem scan_never_fails (maxsub : Z) (lines : list str) (v0 : locals) :
  (forall reads,
      (exists out, readBamFile maxsub lines reads v0 = Ok out)
      <-> lines <> [] /\ existsb malformed lines = false)
  /\ (forall reads1 reads2 out1 out2,
         readBamFile maxsub lines reads1 v0 = Ok out1 ->
         readBamFile maxsub lines reads2 v0 = Ok out2 ->
         readBamFile maxsub lines (reads1 ++ reads2) v0 = Ok (out1 ++ out2)).
Proof.
  split.
  - intros reads. unfold readBamFile. split.
    + intros [out E].
      destruct (readTargetPairs lines) as [cat|e] eqn:Ecat;
        [|discriminate E].
      split; [intros ->; discriminate Ecat|].
      unfold readTargetPairs in Ecat.
      destruct (readTargetPairs_loop_spec lines [])
        as [(_ & msg & E') | (Hok & _)]; [|exact Hok].
      rewrite E' in Ecat. discriminate Ecat.
    + intros [Hne Hok]. unfold readTargetPairs.
      destruct (readTargetPairs_loop_spec lines [])
        as [(Hbad & _) | (_ & tps & Hdefs & Hwfs & E')];
        [rewrite Hbad in Hok; discriminate Hok|].
      pose proof E' as E''. rewrite E'. cbn [bind app].
      destruct lines as [|line lines]; [contradiction|].
      inversion Hdefs as [|? tp ? tps' _ _]; subst.
      cbn [flat_map app length]. cbn [bind].
      change (Z.of_nat
                (S (S (length (flat_map (fun tp0 => [tp0; mirror_pair tp0])
                                        tps')))) =? 0)
        with false. cbv iota.
      apply match_reads_total.
      assert (Hcat : readTargetPairs (line :: lines)
                     = Ok (tp :: mirror_pair tp
                              :: flat_map (fun tp0 => [tp0; mirror_pair tp0])
                                          tps')).
      { unfold readTargetPairs. rewrite E''. reflexivity. }
      exact (catalog_wf _ _ Hcat).
  - intros reads1 reads2 out1 out2. unfold readBamFile.
    destruct (readTargetPairs lines) as [cat|e]; cbn [bind];
      [|discriminate].
    apply match_reads_app.
Qed.

Lemma scan_never_fails_witness :
  exists out,
    readBamFile 2 [FUS_line] [(lit "read1", lit "AC"); (lit "read2", [])]
                some_locals = Ok out.
Proof.
  apply (proj2 (proj1 (scan_never_fails 2 [FUS_line] some_locals)
                      [(lit "read1", lit "AC"); (lit "read2", [])])).
  split; [discriminate | vm_compute; reflexivity].
Defined.

(** X19.  A pair that is its own mirror is in the catalog twice, so
    every read that matches it is reported twice: with a one-line target
    input whose pair equals its mirror, the output for a read is the
    record of [findMatch] written two times. *)
Theorem self_mirror_pair_reports_twice (maxsub : Z) (line : str)
        (cat : list TargetPair) (v0 : locals) :
  readTargetPairs [line] = Ok cat ->
  exists tp,
    cat = [tp; mirror_pair tp]
    /\ (mirror_pair tp = tp ->
        forall readName readString,
        exists o,
          findMatch maxsub tp readName readString v0 = Ok o
          /\ readBamFile maxsub [line] [(readName, readString)] v0
             = Ok (o ++ o)).
Proof.
  intros E. pose proof (catalog_wf _ _ E) as Hwfs.
  pose proof E as E0. unfold readTargetPairs in E.
  destruct (readTargetPairs_loop_spec [line] [])
    as [(_ & msg & E') | (_ & tps & Hdefs & _ & E')];
    rewrite E' in E; cbn [bind app] in E; [discriminate E|].
  destruct (Z.of_nat _ =? 0); [discriminate E|]. injection E as <-.
  inversion Hdefs as [|? tp ? tps' _ Hrest]; subst.
  inversion Hrest; subst. cbn [flat_map app] in *.
  exists tp. split; [reflexivity|]. intros Hself readName readString.
  inversion Hwfs as [|? ? Hwf _]; subst.
  destruct (findMatch_report maxsub tp readName readString Hwf v0)
    as (b & f & _ & _ & Eo).
  eexists. split; [exact Eo|].
  unfold readBamFile. rewrite E0. cbn [bind match_reads match_pairs].
  rewrite Hself, Eo. cbn [bind]. now rewrite !app_nil_r.
Qed.

Lemma self_mirror_pair_reports_twice_witness :
  exists tp,
    [FUS; FUS] = [tp; mirror_pair tp]
    /\ (mirror_pair tp = tp ->
        forall readName readString,
        exists o,
          findMatch 0 tp readName readString some_locals = Ok o
          /\ readBamFile 0 [FUS_line] [(readName, readString)] some_locals
             = Ok (o ++ o)).
Proof.
  exact (self_mirror_pair_reports_twice 0 FUS_line [FUS; FUS] some_locals
           eq_refl).
Defined.

(** ** The command line *)

Lemma str_eqb_eq (a b : str) : str_eqb a b = true <-> a = b.
Proof.
  unfold str_eqb. destruct (list_eq_dec ascii_dec a b); split; congruence.
Qed.

Lemma str_eqb_nil (a : str) : str_eqb a [] = false <-> a <> [].
Proof.
  unfold str_eqb. destruct (list_eq_dec ascii_dec a []); split; congruence.
Qed.

Lemma str_eqb_cons (c : ascii) (a b : str) :
  str_eqb (c :: a) (c :: b) = str_eqb a b.
Proof.
  unfold str_eqb.
  destruct (list_eq_dec ascii_dec (c :: a) (c :: b)) as [E|N];
    destruct (list_eq_dec ascii_dec a b) as [E'|N']; try reflexivity.
  - injection E as E. contradiction.
  - subst b. now contradiction N.
Qed.

(** The test for the option [-maxsub=N] in [parseArgs]. *)
Lemma maxsub_option_test (arg : str) (c : ascii) :
  read_at arg 0 = Ok c -> Ascii.eqb c "-" = true ->
  (if len arg >? 8
   then p <- substr arg 1 7 ;; Ok (str_eqb p (lit "maxsub="))
   else Ok false)
  = Ok (is_maxsub_option arg)
  /\ (is_maxsub_option arg = true ->
      substr arg 8 (-1) = Ok (skipn 8 arg)).
Proof.
  intros Hc Hminus. apply Ascii.eqb_eq in Hminus. subst c.
  destruct arg as [|a0 arg]; [discriminate Hc|].
  cbn in Hc. injection Hc as ->.
  unfold is_maxsub_option. rewrite Z.gtb_ltb.
  pose proof (len_nonneg ("-"%char :: arg)) as Hl.
  destruct (Z.ltb_spec 8 (len ("-"%char :: arg))) as [Hlen|Hlen];
    cbn [andb]; [|split; [reflexivity | discriminate]].
  split.
  - rewrite substr_window by lia. cbn [bind]. f_equal.
    change (firstn 8 ("-"%char :: arg)) with ("-"%char :: firstn 7 arg).
    change (lit "-maxsub=") with ("-"%char :: lit "maxsub=").
    now rewrite str_eqb_cons.
  - intros _. unfold substr.
    destruct (Z.ltb_spec 8 0); [lia|].
    destruct (Z.gtb_spec 8 (len ("-"%char :: arg))); [lia|]. reflexivity.
Qed.

Section ParseArgs.
Variable extract_int : str -> Z -> Z.

Lemma read_at_first (arg : str) :
  (len arg =? 0) = false ->
  exists c rest, arg = c :: rest /\ read_at arg 0 = Ok c.
Proof.
  intros H. destruct arg as [|c rest]; [discriminate H|].
  exists c, rest. split; reflexivity.
Qed.

(** One argument of [parseArgs], by its kind. *)
Lemma parseArgs_cons (arg : str) (rest : list str) (g : globals) :
  parseArgs extract_int (arg :: rest) g
  = if len arg =? 0 then parseArgs extract_int rest g
    else if is_filename arg then
      if str_eqb (g_bam_filename g) []
      then parseArgs extract_int rest (mkGlobals (g_maxsub g) arg)
      else Ok (false, g)
    else if is_maxsub_option arg then
      let g' := mkGlobals (extract_int (skipn 8 arg) (g_maxsub g))
                          (g_bam_filename g) in
      if g_maxsub g' <? 0 then Ok (false, g')
      else parseArgs extract_int rest g'
    else Ok (false, g).
Proof.
  cbn [parseArgs]. destruct (len arg =? 0) eqn:E0; [reflexivity|].
  destruct (read_at_first arg E0) as (c & tl & -> & ->). cbn [bind].
  cbn [is_filename]. destruct (Ascii.eqb c "-") eqn:Ec; cbn [negb];
    [|reflexivity].
  destruct (maxsub_option_test (c :: tl) c eq_refl Ec) as [-> Hs].
  cbn [bind]. destruct (is_maxsub_option (c :: tl)); [|reflexivity].
  rewrite (Hs eq_refl). reflexivity.
Qed.

Lemma parseArgs_total (args : list str) (g : globals) :
  exists b g', parseArgs extract_int args g = Ok (b, g').
Proof.
  revert g. induction args as [|arg rest IH]; intros g.
  - cbn [parseArgs]. destruct (str_eqb _ _); eauto.
  - rewrite parseArgs_cons.
    destruct (len arg =? 0); [apply IH|].
    destruct (is_filename arg).
    + destruct (str_eqb _ _); [apply IH | eauto].
    + destruct (is_maxsub_option arg); [|eauto]. cbv zeta.
      destruct (_ <? 0); [eauto | apply IH].
Qed.

Lemma parseArgs_accepted (args : list str) (g g' : globals) :
  parseArgs extract_int args g = Ok (true, g') ->
  0 <= g_maxsub g ->
  0 <= g_maxsub g'
  /\ g_bam_filename g' <> []
  /\ (g_bam_filename g = [] ->
      filter is_filename args = [g_bam_filename g'])
  /\ (g_bam_filename g <> [] ->
      filter is_filename args = [] /\ g_bam_filename g' = g_bam_filename g)
  /\ Forall (fun a => a = [] \/ is_filename a = true
                      \/ is_maxsub_option a = true) args
  /\ g_maxsub g' = maxsub_after extract_int args (g_maxsub g).
Proof.
  revert g. induction args as [|arg rest IH]; intros g E Hm.
  - cbn [parseArgs] in E.
    destruct (str_eqb (g_bam_filename g) []) eqn:Eb; [discriminate E|].
    injection E as <-. apply str_eqb_nil in Eb.
    repeat split; try assumption; try constructor; try contradiction.
  - rewrite parseArgs_cons in E. unfold maxsub_after. cbn [filter fold_left].
    destruct (len arg =? 0) eqn:E0.
    { destruct arg as [|c tl]; [|discriminate E0].
      change (is_filename []) with false.
      change (is_maxsub_option []) with false. cbv iota.
      destruct (IH g E Hm) as (H1 & H2 & H3 & H4 & H5 & H6).
      repeat split; try assumption.
      - apply H4; assumption.
      - apply H4; assumption.
      - constructor; [now left | exact H5]. }
    destruct (is_filename arg) eqn:Ef.
    { assert (Ho : is_maxsub_option arg = false).
      { destruct arg as [|c tl]; [reflexivity|]. cbn [is_filename] in Ef.
        apply negb_true_iff, Ascii.eqb_neq in Ef.
        unfold is_maxsub_option. apply andb_false_iff. right.
        unfold str_eqb.
        destruct (list_eq_dec ascii_dec (firstn 8 (c :: tl))
                              (lit "-maxsub=")) as [Ep|_]; [|reflexivity].
        cbn in Ep. destruct tl; injection Ep as Ep _; now contradiction Ef. }
      rewrite Ho.
      destruct (str_eqb (g_bam_filename g) []) eqn:Eb; [|discriminate E].
      apply str_eqb_eq in Eb.
      destruct (IH _ E Hm) as (H1 & H2 & H3 & H4 & H5 & H6).
      cbn [g_bam_filename g_maxsub] in *.
      assert (Hne : arg <> []) by (intros ->; discriminate Ef).
      destruct (H4 Hne) as [H4a H4b].
      split; [exact H1|]. split; [exact H2|].
      split; [intros _; now rewrite H4a, H4b|].
      split; [intros Hc; contradiction|].
      split; [constructor; [tauto | exact H5] | exact H6]. }
    destruct (is_maxsub_option arg) eqn:Eo; [|discriminate E].
    cbv zeta in E. cbn [g_maxsub g_bam_filename] in E.
    destruct (Z.ltb_spec (extract_int (skipn 8 arg) (g_maxsub g)) 0)
      as [Hneg|Hpos]; [discriminate E|].
    destruct (IH _ E Hpos) as (H1 & H2 & H3 & H4 & H5 & H6).
    cbn [g_bam_filename g_maxsub] in *.
    split; [exact H1|]. split; [exact H2|].
    split; [exact H3|]. split; [exact H4|].
    split; [constructor; [tauto | exact H5] | exact H6].
Qed.

End ParseArgs.

(** X20.  A command line that [parseArgs] accepts leaves [maxsub]
    non-negative and [bam_filename] non-empty: exactly one argument is
    neither empty nor an option, and it is the file name; every option
    is [-maxsub=] followed by at least one character; and [maxsub] is
    the default 2 updated by the extractions of the options in order.
    [parseArgs] itself never fails. *)
Theorem parseArgs_accepts (extract_int : str -> Z -> Z) (args : list str) :
  (exists b g, parseArgs extract_int args initial_globals = Ok (b, g))
  /\ forall g,
      parseArgs extract_int args initial_globals = Ok (true, g) ->
      0 <= g_maxsub g
      /\ g_bam_filename g <> []
      /\ filter is_filename args = [g_bam_filename g]
      /\ Forall (fun a => a = [] \/ is_filename a = true
                          \/ is_maxsub_option a = true) args
      /\ g_maxsub g = maxsub_after extract_int args DEFAULT_MAXSUB.
Proof.
  split; [apply parseArgs_total|]. intros g E.
  assert (H0 : 0 <= g_maxsub initial_globals) by (vm_compute; discriminate).
  destruct (parseArgs_accepted extract_int args initial_globals g E H0)
    as (H1 & H2 & H3 & _ & H5 & H6).
  split; [exact H1|]. split; [exact H2|]. split; [now apply H3|].
  split; [exact H5 | exact H6].
Qed.

Lemma parseArgs_accepts_witness :
  0 <= 7
  /\ lit "reads.bam" <> []
  /\ filter is_filename [lit "-maxsub=7"; []; lit "reads.bam"]
     = [lit "reads.bam"]
  /\ Forall (fun a => a = [] \/ is_filename a = true
                      \/ is_maxsub_option a = true)
            [lit "-maxsub=7"; []; lit "reads.bam"]
  /\ 7 = maxsub_after extract_seven [lit "-maxsub=7"; []; lit "reads.bam"]
                      DEFAULT_MAXSUB.
Proof.
  apply (proj2 (parseArgs_accepts extract_seven
                  [lit "-maxsub=7"; []; lit "reads.bam"])
               (mkGlobals 7 (lit "reads.bam"))).
  vm_compute. reflexivity.
Defined.

(** ** The main program *)

Lemma readBamFile_cases (maxsub : Z) (lines : list str)
      (reads : list (str * str)) (v0 : locals) :
  (lines <> [] /\ existsb malformed lines = false
   /\ exists out, readBamFile maxsub lines reads v0 = Ok out)
  \/ ((lines = [] \/ existsb malformed lines = true)
      /\ exists msg, readBamFile maxsub lines reads v0
                     = Err (runtime_error msg)).
Proof.
  unfold readBamFile.
  destruct (readTargetPairs lines) as [cat|e] eqn:Ecat.
  - left. cbn [bind].
    split; [intros ->; discriminate Ecat|]. split.
    + unfold readTargetPairs in Ecat.
      destruct (readTargetPairs_loop_spec lines [])
        as [(_ & msg & E') | (Hok & _)]; [|exact Hok].
      rewrite E' in Ecat. discriminate Ecat.
    + apply match_reads_total. exact (catalog_wf _ _ Ecat).
  - right. cbn [bind]. unfold readTargetPairs in Ecat.
    destruct (readTargetPairs_loop_spec lines [])
      as [(Hbad & msg & E') | (_ & tps & Hdefs & _ & E')];
      rewrite E' in Ecat; cbn [bind app] in Ecat.
    + injection Ecat as <-. split; [now right | eauto].
    + destruct (Z.of_nat _ =? 0) eqn:E0; [|discriminate Ecat].
      injection Ecat as <-. split; [|eauto]. left.
      apply Z.eqb_eq in E0.
      destruct Hdefs; [reflexivity|]. cbn [flat_map app length] in E0. lia.
Qed.

(** X21.  The whole program.  [main] always ends with exit status 0 or
    1 (no exception other than the [runtime_error] it catches is
    raised), and the status is 0 exactly when the command line is
    accepted, the BAM file opens, and the target input is non-empty
    without a malformed line.  What it writes, case by case:
    - command line rejected: the usage text on stdout, nothing on stderr;
    - BAM file not opened: nothing on stdout, and on stderr the program
      name, a colon and "unable to open" with the file name;
    - no target line: likewise, with "no input targets";
    - a malformed target line: likewise, with the [what()] of the error
      the first malformed line raises;
    - otherwise: the output of the scan on stdout, nothing on stderr. *)
Theorem main_exit_status (extract_int : str -> Z -> Z) (progname : str)
        (args : list str) (bam : option (list (str * str)))
        (lines : list str) (v0 : locals) :
  (exists o,
      main extract_int progname args bam lines v0 = Ok o
      /\ (status o = 0 \/ status o = 1)
      /\ (status o = 0
          <-> (exists g,
                  parseArgs extract_int args initial_globals = Ok (true, g))
              /\ bam <> None /\ lines <> []
              /\ existsb malformed lines = false))
  /\ (forall g,
         parseArgs extract_int args initial_globals = Ok (false, g) ->
         main extract_int progname args bam lines v0
         = Ok (mkOutcome 1 (showUsage progname) []))
  /\ (forall g,
         parseArgs extract_int args initial_globals = Ok (true, g) ->
         (bam = None ->
          main extract_int progname args bam lines v0
          = Ok (mkOutcome 1 []
                  (progname ++ lit ": unable to open "
                            ++ what_of (g_bam_filename g) ++ [newline])))
         /\ (forall reads,
                bam = Some reads ->
                (lines = [] ->
                 main extract_int progname args bam lines v0
                 = Ok (mkOutcome 1 []
                         (progname ++ lit ": no input targets"
                                   ++ [newline])))
                /\ (forall good bad rest,
                       lines = good ++ bad :: rest ->
                       existsb malformed good = false ->
                       malformed bad = true ->
                       exists what,
                         readTargetPairs_step bad []
                         = Err (runtime_error what)
                         /\ main extract_int progname args bam lines v0
                            = Ok (mkOutcome 1 []
                                    (progname ++ lit ": " ++ what
                                              ++ [newline])))
                /\ (lines <> [] -> existsb malformed lines = false ->
                    exists out,
                      readBamFile (g_maxsub g) lines reads v0 = Ok out
                      /\ main extract_int progname args bam lines v0
                         = Ok (mkOutcome 0 out [])))).
Proof.
  split; [|split].
  - unfold main.
    destruct (parseArgs_total extract_int args initial_globals)
      as (b & g & Ep).
    rewrite Ep. cbn [bind]. destruct b; cbn [negb].
    + destruct bam as [reads|]; cbn [readBamFile_open].
      * destruct (readBamFile_cases (g_maxsub g) lines reads v0)
          as [(Hne & Hok & out & ->) | (Hbad & msg & ->)].
        -- eexists. split; [reflexivity|]. cbn [status].
           split; [now left|]. split; [intros _|reflexivity].
           split; [eauto|]. split; [discriminate|]. split; assumption.
        -- eexists. split; [reflexivity|]. cbn [status].
           split; [now right|]. split; [discriminate|].
           intros (_ & _ & Hne & Hok). exfalso.
           destruct Hbad as [H|H]; [contradiction|].
           rewrite H in Hok. discriminate Hok.
      * eexists. split; [reflexivity|]. cbn [status].
        split; [now right|]. split; [discriminate|].
        intros (_ & Hb & _). now contradiction Hb.
    + eexists. split; [reflexivity|]. cbn [status].
      split; [now right|]. split; [discriminate|].
      intros ([g' Hg] & _). discriminate Hg.
  - intros g Ep. unfold main. rewrite Ep. reflexivity.
  - intros g Ep. unfold main. rewrite Ep. cbn [bind negb]. split.
    + intros ->. reflexivity.
    + intros reads ->. cbn [readBamFile_open]. split; [|split].
      * intros ->. reflexivity.
      * intros good bad rest -> Hgood Hbad.
        destruct (readTargetPairs_step_spec bad [])
          as [(_ & what & E) | (Hok & _)];
          [|rewrite Hok in Hbad; discriminate Hbad].
        exists what. split; [exact E|]. unfold readBamFile.
        rewrite (readTargetPairs_first_error good rest bad _ Hgood E).
        reflexivity.
      * intros Hne Hgood.
        destruct (readBamFile_cases (g_maxsub g) lines reads v0)
          as [(_ & _ & out & E) | ([H|H] & _)];
          [|contradiction|rewrite H in Hgood; discriminate Hgood].
        exists out. split; [exact E|]. now rewrite E.
Qed.

Lemma main_exit_status_witness :
  exists what,
    readTargetPairs_step (lit "FU" ++ zero :: lit "S") []
    = Err (runtime_error what)
    /\ main extract_seven (lit "fuzzion") [lit "-maxsub=1"; lit "reads.bam"]
            (Some [(lit "read1", lit "AAAACCCCGGGGTTTT")])
            ([FUS_line] ++ (lit "FU" ++ zero :: lit "S") :: [KMT_line])
            some_locals
       = Ok (mkOutcome 1 [] (lit "fuzzion" ++ lit ": " ++ what ++ [newline])).
Proof.
  destruct (main_exit_status extract_seven (lit "fuzzion")
              [lit "-maxsub=1"; lit "reads.bam"]
              (Some [(lit "read1", lit "AAAACCCCGGGGTTTT")])
              ([FUS_line] ++ (lit "FU" ++ zero :: lit "S") :: [KMT_line])
              some_locals) as (_ & _ & H).
  destruct (H (mkGlobals 7 (lit "reads.bam"))) as (_ & Hopen);
    [vm_compute; reflexivity|].
  destruct (Hopen [(lit "read1", lit "AAAACCCCGGGGTTTT")] eq_refl)
    as (_ & Hbad & _).
  apply (Hbad [FUS_line] (lit "FU" ++ zero :: lit "S") [KMT_line]);
    vm_compute; reflexivity.
Defined.
